(** * quiz-p2p: the signaling mailbox relay and the peer negotiation engine

    A shallow embedding of

    - [src/app/api/signaling/route.ts]   (module [Route]): the in-memory
      mailbox store behind the [POST] endpoint and its periodic sweep;
    - [src/app/services/signaling.ts]    (module [Signaling]): the polling
      client's cursor handling;
    - the WebRTC service ([RTCService], module [Rtc]): the per-peer
      offer/answer state machine and the table of peer connections.

    JavaScript [Map]s iterate in insertion order and the endpoint builds its
    response arrays by iterating them, so maps are modelled as
    insertion-ordered association lists ([JsMap]).  Timestamps are
    [Date.now()] values, modelled as [Z]. *)

From Stdlib Require Import List String ZArith Lia Bool Arith.
Import ListNotations.

(* ================================================================== *)
(** ** Insertion-ordered maps with string keys (the JavaScript [Map]) *)
(* ================================================================== *)

Module JsMap.

Definition t (V : Type) : Type := list (string * V).

Section Operations.
Context {V : Type}.

Definition empty : t V := [].

(** [m.get(k)] *)
Fixpoint get (k : string) (m : t V) : option V :=
  match m with
  | [] => None
  | (k', v) :: m' => if String.eqb k' k then Some v else get k m'
  end.

(** [m.has(k)] *)
Definition has (k : string) (m : t V) : bool :=
  match get k m with Some _ => true | None => false end.

(** [m.set(k, v)]: an existing key keeps its position, a new key goes
    to the end. *)
Fixpoint set (k : string) (v : V) (m : t V) : t V :=
  match m with
  | [] => [(k, v)]
  | (k', v') :: m' =>
      if String.eqb k' k then (k, v) :: m' else (k', v') :: set k v m'
  end.

(** [m.delete(k)] *)
Definition delete (k : string) (m : t V) : t V :=
  filter (fun e => negb (String.eqb (fst e) k)) m.

(** [Array.from(m.keys())], [Array.from(m.values())], [m.size] *)
Definition keys (m : t V) : list string := map fst m.
Definition values (m : t V) : list V := map snd m.
Definition size (m : t V) : nat := List.length m.

(** [for (const v of m.values()) { ...mutate v in place... }] *)
Definition update_all (f : V -> V) (m : t V) : t V :=
  map (fun e => (fst e, f (snd e))) m.

(** [for (const [k, v] of m.entries()) if (!keep(k, v)) m.delete(k)] *)
Definition retain (keep : string -> V -> bool) (m : t V) : t V :=
  filter (fun e => keep (fst e) (snd e)) m.

(** The keys of a map that was built with [set] are pairwise distinct. *)
Definition wf (m : t V) : Prop := NoDup (keys m).
End Operations.

End JsMap.

(* ================================================================== *)
(** ** JSON values as far as the endpoint inspects them                *)
(* ================================================================== *)

(** The [offer] and [answer] payloads are typed [any]; the endpoint only
    tests their truthiness and stores them. *)
Inductive JsValue : Type :=
| JsUndefined
| JsNull
| JsBool (b : bool)
| JsNumber (z : Z)
| JsString (s : string)
| JsObject (fields : list (string * string)).

Definition truthy (v : JsValue) : bool :=
  match v with
  | JsUndefined | JsNull => false
  | JsBool b => b
  | JsNumber z => negb (Z.eqb z 0)
  | JsString s => negb (String.eqb s "")
  | JsObject _ => true
  end.

(** Truthiness of a string-valued field; an absent field is the empty
    string, which [!x] treats like [undefined]. *)
Definition truthyStr (s : string) : bool := negb (String.eqb s "").

(** [x || 0] for a numeric field that may be absent. *)
Definition orZero (x : option Z) : Z :=
  match x with
  | Some z => if Z.eqb z 0 then 0%Z else z
  | None => 0%Z
  end.

(** [{ peerId, isHost }] as sent in [peers] and [newPeers]. *)
Module Peer.
Record t : Type := mk { peerId : string; isHost : bool }.
End Peer.

(** One pending record of a mailbox: [{ from, offer, timestamp }] in
    [offers], [{ from, answer, timestamp }] in [answers]; [payload] is the
    [offer] resp. [answer] field. *)
Module Signal.
Record t : Type := mk { from : string; payload : JsValue; timestamp : Z }.
End Signal.

(* ================================================================== *)
(** ** route.ts: the mailbox store                                     *)
(* ================================================================== *)

Module Route.
Local Open Scope string_scope.
Local Open Scope list_scope.
Local Open Scope Z_scope.

Module PeerInfo.
Record t : Type := mk {
  peerId : string;
  lastSeen : Z;
  offers : list Signal.t;
  answers : list Signal.t
}.
Definition set_lastSeen (x : Z) (p : t) : t :=
  mk (peerId p) x (offers p) (answers p).
Definition set_offers (x : list Signal.t) (p : t) : t :=
  mk (peerId p) (lastSeen p) x (answers p).
Definition set_answers (x : list Signal.t) (p : t) : t :=
  mk (peerId p) (lastSeen p) (offers p) x.
End PeerInfo.

Module RoomInfo.
Record t : Type := mk {
  hostPeerId : option string;
  peers : JsMap.t PeerInfo.t;
  created : Z;
  lastActivity : Z
}.
Definition set_hostPeerId (x : option string) (r : t) : t :=
  mk x (peers r) (created r) (lastActivity r).
Definition set_peers (x : JsMap.t PeerInfo.t) (r : t) : t :=
  mk (hostPeerId r) x (created r) (lastActivity r).
Definition set_lastActivity (x : Z) (r : t) : t :=
  mk (hostPeerId r) (peers r) (created r) x.
End RoomInfo.

(** [const rooms = new Map<string, RoomInfo>()] *)
Definition Rooms : Type := JsMap.t RoomInfo.t.

Definition CLEANUP_INTERVAL : Z := 5 * 60 * 1000.
Definition PEER_TIMEOUT : Z := 2 * 60 * 1000.
Definition ROOM_TIMEOUT : Z := 24 * 60 * 60 * 1000.

(** The parsed request body.  [action], [roomId], [peerId] and [target]
    are strings (absent = empty); [isHost] is the truthiness of
    [body.isHost]; [lastPoll] may be absent. *)
Module Body.
Record t : Type := mk {
  action : string;
  roomId : string;
  peerId : string;
  isHost : bool;
  offer : JsValue;
  answer : JsValue;
  target : string;
  lastPoll : option Z
}.
End Body.

(** The JSON bodies the endpoint answers with. *)
Inductive Response : Type :=
| JoinResponse (peers : list Peer.t) (isHost : bool)
               (hostPeerId : option string)
    (* { success: true, peers, isHost, hostPeerId }; [hostPeerId] is
       [undefined] as long as no host has announced itself *)
| SuccessResponse
    (* { success: true } *)
| PollResponse (offers answers : list Signal.t) (newPeers : list Peer.t)
               (timestamp : Z)
    (* { success: true, offers, answers, newPeers, timestamp } *)
| ErrorResponse (error : string) (status : Z).
    (* { error }, { status } *)

(** The keys of the JSON object of a response. *)
Definition fields (r : Response) : list string :=
  match r with
  | JoinResponse _ _ hostPeerId =>
      ["success"; "peers"; "isHost"]
      ++ match hostPeerId with
         | Some _ => ["hostPeerId"]
         | None => []        (* an undefined property is not serialised *)
         end
  | SuccessResponse => ["success"]
  | PollResponse _ _ _ _ =>
      ["success"; "offers"; "answers"; "newPeers"; "timestamp"]
  | ErrorResponse _ _ => ["error"]
  end.

(** [data.success] and [data.timestamp] as a client reads them. *)
Definition success (r : Response) : bool :=
  match r with ErrorResponse _ _ => false | _ => true end.

Definition timestamp (r : Response) : option Z :=
  match r with PollResponse _ _ _ ts => Some ts | _ => None end.

(** [id === room.hostPeerId] *)
Definition isHostId (room : RoomInfo.t) (id : string) : bool :=
  match RoomInfo.hostPeerId room with
  | Some h => String.eqb id h
  | None => false
  end.

Definition peerEntry (room : RoomInfo.t) (id : string) : Peer.t :=
  Peer.mk id (isHostId room id).

(** [case 'join'] *)
Definition caseJoin (body : Body.t) (room : RoomInfo.t)
  : RoomInfo.t * Response :=
  let peerId := Body.peerId body in
  let room :=
    if Body.isHost body then RoomInfo.set_hostPeerId (Some peerId) room
    else room in
  let peers :=
    map (peerEntry room)
        (filter (fun id => negb (String.eqb id peerId))
                (JsMap.keys (RoomInfo.peers room))) in
  (room, JoinResponse peers (isHostId room peerId) (RoomInfo.hostPeerId room)).

(** [targetPeer.offers.push(...)] / [targetPeer.answers.push(...)] *)
Definition pushOffer (s : Signal.t) (p : PeerInfo.t) : PeerInfo.t :=
  PeerInfo.set_offers (PeerInfo.offers p ++ [s]) p.
Definition pushAnswer (s : Signal.t) (p : PeerInfo.t) : PeerInfo.t :=
  PeerInfo.set_answers (PeerInfo.answers p ++ [s]) p.

(** [case 'offer'] *)
Definition caseOffer (now : Z) (body : Body.t) (room : RoomInfo.t)
  : RoomInfo.t * Response :=
  let target := Body.target body in
  if negb (truthyStr target) || negb (truthy (Body.offer body)) then
    (room, ErrorResponse "Invalid offer" 400)
  else
    let peers :=
      if JsMap.has target (RoomInfo.peers room) then RoomInfo.peers room
      else JsMap.set target (PeerInfo.mk target (now - 60000) [] [])
                     (RoomInfo.peers room) in
    match JsMap.get target peers with
    | None => (RoomInfo.set_peers peers room, ErrorResponse "Server error" 500)
    | Some targetPeer =>
        let rec := Signal.mk (Body.peerId body) (Body.offer body) now in
        (RoomInfo.set_peers (JsMap.set target (pushOffer rec targetPeer) peers) room,
         SuccessResponse)
    end.

(** [case 'answer'] *)
Definition caseAnswer (now : Z) (body : Body.t) (room : RoomInfo.t)
  : RoomInfo.t * Response :=
  let target := Body.target body in
  if negb (truthyStr target) || negb (truthy (Body.answer body)) then
    (room, ErrorResponse "Invalid answer" 400)
  else if negb (JsMap.has target (RoomInfo.peers room)) then
    (room, ErrorResponse "Target peer not found" 404)
  else
    match JsMap.get target (RoomInfo.peers room) with
    | None => (room, ErrorResponse "Server error" 500)
    | Some targetPeer =>
        let rec := Signal.mk (Body.peerId body) (Body.answer body) now in
        (RoomInfo.set_peers
           (JsMap.set target (pushAnswer rec targetPeer) (RoomInfo.peers room))
           room,
         SuccessResponse)
    end.

(** [o.from !== peerId && o.timestamp > (body.lastPoll || 0)] *)
Definition isNewFor (peerId : string) (since : Z) (s : Signal.t) : bool :=
  negb (String.eqb (Signal.from s) peerId) && (since <? Signal.timestamp s).

(** [o.timestamp > now - 60000] *)
Definition isFresh (now : Z) (s : Signal.t) : bool :=
  now - 60000 <? Signal.timestamp s.

(** The body of the clean-up loop of [case 'poll']. *)
Definition prune (now : Z) (p : PeerInfo.t) : PeerInfo.t :=
  PeerInfo.set_answers (filter (isFresh now) (PeerInfo.answers p))
    (PeerInfo.set_offers (filter (isFresh now) (PeerInfo.offers p)) p).

(** [id !== peerId && room.peers.get(id)!.lastSeen > (body.lastPoll || 0)];
    [id] is a key of the map, so the lookup is defined. *)
Definition isNewPeer (peerId : string) (since : Z)
           (peers : JsMap.t PeerInfo.t) (id : string) : bool :=
  negb (String.eqb id peerId) &&
  match JsMap.get id peers with
  | Some p => since <? PeerInfo.lastSeen p
  | None => false
  end.

(** [case 'poll'] *)
Definition casePoll (now : Z) (body : Body.t) (room : RoomInfo.t)
  : RoomInfo.t * Response :=
  let peerId := Body.peerId body in
  let since := orZero (Body.lastPoll body) in
  let offers :=
    filter (isNewFor peerId since)
           (flat_map PeerInfo.offers (JsMap.values (RoomInfo.peers room))) in
  let answers :=
    filter (isNewFor peerId since)
           (flat_map PeerInfo.answers (JsMap.values (RoomInfo.peers room))) in
  let peers := JsMap.update_all (prune now) (RoomInfo.peers room) in
  let room := RoomInfo.set_peers peers room in
  let newPeers :=
    map (peerEntry room)
        (filter (isNewPeer peerId since peers) (JsMap.keys peers)) in
  (room, PollResponse offers answers newPeers now).

(** [switch (action)] *)
Definition dispatch (now : Z) (body : Body.t) (room : RoomInfo.t)
  : RoomInfo.t * Response :=
  let action := Body.action body in
  if String.eqb action "join" then caseJoin body room
  else if String.eqb action "offer" then caseOffer now body room
  else if String.eqb action "answer" then caseAnswer now body room
  else if String.eqb action "poll" then casePoll now body room
  else (room, ErrorResponse "Invalid action" 400).

Definition newRoom (now : Z) : RoomInfo.t :=
  RoomInfo.mk None JsMap.empty now now.

Definition newPeer (peerId : string) (now : Z) : PeerInfo.t :=
  PeerInfo.mk peerId now [] [].

(** The room as it is after lines 69-94: created if absent,
    [lastActivity] refreshed, the requester's mailbox created if absent
    and its [lastSeen] refreshed. *)
Definition touch (now : Z) (peerId : string) (room : RoomInfo.t)
  : option RoomInfo.t :=
  let room := RoomInfo.set_lastActivity now room in
  let peers :=
    if JsMap.has peerId (RoomInfo.peers room) then RoomInfo.peers room
    else JsMap.set peerId (newPeer peerId now) (RoomInfo.peers room) in
  match JsMap.get peerId peers with
  | None => None
  | Some peer =>
      Some (RoomInfo.set_peers
              (JsMap.set peerId (PeerInfo.set_lastSeen now peer) peers) room)
  end.

(** [export async function POST(req)], on the parsed body, at server
    time [now = Date.now()].  A dereference of [undefined] would throw
    and be answered by the [catch] with status 500. *)
Definition POST (now : Z) (body : Body.t) (rooms : Rooms) : Rooms * Response :=
  let roomId := Body.roomId body in
  let peerId := Body.peerId body in
  if negb (truthyStr (Body.action body)) || negb (truthyStr roomId)
     || negb (truthyStr peerId) then
    (rooms, ErrorResponse "Invalid request" 400)
  else
    let rooms :=
      if JsMap.has roomId rooms then rooms
      else JsMap.set roomId (newRoom now) rooms in
    match JsMap.get roomId rooms with
    | None => (rooms, ErrorResponse "Server error" 500)
    | Some room =>
        match touch now peerId room with
        | None => (rooms, ErrorResponse "Server error" 500)
        | Some room =>
            let (room', response) := dispatch now body room in
            (JsMap.set roomId room' rooms, response)
        end
    end.

(** The [setInterval] callback: evict stale mailboxes, then rooms that
    are idle or empty. *)
Definition sweepRoom (now : Z) (room : RoomInfo.t) : RoomInfo.t :=
  RoomInfo.set_peers
    (JsMap.retain (fun _ p => negb (PEER_TIMEOUT <? now - PeerInfo.lastSeen p))
                  (RoomInfo.peers room))
    room.

Definition roomExpired (now : Z) (room : RoomInfo.t) : bool :=
  (ROOM_TIMEOUT <? now - RoomInfo.lastActivity room)
  || Nat.eqb (JsMap.size (RoomInfo.peers room)) 0.

Definition cleanup (now : Z) (rooms : Rooms) : Rooms :=
  JsMap.retain (fun _ room => negb (roomExpired now room))
               (JsMap.update_all (sweepRoom now) rooms).

(** What happens to the store: a request is served, or the sweep runs. *)
Inductive Event : Type :=
| Request (now : Z) (body : Body.t)
| Cleanup (now : Z).

Definition time (e : Event) : Z :=
  match e with Request now _ => now | Cleanup now => now end.

Definition step (e : Event) (rooms : Rooms) : Rooms :=
  match e with
  | Request now body => fst (POST now body rooms)
  | Cleanup now => cleanup now rooms
  end.

Definition run (es : list Event) (rooms : Rooms) : Rooms :=
  fold_left (fun rs e => step e rs) es rooms.

(** *** Observations used in the statements below *)

(** The mailbox of [peer] in room [roomId], if both exist. *)
Definition mailbox (roomId peer : string) (rooms : Rooms)
  : option PeerInfo.t :=
  match JsMap.get roomId rooms with
  | Some room => JsMap.get peer (RoomInfo.peers room)
  | None => None
  end.

(** The room a request for [roomId] works on (lines 69-79), and that
    room once the requester has been registered (lines 80-94). *)
Definition roomOf (now : Z) (roomId : string) (rooms : Rooms) : RoomInfo.t :=
  match JsMap.get roomId rooms with
  | Some room => room
  | None => newRoom now
  end.

Definition entered (now : Z) (peerId : string) (room : RoomInfo.t)
  : RoomInfo.t :=
  let peer :=
    match JsMap.get peerId (RoomInfo.peers room) with
    | Some p => p
    | None => newPeer peerId now
    end in
  RoomInfo.set_peers
    (JsMap.set peerId (PeerInfo.set_lastSeen now peer) (RoomInfo.peers room))
    (RoomInfo.set_lastActivity now room).

(** All offer and answer records held in a room. *)
Definition roomRecords (room : RoomInfo.t) : list Signal.t :=
  flat_map PeerInfo.offers (JsMap.values (RoomInfo.peers room))
  ++ flat_map PeerInfo.answers (JsMap.values (RoomInfo.peers room)).

Definition records (roomId : string) (rooms : Rooms) : list Signal.t :=
  match JsMap.get roomId rooms with
  | Some room => roomRecords room
  | None => []
  end.

(** The offer and answer records a response carries, and the peer
    identifiers in its [newPeers]. *)
Definition delivered (r : Response) : list Signal.t :=
  match r with
  | PollResponse offers answers _ _ => offers ++ answers
  | _ => []
  end.

Definition announced (r : Response) : list string :=
  match r with
  | PollResponse _ _ newPeers _ => map Peer.peerId newPeers
  | _ => []
  end.

(** An event that is neither the sweep nor a request made by [peer] in
    room [roomId]. *)
Definition notBy (roomId peer : string) (e : Event) : Prop :=
  match e with
  | Request _ body => ~ (Body.roomId body = roomId /\ Body.peerId body = peer)
  | Cleanup _ => False
  end.

(** The three fields every request must carry are present. *)
Definition wellFormed (body : Body.t) : Prop :=
  Body.action body <> "" /\ Body.roomId body <> "" /\ Body.peerId body <> "".

End Route.

(* ================================================================== *)
(** ** signaling.ts: the polling client                                *)
(* ================================================================== *)

Module Signaling.
Local Open Scope string_scope.
Local Open Scope list_scope.
Local Open Scope Z_scope.

(** The fields of [SignalingService] the cursor handling needs.
    [lastPollTimestamp] is whatever was last assigned to it; a response
    without a [timestamp] field would leave it [undefined] ([None]), and
    [JSON.stringify] then omits [lastPoll] from the next poll request. *)
Record SignalingService : Type := mk {
  roomId : string;
  peerId : string;
  isHost : bool;
  lastPollTimestamp : option Z;
  polling : bool;           (* pollingInterval !== null *)
  active : bool
}.

(** [new SignalingService(roomId, peerId, isHost)] *)
Definition new (roomId peerId : string) (isHost : bool) : SignalingService :=
  mk roomId peerId isHost (Some 0) false false.

(** What [await fetch(...)] followed by [response.json()] gives. *)
Inductive Fetch : Type :=
| NetworkError
| Http (ok : bool) (data : Route.Response).

(** The bodies of the requests [join] and [poll] send. *)
Definition joinRequest (s : SignalingService) : Route.Body.t :=
  Route.Body.mk "join" (roomId s) (peerId s) (isHost s)
                JsUndefined JsUndefined "" None.

Definition pollRequest (s : SignalingService) : Route.Body.t :=
  Route.Body.mk "poll" (roomId s) (peerId s) false
                JsUndefined JsUndefined "" (lastPollTimestamp s).

(** [data.peers || []] *)
Definition peersOf (data : Route.Response) : list Peer.t :=
  match data with
  | Route.JoinResponse peers _ _ => peers
  | _ => []
  end.

(** [join()], with [clientNow] the value [Date.now()] has in the browser
    when the response has arrived.  The result is the peer list and
    whether the error callback was run. *)
Definition join (clientNow : Z) (f : Fetch) (s : SignalingService)
  : SignalingService * list Peer.t * bool :=
  let s := mk (roomId s) (peerId s) (isHost s) (lastPollTimestamp s)
              (polling s) true in
  match f with
  | NetworkError => (s, [], true)
  | Http false _ => (s, [], true)
  | Http true data =>
      if negb (Route.success data) then (s, [], true)
      else
        (mk (roomId s) (peerId s) (isHost s) (Some clientNow) true true,
         peersOf data, false)
  end.

(** What a poll cycle hands to the registered callbacks, in order. *)
Inductive Dispatch : Type :=
| PeerJoin (peer : Peer.t)
| Offer (from : string) (offer : JsValue)
| Answer (from : string) (answer : JsValue).

Definition dispatches (data : Route.Response) : list Dispatch :=
  match data with
  | Route.PollResponse offers answers newPeers _ =>
      map PeerJoin newPeers
      ++ map (fun o => Offer (Signal.from o) (Signal.payload o)) offers
      ++ map (fun a => Answer (Signal.from a) (Signal.payload a)) answers
  | _ => []
  end.

(** [poll()] *)
Definition poll (f : Fetch) (s : SignalingService)
  : SignalingService * list Dispatch :=
  if negb (active s) then (s, [])
  else
    match f with
    | NetworkError => (s, [])
    | Http false _ => (s, [])
    | Http true data =>
        if Route.success data then
          (mk (roomId s) (peerId s) (isHost s) (Route.timestamp data)
              (polling s) (active s),
           dispatches data)
        else (s, [])
    end.

(** [stop()] *)
Definition stop (s : SignalingService) : SignalingService :=
  mk (roomId s) (peerId s) (isHost s) (lastPollTimestamp s) false false.

(** A request answered by the endpoint at server time [serverNow]. *)
Definition served (serverNow : Z) (body : Route.Body.t) (rooms : Route.Rooms)
  : Route.Rooms * Fetch :=
  let (rooms', response) := Route.POST serverNow body rooms in
  (rooms', Http (match response with
                 | Route.ErrorResponse _ _ => false
                 | _ => true
                 end) response).

End Signaling.

(* ================================================================== *)
(** ** The WebRTC service: peer table and negotiation state machine    *)
(* ================================================================== *)

Module Rtc.
Local Open Scope string_scope.
Local Open Scope list_scope.

Inductive ConnectionState : Type :=
| NEW
| CONNECTING
| OFFER_SENT
| OFFER_RECEIVED
| ANSWER_SENT
| ANSWER_RECEIVED
| CONNECTED
| DISCONNECTED
| FAILED.

Definition state_eqb (a b : ConnectionState) : bool :=
  match a, b with
  | NEW, NEW | CONNECTING, CONNECTING | OFFER_SENT, OFFER_SENT
  | OFFER_RECEIVED, OFFER_RECEIVED | ANSWER_SENT, ANSWER_SENT
  | ANSWER_RECEIVED, ANSWER_RECEIVED | CONNECTED, CONNECTED
  | DISCONNECTED, DISCONNECTED | FAILED, FAILED => true
  | _, _ => false
  end.

(** [invalidStates.includes(s)] *)
Definition includes (l : list ConnectionState) (s : ConnectionState) : bool :=
  existsb (state_eqb s) l.

(** [state === DISCONNECTED || state === FAILED] *)
Definition terminal (s : ConnectionState) : bool :=
  state_eqb s DISCONNECTED || state_eqb s FAILED.

(** [RTCSessionDescriptionInit]: opaque to the service. *)
Definition RTCSessionDescriptionInit : Type := JsValue.

(** Browser objects ([RTCPeerConnection], [RTCDataChannel]) are known by
    their identity. *)
Definition Handle : Type := nat.

Module PeerConnection.
Record t : Type := mk {
  peerId : string;
  isHost : bool;
  connection : Handle;
  dataChannel : option Handle;
  isInitiator : bool;
  connected : bool;
  state : ConnectionState;
  processingSignal : bool
}.
Definition set_dataChannel (x : option Handle) (p : t) : t :=
  mk (peerId p) (isHost p) (connection p) x (isInitiator p)
     (connected p) (state p) (processingSignal p).
Definition set_connected (x : bool) (p : t) : t :=
  mk (peerId p) (isHost p) (connection p) (dataChannel p) (isInitiator p)
     x (state p) (processingSignal p).
Definition set_state (x : ConnectionState) (p : t) : t :=
  mk (peerId p) (isHost p) (connection p) (dataChannel p) (isInitiator p)
     (connected p) x (processingSignal p).
Definition set_processingSignal (x : bool) (p : t) : t :=
  mk (peerId p) (isHost p) (connection p) (dataChannel p) (isInitiator p)
     (connected p) (state p) x.
End PeerConnection.

(** [RTCService].  A callback field holds whether a callback is
    registered; [nextHandle] numbers the browser objects created so far. *)
Record RTCService : Type := mkService {
  roomId : string;
  peerId : string;
  isHost : bool;
  connections : JsMap.t PeerConnection.t;
  onConnectionCallback : bool;
  onDisconnectionCallback : bool;
  onErrorCallback : bool;
  onPeerCountChangeCallback : bool;
  nextHandle : Handle
}.

Definition set_connections (x : JsMap.t PeerConnection.t) (s : RTCService)
  : RTCService :=
  mkService (roomId s) (peerId s) (isHost s) x (onConnectionCallback s)
            (onDisconnectionCallback s) (onErrorCallback s)
            (onPeerCountChangeCallback s) (nextHandle s).

Definition set_nextHandle (x : Handle) (s : RTCService) : RTCService :=
  mkService (roomId s) (peerId s) (isHost s) (connections s)
            (onConnectionCallback s) (onDisconnectionCallback s)
            (onErrorCallback s) (onPeerCountChangeCallback s) x.

(** [new RTCService(roomId, isHost)], with [peerId] the generated id. *)
Definition new (roomId peerId : string) (isHost : bool) : RTCService :=
  mkService roomId peerId isHost JsMap.empty false false false false 0.

(** [onConnection(cb)], [onDisconnection(cb)], [onError(cb)],
    [onPeerCountChange(cb)] *)
Definition onConnection (s : RTCService) : RTCService :=
  mkService (roomId s) (peerId s) (isHost s) (connections s) true
            (onDisconnectionCallback s) (onErrorCallback s)
            (onPeerCountChangeCallback s) (nextHandle s).
Definition onDisconnection (s : RTCService) : RTCService :=
  mkService (roomId s) (peerId s) (isHost s) (connections s)
            (onConnectionCallback s) true (onErrorCallback s)
            (onPeerCountChangeCallback s) (nextHandle s).
Definition onError (s : RTCService) : RTCService :=
  mkService (roomId s) (peerId s) (isHost s) (connections s)
            (onConnectionCallback s) (onDisconnectionCallback s) true
            (onPeerCountChangeCallback s) (nextHandle s).
Definition onPeerCountChange (s : RTCService) : RTCService :=
  mkService (roomId s) (peerId s) (isHost s) (connections s)
            (onConnectionCallback s) (onDisconnectionCallback s)
            (onErrorCallback s) true (nextHandle s).

(** The closures handed to [setTimeout]. *)
Inductive Callback : Type :=
| Reconnect (peerId : string) (isHost isInitiator : bool)
    (* () => this.connectToPeer(peerId, isHost, isInitiator) *)
| ConnectTimeout (peerId : string) (isHost isInitiator : bool)
    (* the 10 s check installed by connectToPeer *)
| RetryOffer (peerId : string)
    (* () => this.createAndSendOffer(peerId) *)
| RetryHandleOffer (from : string) (offer : RTCSessionDescriptionInit)
| RetryHandleAnswer (from : string) (answer : RTCSessionDescriptionInit).

(** What an operation does, in program order: calls into the browser and
    the signaling client, invocations of the registered callbacks, and
    the writes to the table and to a record's [state] and
    [processingSignal]. *)
Inductive Effect : Type :=
| NewRTCPeerConnection (c : Handle)
| CreateDataChannel (c ch : Handle)
| CloseDataChannel (ch : Handle)
| CloseConnection (c : Handle)
| TableSet (peerId : string)
| TableDelete (peerId : string)
| TableClear
| StateWrite (peerId : string) (s : ConnectionState)
| LockWrite (peerId : string) (b : bool)
| CreateOffer (c : Handle)
| CreateAnswer (c : Handle)
| SetLocalDescription (c : Handle) (d : RTCSessionDescriptionInit)
| SetRemoteDescription (c : Handle) (d : RTCSessionDescriptionInit)
| SendOffer (target : string) (d : RTCSessionDescriptionInit)
| SendAnswer (target : string) (d : RTCSessionDescriptionInit)
| OnConnection (peerId : string)
| OnDisconnection (peerId : string)
| OnPeerCountChange (count : nat)
| OnError
| SetTimeout (cb : Callback) (ms : Z)
| SignalingStop.

(** How the browser and the network answer the calls one operation
    awaits: each call resolves or rejects. *)
Record Transport : Type := mkTransport {
  constructs : bool;          (* new RTCPeerConnection(...) returns *)
  opensChannel : bool;        (* createDataChannel(...) returns *)
  createOffer : option RTCSessionDescriptionInit;
  createAnswer : option RTCSessionDescriptionInit;
  setsLocal : bool;           (* setLocalDescription resolves *)
  setsRemote : bool;          (* setRemoteDescription resolves *)
  delivers : bool             (* the signaling request succeeds *)
}.

(** *** A state, trace and exception monad for the service's methods *)

Inductive Completion (A : Type) : Type :=
| Normal (a : A)
| Thrown.
Arguments Normal {A} a.
Arguments Thrown {A}.

Definition M (A : Type) : Type :=
  RTCService -> Completion A * RTCService * list Effect.

Definition ret {A} (a : A) : M A := fun s => (Normal a, s, []).

Definition throw {A} : M A := fun s => (Thrown, s, []).

Definition bind {A B} (m : M A) (k : A -> M B) : M B :=
  fun s =>
    match m s with
    | (Normal a, s1, t1) =>
        match k a s1 with (r, s2, t2) => (r, s2, t1 ++ t2) end
    | (Thrown, s1, t1) => (Thrown, s1, t1)
    end.

(** [try { m } catch (error) { h }] *)
Definition tryCatch {A} (m : M A) (h : M A) : M A :=
  fun s =>
    match m s with
    | (Normal a, s1, t1) => (Normal a, s1, t1)
    | (Thrown, s1, t1) =>
        match h s1 with (r, s2, t2) => (r, s2, t1 ++ t2) end
    end.

(** [try { m } finally { f }] *)
Definition tryFinally {A} (m : M A) (f : M unit) : M A :=
  fun s =>
    match m s with
    | (r, s1, t1) =>
        match f s1 with
        | (Normal _, s2, t2) => (r, s2, t1 ++ t2)
        | (Thrown, s2, t2) => (Thrown, s2, t1 ++ t2)
        end
    end.

Definition emit (e : Effect) : M unit := fun s => (Normal tt, s, [e]).

Definition gets {A} (f : RTCService -> A) : M A := fun s => (Normal (f s), s, []).

Definition modify (f : RTCService -> RTCService) : M unit :=
  fun s => (Normal tt, f s, []).

Declare Scope rtc_scope.
Delimit Scope rtc_scope with rtc.
Notation "x <- m ;; k" := (bind m (fun x => k))
  (at level 61, m at next level, right associativity) : rtc_scope.
Notation "m ;; k" := (bind m (fun _ => k))
  (at level 61, right associativity) : rtc_scope.
Local Open Scope rtc_scope.

(** [this.connections.get(peerId)] *)
Definition lookup (peerId : string) : M (option PeerConnection.t) :=
  gets (fun s => JsMap.get peerId (connections s)).

(** A write to a field of a record object.  The methods hold the object
    they fetched with [connections.get(peerId)]; while a method runs to
    completion the table keeps that object under [peerId], so the write
    is a write to the table's entry. *)
Definition mutate (peerId : string) (f : PeerConnection.t -> PeerConnection.t)
  : M unit :=
  modify (fun s =>
    match JsMap.get peerId (connections s) with
    | Some pc => set_connections (JsMap.set peerId (f pc) (connections s)) s
    | None => s
    end).

(** [peerConnection.state = st] *)
Definition writeState (peerId : string) (st : ConnectionState) : M unit :=
  mutate peerId (PeerConnection.set_state st) ;; emit (StateWrite peerId st).

(** [peerConnection.processingSignal = b] *)
Definition writeLock (peerId : string) (b : bool) : M unit :=
  mutate peerId (PeerConnection.set_processingSignal b) ;;
  emit (LockWrite peerId b).

(** [this.connections.set(peerId, pc)], [this.connections.delete(peerId)] *)
Definition tableSet (peerId : string) (pc : PeerConnection.t) : M unit :=
  modify (fun s => set_connections (JsMap.set peerId pc (connections s)) s) ;;
  emit (TableSet peerId).

Definition tableDelete (peerId : string) : M unit :=
  modify (fun s => set_connections (JsMap.delete peerId (connections s)) s) ;;
  emit (TableDelete peerId).

(** [handleError(error)] *)
Definition handleError : M unit :=
  cb <- gets onErrorCallback ;;
  if cb then emit OnError else ret tt.

(** [getConnectedPeerCount()] *)
Definition getConnectedPeerCount (s : RTCService) : nat :=
  List.length (filter PeerConnection.connected (JsMap.values (connections s))).

(** [updatePeerCount()] *)
Definition updatePeerCount : M unit :=
  count <- gets getConnectedPeerCount ;;
  cb <- gets onPeerCountChangeCallback ;;
  if cb then emit (OnPeerCountChange count) else ret tt.

Definition notifyConnection (peerId : string) : M unit :=
  cb <- gets onConnectionCallback ;;
  if cb then emit (OnConnection peerId) else ret tt.

Definition notifyDisconnection (peerId : string) : M unit :=
  cb <- gets onDisconnectionCallback ;;
  if cb then emit (OnDisconnection peerId) else ret tt.

(** *** The awaited calls *)

Definition newRTCPeerConnection (tr : Transport) : M Handle :=
  if constructs tr then
    c <- gets nextHandle ;;
    modify (set_nextHandle (S c)) ;;
    emit (NewRTCPeerConnection c) ;;
    ret c
  else throw.

Definition createDataChannel (tr : Transport) (c : Handle) : M Handle :=
  if opensChannel tr then
    ch <- gets nextHandle ;;
    modify (set_nextHandle (S ch)) ;;
    emit (CreateDataChannel c ch) ;;
    ret ch
  else throw.

Definition callCreateOffer (tr : Transport) (c : Handle)
  : M RTCSessionDescriptionInit :=
  emit (CreateOffer c) ;;
  match createOffer tr with Some d => ret d | None => throw end.

Definition callCreateAnswer (tr : Transport) (c : Handle)
  : M RTCSessionDescriptionInit :=
  emit (CreateAnswer c) ;;
  match createAnswer tr with Some d => ret d | None => throw end.

Definition setLocalDescription (tr : Transport) (c : Handle)
           (d : RTCSessionDescriptionInit) : M unit :=
  emit (SetLocalDescription c d) ;;
  if setsLocal tr then ret tt else throw.

Definition setRemoteDescription (tr : Transport) (c : Handle)
           (d : RTCSessionDescriptionInit) : M unit :=
  emit (SetRemoteDescription c d) ;;
  if setsRemote tr then ret tt else throw.

(** [this.signaling.sendOffer(target, offer)]: the client catches its
    own failures and reports them through the error callback the service
    registered ([handleSignalingError]); the promise always resolves. *)
Definition sendOffer (tr : Transport) (target : string)
           (d : RTCSessionDescriptionInit) : M unit :=
  emit (SendOffer target d) ;;
  if delivers tr then ret tt else handleError.

Definition sendAnswer (tr : Transport) (target : string)
           (d : RTCSessionDescriptionInit) : M unit :=
  emit (SendAnswer target d) ;;
  if delivers tr then ret tt else handleError.

(** *** The methods of [RTCService]

    A method is run to completion: the calls it awaits are answered by
    the [Transport] argument and no other event is interleaved.  A call
    that is made without [await] ([connectToPeer] in [handlePeerJoin]
    and in [start]) runs up to its first suspension point, then its
    caller goes on, and what is left of the call runs once the caller
    is done. *)

Import PeerConnection.

(** The two statements that tear a record's browser objects down. *)
Definition closeRecord (pc : PeerConnection.t) : M unit :=
  match dataChannel pc with
  | Some ch => emit (CloseDataChannel ch)
  | None => ret tt
  end ;;
  emit (CloseConnection (connection pc)).

Definition offerInvalidStates : list ConnectionState :=
  [OFFER_SENT; OFFER_RECEIVED; ANSWER_SENT; ANSWER_RECEIVED; CONNECTED].

(** [createAndSendOffer(peerId)] *)
Definition createAndSendOffer (tr : Transport) (peerId : string) : M unit :=
  found <- lookup peerId ;;
  match found with
  | None => ret tt
  | Some peerConnection =>
      if state_eqb (state peerConnection) CONNECTED then ret tt
      else if processingSignal peerConnection then
        emit (SetTimeout (RetryOffer peerId) 500%Z)
      else
        writeLock peerId true ;;
        tryFinally
          (tryCatch
             (if includes offerInvalidStates (state peerConnection) then
                ret tt
              else
                writeState peerId CONNECTING ;;
                offer <- callCreateOffer tr (connection peerConnection) ;;
                setLocalDescription tr (connection peerConnection) offer ;;
                writeState peerId OFFER_SENT ;;
                sendOffer tr peerId offer)
             handleError)
          (writeLock peerId false)
  end.

(** Lines 120-137 of [connectToPeer]: [true] when the method goes on to
    create a record, [false] when it returns because a live record
    exists. *)
Definition replaceExisting (peerId : string) : M bool :=
  existingConnection <- lookup peerId ;;
  match existingConnection with
  | None => ret true
  | Some existingConnection =>
      if negb (state_eqb (state existingConnection) DISCONNECTED)
         && negb (state_eqb (state existingConnection) FAILED) then
        ret false
      else
        closeRecord existingConnection ;;
        tableDelete peerId ;;
        ret true
  end.

(** The [try] block of [connectToPeer]. *)
Definition establish (tr : Transport) (peerId : string)
           (isHost isInitiator : bool) : M unit :=
  connection <- newRTCPeerConnection tr ;;
  dataChannel <-
    (if isInitiator then
       ch <- createDataChannel tr connection ;; ret (Some ch)
     else ret None) ;;
  tableSet peerId
    (PeerConnection.mk peerId isHost connection dataChannel isInitiator
                       false NEW false) ;;
  emit (SetTimeout (ConnectTimeout peerId isHost isInitiator) 10000%Z) ;;
  if isInitiator then createAndSendOffer tr peerId else ret tt.

(** [connectToPeer(peerId, isHost, isInitiator)] *)
Definition connectToPeer (tr : Transport) (peerId : string)
           (isHost isInitiator : bool) : M unit :=
  self <- gets Rtc.peerId ;;
  if String.eqb peerId self then ret tt
  else
    proceed <- replaceExisting peerId ;;
    if proceed then
      tryCatch (establish tr peerId isHost isInitiator) handleError
    else ret tt.

(** *** [connectToPeer] called without [await]

    The first suspension point of [connectToPeer] is the [await] of
    [createOffer()] inside [createAndSendOffer]; everything before it,
    the call of [createOffer()] included, runs in the caller's turn. *)

(** [createAndSendOffer(peerId)] up to the call of [createOffer()].  The
    result is the record the method holds while it is suspended there,
    [None] when it has returned without getting there. *)
Definition createAndSendOfferBegin (peerId : string)
  : M (option PeerConnection.t) :=
  found <- lookup peerId ;;
  match found with
  | None => ret None
  | Some peerConnection =>
      if state_eqb (state peerConnection) CONNECTED then ret None
      else if processingSignal peerConnection then
        emit (SetTimeout (RetryOffer peerId) 500%Z) ;; ret None
      else
        writeLock peerId true ;;
        if includes offerInvalidStates (state peerConnection) then
          writeLock peerId false ;; ret None
        else
          writeState peerId CONNECTING ;;
          emit (CreateOffer (connection peerConnection)) ;;
          ret (Some peerConnection)
  end.

(** [createAndSendOffer(peerId)] from the moment [createOffer()] has
    settled. *)
Definition createAndSendOfferResume (tr : Transport) (peerId : string)
           (peerConnection : PeerConnection.t) : M unit :=
  tryFinally
    (tryCatch
       (offer <- match createOffer tr with
                 | Some d => ret d
                 | None => throw
                 end ;;
        setLocalDescription tr (connection peerConnection) offer ;;
        writeState peerId OFFER_SENT ;;
        sendOffer tr peerId offer)
       handleError)
    (writeLock peerId false).

(** The [try] block of [connectToPeer], up to the same point. *)
Definition establishBegin (tr : Transport) (peerId : string)
           (isHost isInitiator : bool) : M (option PeerConnection.t) :=
  connection <- newRTCPeerConnection tr ;;
  dataChannel <-
    (if isInitiator then
       ch <- createDataChannel tr connection ;; ret (Some ch)
     else ret None) ;;
  tableSet peerId
    (PeerConnection.mk peerId isHost connection dataChannel isInitiator
                       false NEW false) ;;
  emit (SetTimeout (ConnectTimeout peerId isHost isInitiator) 10000%Z) ;;
  if isInitiator then createAndSendOfferBegin peerId else ret None.

(** [connectToPeer(peerId, isHost, isInitiator)] up to its first
    suspension point, and from there on. *)
Definition connectToPeerBegin (tr : Transport) (peerId : string)
           (isHost isInitiator : bool) : M (option PeerConnection.t) :=
  self <- gets Rtc.peerId ;;
  if String.eqb peerId self then ret None
  else
    proceed <- replaceExisting peerId ;;
    if proceed then
      tryCatch (establishBegin tr peerId isHost isInitiator)
               (handleError ;; ret None)
    else ret None.

Definition connectToPeerResume (tr : Transport) (peerId : string)
           (suspended : option PeerConnection.t) : M unit :=
  match suspended with
  | Some peerConnection =>
      tryCatch (createAndSendOfferResume tr peerId peerConnection) handleError
  | None => ret tt
  end.

Definition offerRejectedStates : list ConnectionState :=
  [OFFER_SENT; ANSWER_RECEIVED; CONNECTED].

(** [handleOffer(from, offer)] *)
Definition handleOffer (tr : Transport) (from : string)
           (offer : RTCSessionDescriptionInit) : M unit :=
  tryCatch
    (found <- lookup from ;;
     found <-
       match found with
       | Some pc => ret (Some pc)
       | None => connectToPeer tr from false false ;; lookup from
       end ;;
     match found with
     | None => ret tt
     | Some peerConnection =>
         if state_eqb (state peerConnection) CONNECTED then ret tt
         else if processingSignal peerConnection then
           emit (SetTimeout (RetryHandleOffer from offer) 500%Z)
         else
           writeLock from true ;;
           tryFinally
             (if includes offerRejectedStates (state peerConnection) then
                ret tt
              else
                writeState from OFFER_RECEIVED ;;
                setRemoteDescription tr (connection peerConnection) offer ;;
                answer <- callCreateAnswer tr (connection peerConnection) ;;
                setLocalDescription tr (connection peerConnection) answer ;;
                writeState from ANSWER_SENT ;;
                sendAnswer tr from answer)
             (writeLock from false)
     end)
    handleError.

Definition answerRejectedStates : list ConnectionState :=
  [ANSWER_RECEIVED; CONNECTED].

(** [handleAnswer(from, answer)] *)
Definition handleAnswer (tr : Transport) (from : string)
           (answer : RTCSessionDescriptionInit) : M unit :=
  tryCatch
    (found <- lookup from ;;
     match found with
     | None =>
         connectToPeer tr from false true ;;
         emit (SetTimeout (RetryHandleAnswer from answer) 500%Z)
     | Some peerConnection =>
         if state_eqb (state peerConnection) CONNECTED then ret tt
         else if processingSignal peerConnection then
           emit (SetTimeout (RetryHandleAnswer from answer) 500%Z)
         else
           writeLock from true ;;
           tryFinally
             (if includes answerRejectedStates (state peerConnection) then
                ret tt
              else
                setRemoteDescription tr (connection peerConnection) answer ;;
                writeState from ANSWER_RECEIVED)
             (writeLock from false)
     end)
    handleError.

(** [handlePeerJoin(peer)].  [connectToPeer] is not awaited: the peer
    count is reported while the offer is being created. *)
Definition handlePeerJoin (tr : Transport) (peer : Peer.t) : M unit :=
  host <- gets Rtc.isHost ;;
  suspended <-
    (if host then
       connectToPeerBegin tr (Peer.peerId peer) (Peer.isHost peer) true
     else ret None) ;;
  updatePeerCount ;;
  connectToPeerResume tr (Peer.peerId peer) suspended.

(** [start()], given the peer list [signaling.join()] resolved to; each
    peer's connection attempt has its own transport answers.  The loop
    does not await [connectToPeer]: every attempt is taken to its first
    suspension point, the peer count is reported, and the attempts are
    completed afterwards, here in the order of the list. *)
Fixpoint connectAllBegin (peers : list (Transport * Peer.t))
  : M (list (Transport * string * option PeerConnection.t)) :=
  match peers with
  | [] => ret []
  | (tr, peer) :: rest =>
      suspended <-
        connectToPeerBegin tr (Peer.peerId peer) (Peer.isHost peer) true ;;
      others <- connectAllBegin rest ;;
      ret ((tr, Peer.peerId peer, suspended) :: others)
  end.

Fixpoint connectAllResume
         (calls : list (Transport * string * option PeerConnection.t))
  : M unit :=
  match calls with
  | [] => ret tt
  | (tr, peerId, suspended) :: rest =>
      connectToPeerResume tr peerId suspended ;;
      connectAllResume rest
  end.

Definition start (peers : list (Transport * Peer.t)) : M unit :=
  calls <-
    tryCatch
      (host <- gets Rtc.isHost ;;
       calls <- (if host then connectAllBegin peers else ret []) ;;
       updatePeerCount ;;
       ret calls)
      (handleError ;; ret []) ;;
  connectAllResume calls.

(** [stop()] *)
Fixpoint closeAll (records : list PeerConnection.t) : M unit :=
  match records with
  | [] => ret tt
  | pc :: rest => closeRecord pc ;; closeAll rest
  end.

Definition stop : M unit :=
  records <- gets (fun s => JsMap.values (connections s)) ;;
  closeAll records ;;
  modify (set_connections JsMap.empty) ;;
  emit TableClear ;;
  emit SignalingStop.

(** *** The handlers [connectToPeer] and [setupDataChannel] install *)

(** [connection.connectionState] *)
Inductive RTCPeerConnectionState : Type :=
| cs_new | cs_connecting | cs_connected | cs_disconnected | cs_failed
| cs_closed.

(** The branch shared by ['disconnected'], ['failed'] and ['closed']. *)
Definition markDown (peerId : string) (pc : PeerConnection.t)
           (st : ConnectionState) : M unit :=
  writeState peerId st ;;
  if connected pc then
    mutate peerId (set_connected false) ;;
    notifyDisconnection peerId ;;
    updatePeerCount
  else ret tt.

(** [connection.onconnectionstatechange] *)
Definition onconnectionstatechange (peerId : string)
           (connectionState : RTCPeerConnectionState) : M unit :=
  found <- lookup peerId ;;
  match found with
  | None => ret tt
  | Some peerConnection =>
      match connectionState with
      | cs_connected =>
          writeState peerId CONNECTED ;;
          if negb (connected peerConnection) then
            mutate peerId (set_connected true) ;;
            notifyConnection peerId ;;
            updatePeerCount
          else ret tt
      | cs_disconnected => markDown peerId peerConnection DISCONNECTED
      | cs_failed => markDown peerId peerConnection FAILED
      | cs_closed => markDown peerId peerConnection DISCONNECTED
      | cs_new | cs_connecting => ret tt
      end
  end.

(** [connection.oniceconnectionstatechange]; [failed] says whether
    [connection.iceConnectionState === 'failed']. *)
Definition oniceconnectionstatechange (peerId : string)
           (isHost isInitiator : bool) (failed : bool) : M unit :=
  if failed then
    found <- lookup peerId ;;
    match found with
    | None => ret tt
    | Some _ =>
        writeState peerId FAILED ;;
        emit (SetTimeout (Reconnect peerId isHost isInitiator) 1000%Z)
    end
  else ret tt.

(** The callback of the 10 s [setTimeout] in [connectToPeer]. *)
Definition connectTimeout (tr : Transport) (peerId : string)
           (isHost isInitiator : bool) : M unit :=
  found <- lookup peerId ;;
  match found with
  | None => ret tt
  | Some peerConn =>
      if negb (connected peerConn)
         && negb (state_eqb (state peerConn) CONNECTED) then
        writeState peerId FAILED ;;
        connectToPeer tr peerId isHost isInitiator
      else ret tt
  end.

(** [connection.ondatachannel] *)
Definition ondatachannel (peerId : string) (channel : Handle) : M unit :=
  found <- lookup peerId ;;
  match found with
  | None => ret tt
  | Some _ => mutate peerId (set_dataChannel (Some channel))
  end.

(** [channel.onopen] *)
Definition onopen (peerId : string) : M unit :=
  found <- lookup peerId ;;
  match found with
  | None => ret tt
  | Some _ =>
      mutate peerId (set_connected true) ;;
      writeState peerId CONNECTED ;;
      notifyConnection peerId ;;
      updatePeerCount
  end.

(** [channel.onclose] *)
Definition onclose (peerId : string) : M unit :=
  found <- lookup peerId ;;
  match found with
  | None => ret tt
  | Some _ =>
      mutate peerId (set_connected false) ;;
      writeState peerId DISCONNECTED ;;
      notifyDisconnection peerId ;;
      updatePeerCount
  end.

(** *** The service as a transition system *)

(** A timer that fires. *)
Definition fire (tr : Transport) (cb : Callback) : M unit :=
  match cb with
  | Reconnect peerId isHost isInitiator =>
      connectToPeer tr peerId isHost isInitiator
  | ConnectTimeout peerId isHost isInitiator =>
      connectTimeout tr peerId isHost isInitiator
  | RetryOffer peerId => createAndSendOffer tr peerId
  | RetryHandleOffer from offer => handleOffer tr from offer
  | RetryHandleAnswer from answer => handleAnswer tr from answer
  end.

(** Everything that can run a piece of the service's code. *)
Inductive Event : Type :=
| Start (peers : list (Transport * Peer.t))
| Stop
| PeerJoined (peer : Peer.t)
| OfferArrived (from : string) (offer : RTCSessionDescriptionInit)
| AnswerArrived (from : string) (answer : RTCSessionDescriptionInit)
| TimerFired (cb : Callback)
| ConnectionStateChanged (peerId : string) (cs : RTCPeerConnectionState)
| IceConnectionStateChanged (peerId : string) (isHost isInitiator : bool)
                            (failed : bool)
| DataChannelReceived (peerId : string) (channel : Handle)
| ChannelOpened (peerId : string)
| ChannelClosed (peerId : string).

Definition handle (tr : Transport) (e : Event) : M unit :=
  match e with
  | Start peers => start peers
  | Stop => stop
  | PeerJoined peer => handlePeerJoin tr peer
  | OfferArrived from offer => handleOffer tr from offer
  | AnswerArrived from answer => handleAnswer tr from answer
  | TimerFired cb => fire tr cb
  | ConnectionStateChanged peerId cs => onconnectionstatechange peerId cs
  | IceConnectionStateChanged peerId isHost isInitiator failed =>
      oniceconnectionstatechange peerId isHost isInitiator failed
  | DataChannelReceived peerId channel => ondatachannel peerId channel
  | ChannelOpened peerId => onopen peerId
  | ChannelClosed peerId => onclose peerId
  end.

(** The service and the trace after an operation. *)
Definition exec {A} (m : M A) (s : RTCService) : RTCService * list Effect :=
  match m s with (_, s', t) => (s', t) end.

(** A run: events handled one after the other, traces concatenated. *)
Fixpoint run (es : list (Transport * Event)) (s : RTCService)
  : RTCService * list Effect :=
  match es with
  | [] => (s, [])
  | (tr, e) :: rest =>
      let (s1, t1) := exec (handle tr e) s in
      let (s2, t2) := run rest s1 in
      (s2, t1 ++ t2)
  end.

(** What a signaling request that fails adds to the trace. *)
Definition deliveryReport (tr : Transport) (s : RTCService) : list Effect :=
  if delivers tr then []
  else if onErrorCallback s then [OnError] else [].

(** The transport accepts an offer and produces and accepts an answer. *)
Definition answersOffer (tr : Transport) : bool :=
  setsRemote tr
  && match createAnswer tr with Some _ => true | None => false end
  && setsLocal tr.

(** What a rejected transport call adds to the trace. *)
Definition errorReport (s : RTCService) : list Effect :=
  if onErrorCallback s then [OnError] else [].

(** The effects that are a step of an offer/answer exchange: a write of
    [state], a session-description call, a hand-over to the signaling
    client. *)
Definition negotiates (e : Effect) : bool :=
  match e with
  | StateWrite _ _ | CreateOffer _ | CreateAnswer _
  | SetLocalDescription _ _ | SetRemoteDescription _ _
  | SendOffer _ _ | SendAnswer _ _ => true
  | _ => false
  end.

(** The invocations of the connection callback for peer [p]. *)
Definition isOnConnection (p : string) (e : Effect) : bool :=
  match e with
  | OnConnection q => String.eqb q p
  | _ => false
  end.

(** The table is a map from each peer identifier to a record for that
    peer. *)
Definition tableOk (s : RTCService) : Prop :=
  JsMap.wf (connections s) /\
  Forall (fun e => PeerConnection.peerId (snd e) = fst e) (connections s).

(** The service an operation leaves behind; an operation that keeps the
    table well formed. *)
Definition after {A} (m : M A) (s : RTCService) : RTCService :=
  snd (fst (m s)).

Definition preserves {A} (m : M A) : Prop :=
  forall s, tableOk s -> tableOk (after m s).

(** What closing a record's data channel adds to the trace. *)
Definition channelClosed (pc : PeerConnection.t) : list Effect :=
  match dataChannel pc with
  | Some ch => [CloseDataChannel ch]
  | None => []
  end.

(** A live record for peer [p]. *)
Definition nonTerminalFor (p : string) (pc : PeerConnection.t) : bool :=
  String.eqb (PeerConnection.peerId pc) p && negb (terminal (state pc)).

End Rtc.

(* ================================================================== *)
(** ** Further observations on the mailbox store                       *)
(* ================================================================== *)

Module RouteView.
Import Route.
Local Open Scope string_scope.
Local Open Scope list_scope.
Local Open Scope Z_scope.

(** A request served before [deadline]; the sweep does not qualify. *)
Definition servedBefore (deadline : Z) (e : Event) : Prop :=
  match e with
  | Request now _ => now < deadline
  | Cleanup _ => False
  end.

(** The host of room [roomId], if the room exists. *)
Definition hostOf (roomId : string) (rooms : Rooms) : option (option string) :=
  option_map RoomInfo.hostPeerId (JsMap.get roomId rooms).

(** [id === hostPeerId] for a host field read beforehand. *)
Definition isHostFor (host : option string) (id : string) : bool :=
  match host with
  | Some h => String.eqb id h
  | None => false
  end.

End RouteView.

(* ================================================================== *)
(** ** signaling.ts: the remaining requests of the client             *)
(* ================================================================== *)

Module Client.
Import Signaling.
Local Open Scope string_scope.
Local Open Scope list_scope.
Local Open Scope Z_scope.

(** The bodies [sendOffer] and [sendAnswer] post. *)
Definition offerRequest (s : SignalingService) (targetPeerId : string)
           (offer : JsValue) : Route.Body.t :=
  Route.Body.mk "offer" (roomId s) (peerId s) false offer JsUndefined
                targetPeerId None.

Definition answerRequest (s : SignalingService) (targetPeerId : string)
           (answer : JsValue) : Route.Body.t :=
  Route.Body.mk "answer" (roomId s) (peerId s) false JsUndefined answer
                targetPeerId None.

(** [sendOffer(targetPeerId, offer)], from the point where [fetch] has
    settled: the value the promise resolves to, and whether the error
    callback was run ([handleError] in the [catch]). *)
Definition sendOffer (f : Fetch) : bool * bool :=
  match f with
  | NetworkError => (false, true)
  | Http false _ => (false, true)
  | Http true data => (Route.success data, false)
  end.

(** [sendAnswer(targetPeerId, answer)], likewise. *)
Definition sendAnswer (f : Fetch) : bool * bool :=
  match f with
  | NetworkError => (false, true)
  | Http false _ => (false, true)
  | Http true data => (Route.success data, false)
  end.

(** [poll()] in its two halves.  [pollBegin] is the part before the
    [await]: it checks [active] and issues the request.  [pollEnd] is the
    part after it, run when the response has arrived; it does not look at
    [active] again. *)
Definition pollBegin (s : SignalingService) : option Route.Body.t :=
  if negb (active s) then None else Some (pollRequest s).

Definition pollEnd (f : Fetch) (s : SignalingService)
  : SignalingService * list Dispatch :=
  match f with
  | NetworkError => (s, [])
  | Http false _ => (s, [])
  | Http true data =>
      if Route.success data then
        (mk (roomId s) (peerId s) (isHost s) (Route.timestamp data)
            (polling s) (active s),
         dispatches data)
      else (s, [])
  end.

(** Whether a peer has a mailbox in a room. *)
Definition known (roomId peer : string) (rooms : Route.Rooms) : bool :=
  match Route.mailbox roomId peer rooms with
  | Some _ => true
  | None => false
  end.

End Client.

(* ================================================================== *)
(** ** Further observations on the WebRTC service                      *)
(* ================================================================== *)

Module RtcView.
Import Rtc Rtc.PeerConnection.
Local Open Scope string_scope.
Local Open Scope list_scope.

(** An operation keeps a property of the service. *)
Definition keeps (P : RTCService -> Prop) {A} (m : M A) : Prop :=
  forall s, P s -> P (after m s).

(** The service is [self] and holds no record under its own identifier. *)
Definition noSelfRecord (self : string) (s : RTCService) : Prop :=
  Rtc.peerId s = self /\ JsMap.get self (connections s) = None.

(** The table holds exactly the record [pc] under [p]. *)
Definition holds (p : string) (pc : PeerConnection.t) (s : RTCService) : Prop :=
  JsMap.get p (connections s) = Some pc.

(** No record of the table has its [connected] flag set. *)
Definition noneConnected (s : RTCService) : Prop :=
  Forall (fun e => connected (snd e) = false) (connections s).

(** The peer an event is about, for the events that are about one. *)
Definition subject (e : Event) : option string :=
  match e with
  | Start _ | Stop => None
  | PeerJoined peer => Some (Peer.peerId peer)
  | OfferArrived from _ | AnswerArrived from _ => Some from
  | TimerFired (Reconnect p _ _) | TimerFired (ConnectTimeout p _ _)
  | TimerFired (RetryOffer p) => Some p
  | TimerFired (RetryHandleOffer from _)
  | TimerFired (RetryHandleAnswer from _) => Some from
  | ConnectionStateChanged p _ | IceConnectionStateChanged p _ _ _
  | DataChannelReceived p _ | ChannelOpened p | ChannelClosed p => Some p
  end.


(** What [stop()] makes of one record. *)
Definition teardown (pc : PeerConnection.t) : list Effect :=
  channelClosed pc ++ [CloseConnection (connection pc)].

(** The two notifications that set the [connected] flag of a record. *)
Definition raisesFlag (e : Event) : bool :=
  match e with
  | ChannelOpened _ | ConnectionStateChanged _ cs_connected => true
  | _ => false
  end.

(** What a record contributes to [getConnectedPeerCount()]. *)
Definition counted (pc : PeerConnection.t) : nat :=
  if connected pc then 1%nat else 0%nat.

End RtcView.

(* ================================================================== *)
(** ** RTCService: sending ([sendToPeer], [broadcast])                 *)
(* ================================================================== *)

Module Messaging.
Import Rtc Rtc.PeerConnection.
Local Open Scope string_scope.
Local Open Scope list_scope.

(** What the browser answers about a data channel while a message goes
    out. *)
Record Channels : Type := mkChannels {
  isOpen : Handle -> bool;    (* channel.readyState === 'open' *)
  accepts : Handle -> bool    (* channel.send(message) returns *)
}.

(** What a send leaves behind: a message handed to a channel, or the
    error callback run by [handleError]. *)
Inductive Out : Type :=
| ChannelSend (channel : Handle) (message : string)
| ErrorReported.

(** The [catch] block: [this.handleError(error)]. *)
Definition reportError (s : RTCService) : list Out :=
  if onErrorCallback s then [ErrorReported] else [].

(** [sendToPeer(peerId, type, data)].  [message] is what
    [JSON.stringify({ type, data })] returns, [None] when it throws. *)
Definition sendToPeer (ch : Channels) (peerId : string)
           (message : option string) (s : RTCService) : bool * list Out :=
  match JsMap.get peerId (connections s) with
  | None => (false, [])
  | Some peerConnection =>
      match dataChannel peerConnection with
      | None => (false, [])
      | Some channel =>
          if negb (isOpen ch channel) then (false, [])
          else
            match message with
            | None => (false, reportError s)
            | Some text =>
                if accepts ch channel then (true, [ChannelSend channel text])
                else (false, reportError s)
            end
      end
  end.

(** The test [broadcast] makes on a record before it sends. *)
Definition ready (ch : Channels) (connection : PeerConnection.t) : bool :=
  connected connection
  && match dataChannel connection with
     | Some channel => isOpen ch channel
     | None => false
     end.

(** [broadcast(type, data)] *)
Definition broadcast (ch : Channels) (message : option string)
           (s : RTCService) : list Out :=
  flat_map (fun entry =>
              if ready ch (snd entry)
              then snd (sendToPeer ch (fst entry) message s)
              else [])
           (connections s).

End Messaging.

(* ================================================================== *)
(** ** rtc-quiz.ts: the quiz service on top of [RTCService]            *)
(* ================================================================== *)

Module Quiz.
Local Open Scope string_scope.
Local Open Scope list_scope.
Local Open Scope Z_scope.

Module Question.
Record t : Type := mk {
  id : string;
  text : string;
  options : option (list string);
  revealTime : Z
}.
End Question.

Module Answer.
Record t : Type := mk {
  questionId : string;
  answer : string;
  participantId : string
}.
End Answer.

(** The value [setTimeout] returns. *)
Definition Timer : Type := nat.

(** [RTCQuizService]: the fields the message handlers read and write.  A
    callback field holds whether a callback is registered. *)
Record RTCQuizService : Type := mkQuiz {
  participantId : string;
  isHost : bool;
  questionTimers : JsMap.t Timer;
  onQuestionCallback : bool;
  onAnswerCallback : bool;
  onParticipantJoinCallback : bool
}.

Definition set_questionTimers (x : JsMap.t Timer) (s : RTCQuizService)
  : RTCQuizService :=
  mkQuiz (participantId s) (isHost s) x (onQuestionCallback s)
         (onAnswerCallback s) (onParticipantJoinCallback s).

Definition set_isHost (x : bool) (s : RTCQuizService) : RTCQuizService :=
  mkQuiz (participantId s) x (questionTimers s) (onQuestionCallback s)
         (onAnswerCallback s) (onParticipantJoinCallback s).

(** [new RTCQuizService()], with [participantId] the generated id. *)
Definition new (participantId : string) : RTCQuizService :=
  mkQuiz participantId false JsMap.empty false false false.

(** [onQuestion(cb)], [onAnswer(cb)], [onParticipantJoin(cb)] *)
Definition onQuestion (s : RTCQuizService) : RTCQuizService :=
  mkQuiz (participantId s) (isHost s) (questionTimers s) true
         (onAnswerCallback s) (onParticipantJoinCallback s).
Definition onAnswer (s : RTCQuizService) : RTCQuizService :=
  mkQuiz (participantId s) (isHost s) (questionTimers s)
         (onQuestionCallback s) true (onParticipantJoinCallback s).
Definition onParticipantJoin (s : RTCQuizService) : RTCQuizService :=
  mkQuiz (participantId s) (isHost s) (questionTimers s)
         (onQuestionCallback s) (onAnswerCallback s) true.

(** A timeout of the browser that has been set and has neither run nor
    been cleared: its handle, the question its callback closes over and
    the time from which it may run. *)
Record Pending : Type := mkPending {
  timer : Timer;
  question : Question.t;
  due : Z
}.

(** The service together with the browser's timeouts. *)
Record World : Type := mkWorld {
  service : RTCQuizService;
  pending : list Pending;
  nextTimer : Timer
}.

Inductive Effect : Type :=
| ClearTimeout (t : Timer)
| SetTimeout (t : Timer) (q : Question.t) (ms : Z)
| OnQuestion (q : Question.t)
| OnAnswer (a : Answer.t)
| OnParticipantJoin (participantId : string).

(** The delay [setTimeout] works with.  The argument is converted to a
    32-bit signed integer, and a negative result counts as 0. *)
Definition toInt32 (z : Z) : Z := (z + 2147483648) mod 4294967296 - 2147483648.

Definition timerDelay (ms : Z) : Z := Z.max 0 (toInt32 ms).

(** [clearTimeout(t)] *)
Definition clearTimeout (t : Timer) (ps : list Pending) : list Pending :=
  filter (fun p => negb (Nat.eqb (timer p) t)) ps.

(** [handleQuestionMessage(question)].  [checked] and [now] are the two
    readings of [Date.now()], in the order the method takes them. *)
Definition handleQuestionMessage (checked now : Z) (q : Question.t)
           (w : World) : World * list Effect :=
  if Question.revealTime q <? checked - 60000 then (w, [])
  else if isHost (service w) then (w, [])
  else
    let existing := JsMap.get (Question.id q) (questionTimers (service w)) in
    let timeDiff := Question.revealTime q - now in
    let timeout := Z.max 0 timeDiff in
    let t := nextTimer w in
    (mkWorld
       (set_questionTimers
          (JsMap.set (Question.id q) t (questionTimers (service w)))
          (service w))
       (match existing with
        | Some old => clearTimeout old (pending w)
        | None => pending w
        end ++ [mkPending t q (now + timerDelay timeout)])
       (S t),
     match existing with
     | Some old => [ClearTimeout old]
     | None => []
     end ++ [SetTimeout t q timeout]).

(** The callback [handleQuestionMessage] hands to [setTimeout]. *)
Definition reveal (q : Question.t) (s : RTCQuizService)
  : RTCQuizService * list Effect :=
  (set_questionTimers (JsMap.delete (Question.id q) (questionTimers s)) s,
   if onQuestionCallback s then [OnQuestion q] else []).

(** [handleAnswerMessage(answer)] *)
Definition handleAnswerMessage (a : Answer.t) (s : RTCQuizService)
  : list Effect :=
  if String.eqb (Answer.participantId a) (participantId s)
     || negb (isHost s) then []
  else if onAnswerCallback s then [OnAnswer a] else [].

(** [handleJoinMessage(participantId)] *)
Definition handleJoinMessage (id : string) (s : RTCQuizService)
  : list Effect :=
  if String.eqb id (participantId s) then []
  else if onParticipantJoinCallback s then [OnParticipantJoin id] else [].

(** A message as [handleRTCMessage] takes it apart: the [type] with the
    [data] cast to what the type announces. *)
Inductive Message : Type :=
| msgQuestion (q : Question.t)
| msgAnswer (a : Answer.t)
| msgJoin (participantId : string)
| msgAck
| msgPing
| msgOther (type : string).

(** [handleRTCMessage(event)] *)
Definition handleRTCMessage (checked now : Z) (m : Message) (w : World)
  : World * list Effect :=
  match m with
  | msgQuestion q => handleQuestionMessage checked now q w
  | msgAnswer a => (w, handleAnswerMessage a (service w))
  | msgJoin id => (w, handleJoinMessage id (service w))
  | msgAck | msgPing | msgOther _ => (w, [])
  end.

(** The part of [cleanup()] that concerns the timers. *)
Definition cleanup (w : World) : World * list Effect :=
  let timers := JsMap.values (questionTimers (service w)) in
  (mkWorld (set_questionTimers JsMap.empty (service w))
           (fold_left (fun ps t => clearTimeout t ps) timers (pending w))
           (nextTimer w),
   map ClearTimeout timers).

(** What happens to the service, which the application holds as a
    singleton: it creates a quiz or joins one, a message comes in, the
    browser runs a timeout, the application calls [cleanup()].  Of
    [createQuiz] and [joinQuiz] the events record what they do to the
    fields above: they set the role and leave the timers alone.  The
    browser runs a timeout that is pending and due, once. *)
Inductive Event : Type :=
| CreateQuiz
| JoinQuiz
| Incoming (checked now : Z) (m : Message)
| TimerFires (now : Z) (t : Timer)
| Cleanup.

Definition step (e : Event) (w : World) : World * list Effect :=
  match e with
  | CreateQuiz =>
      (mkWorld (set_isHost true (service w)) (pending w) (nextTimer w), [])
  | JoinQuiz =>
      (mkWorld (set_isHost false (service w)) (pending w) (nextTimer w), [])
  | Incoming checked now m => handleRTCMessage checked now m w
  | TimerFires now t =>
      match find (fun p => Nat.eqb (timer p) t) (pending w) with
      | Some p =>
          if due p <=? now then
            let (s', out) := reveal (question p) (service w) in
            (mkWorld s' (clearTimeout t (pending w)) (nextTimer w), out)
          else (w, [])
      | None => (w, [])
      end
  | Cleanup => cleanup w
  end.

Fixpoint run (es : list Event) (w : World) : World * list Effect :=
  match es with
  | [] => (w, [])
  | e :: rest =>
      let (w1, t1) := step e w in
      let (w2, t2) := run rest w1 in
      (w2, t1 ++ t2)
  end.

(** The world of a service that has set no timeout yet. *)
Definition initial (s : RTCQuizService) : World := mkWorld s [] 0%nat.

(** The timer table and the browser's timeouts agree: the pending
    timeouts have distinct handles, all handed out already; each is
    entered in [questionTimers] under its question's id; and each entry
    of [questionTimers] is a pending timeout. *)
Definition tidy (w : World) : Prop :=
  NoDup (map timer (pending w)) /\
  (forall p, In p (pending w) -> (timer p < nextTimer w)%nat) /\
  (forall p, In p (pending w) ->
     JsMap.get (Question.id (question p)) (questionTimers (service w))
       = Some (timer p)) /\
  (forall qid t, JsMap.get qid (questionTimers (service w)) = Some t ->
     exists p, In p (pending w) /\ timer p = t /\
               Question.id (question p) = qid).

(** No pending timeout is due before its question's reveal time. *)
Definition punctual (w : World) : Prop :=
  forall p, In p (pending w) -> Question.revealTime (question p) <= due p.

(** The reveal time of a question is less than 2^31 ms after the time
    of its receipt, so that the delay handed to [setTimeout] is the
    delay the timer works with. *)
Definition inRange (now : Z) (q : Question.t) : Prop :=
  Question.revealTime q - now < 2147483648.

Definition questionsInRange (e : Event) : Prop :=
  match e with
  | Incoming _ now (msgQuestion q) => inRange now q
  | _ => True
  end.

(** The event does not turn the service into a participant. *)
Definition staysHost (e : Event) : Prop :=
  match e with
  | JoinQuiz => False
  | _ => True
  end.

(** [setupRTCCallbacks()], for the callbacks the service model records. *)
Definition setupRTCCallbacks (rtc : Rtc.RTCService) : Rtc.RTCService :=
  Rtc.onPeerCountChange (Rtc.onError (Rtc.onDisconnection
    (Rtc.onConnection rtc))).

(** [joinQuiz(roomCode)]: the service it builds, what [start()] did, and
    what the closing [broadcast('join', ...)] sent.  [rtcPeerId] is the
    id the new [RTCService] generates, [peers] what [signaling.join()]
    resolved to. *)
Definition joinQuiz (ch : Messaging.Channels) (roomCode rtcPeerId : string)
           (peers : list (Rtc.Transport * Peer.t)) (message : option string)
  : Rtc.RTCService * list Rtc.Effect * list Messaging.Out :=
  let rtc := setupRTCCallbacks (Rtc.new roomCode rtcPeerId false) in
  let (rtc', trace) := Rtc.exec (Rtc.start peers) rtc in
  (rtc', trace, Messaging.broadcast ch message rtc').

End Quiz.

(* ================================================================== *)
(** ** Concrete requests and stores used as test inputs                *)
(* ================================================================== *)

Module Scenario.
Import Route.
Local Open Scope string_scope.
Local Open Scope list_scope.
Local Open Scope Z_scope.

Definition sdpOffer : JsValue := JsObject [("type", "offer"); ("sdp", "v=0")].
Definition sdpAnswer : JsValue := JsObject [("type", "answer"); ("sdp", "v=0")].

(** A sends an offer, resp. an answer, for B in room R1. *)
Definition offerToB : Body.t :=
  Body.mk "offer" "R1" "A" false sdpOffer JsUndefined "B" None.

Definition answerToB : Body.t :=
  Body.mk "answer" "R1" "A" false JsUndefined sdpAnswer "B" None.

(** C polls room R1 with the given cursor. *)
Definition pollByC (lastPoll : option Z) : Body.t :=
  Body.mk "poll" "R1" "C" false JsUndefined JsUndefined "" lastPoll.

(** The store after A's offer for B has been deposited at time 1000. *)
Definition afterOffer : Rooms := fst (POST 1000 offerToB []).

(** The client of peer P in room R1, before it joins. *)
Definition clientP : Signaling.SignalingService := Signaling.new "R1" "P" false.

(** A transport and network that answer every call. *)
Definition ok : Rtc.Transport :=
  Rtc.mkTransport true true (Some sdpOffer) (Some sdpAnswer) true true true.

(** A transport whose [createOffer()] is rejected. *)
Definition noOffer : Rtc.Transport :=
  Rtc.mkTransport true true None (Some sdpAnswer) true true true.

(** Participant A's service, all callbacks registered, holding one
    record for the host H in the given state. *)
Definition recordOfH (st : Rtc.ConnectionState) (lock : bool)
  : Rtc.PeerConnection.t :=
  Rtc.PeerConnection.mk "H" false 0%nat None false false st lock.

Definition guestWith (st : Rtc.ConnectionState) (lock : bool)
  : Rtc.RTCService :=
  Rtc.mkService "R1" "A" false [("H", recordOfH st lock)]
                true true true true 1%nat.

(** Host H's service, all callbacks registered, holding one record for
    participant A, whom it has offered a connection. *)
Definition recordOfA (st : Rtc.ConnectionState) (lock : bool)
  : Rtc.PeerConnection.t :=
  Rtc.PeerConnection.mk "A" false 0%nat (Some 1%nat) true false st lock.

Definition hostWith (st : Rtc.ConnectionState) (lock : bool)
  : Rtc.RTCService :=
  Rtc.mkService "R1" "H" true [("A", recordOfA st lock)]
                true true true true 2%nat.

(** The two services freshly constructed, callbacks registered. *)
Definition guest : Rtc.RTCService :=
  Rtc.onPeerCountChange (Rtc.onError (Rtc.onDisconnection
    (Rtc.onConnection (Rtc.new "R1" "A" false)))).

Definition host : Rtc.RTCService :=
  Rtc.onPeerCountChange (Rtc.onError (Rtc.onDisconnection
    (Rtc.onConnection (Rtc.new "R1" "H" true)))).

End Scenario.

(* ================================================================== *)
(** * Properties                                                       *)
(* ================================================================== *)

(** ** Facts about insertion-ordered maps *)

Module JsMapFacts.
Import JsMap.

Section Facts.
Context {V : Type}.
Implicit Types (m : JsMap.t V) (k : string) (v : V).

Lemma get_set_same k v m : get k (set k v m) = Some v.
Proof.
  induction m as [|[k' v'] m IH]; simpl.
  - now rewrite String.eqb_refl.
  - destruct (String.eqb k' k) eqn:E; simpl.
    + now rewrite String.eqb_refl.
    + now rewrite E.
Qed.

Lemma get_set_other k k' v m : k <> k' -> get k' (set k v m) = get k' m.
Proof.
  intros Hne. induction m as [|[k0 v0] m IH]; simpl.
  - apply String.eqb_neq in Hne. now rewrite Hne.
  - destruct (String.eqb k0 k) eqn:E; simpl.
    + apply String.eqb_eq in E. subst k0.
      apply String.eqb_neq in Hne. now rewrite Hne.
    + now rewrite IH.
Qed.

Lemma has_true k m : has k m = true <-> exists v, get k m = Some v.
Proof.
  unfold has. destruct (get k m); split; intros H; eauto; try discriminate.
  now destruct H.
Qed.

Lemma has_false k m : has k m = false <-> get k m = None.
Proof. unfold has. destruct (get k m); split; congruence. Qed.

(** Writing back what is already stored changes nothing. *)
Lemma set_get_id k v m : get k m = Some v -> set k v m = m.
Proof.
  induction m as [|[k' v'] m IH]; simpl; [discriminate|].
  destruct (String.eqb k' k) eqn:E.
  - apply String.eqb_eq in E. intros [= ->]. now subst.
  - intros H. now rewrite IH.
Qed.

Lemma set_set k v v' m : set k v (set k v' m) = set k v m.
Proof.
  induction m as [|[k0 v0] m IH]; simpl.
  - now rewrite String.eqb_refl.
  - destruct (String.eqb k0 k) eqn:E; simpl.
    + now rewrite String.eqb_refl.
    + now rewrite E, IH.
Qed.

Lemma get_In k v m : get k m = Some v -> In (k, v) m.
Proof.
  induction m as [|[k' v'] m IH]; simpl; [discriminate|].
  destruct (String.eqb k' k) eqn:E.
  - apply String.eqb_eq in E. intros [= ->]. left. now subst.
  - intros H. right. auto.
Qed.

Lemma get_In_values k v m : get k m = Some v -> In v (values m).
Proof.
  intros H. apply get_In in H. unfold values.
  change v with (snd (k, v)). now apply in_map.
Qed.

Lemma In_keys_get k m : In k (keys m) <-> exists v, get k m = Some v.
Proof.
  induction m as [|[k' v'] m IH]; simpl.
  - split; [tauto | intros [v Hv]; discriminate].
  - destruct (String.eqb k' k) eqn:E.
    + apply String.eqb_eq in E. split; eauto.
    + apply String.eqb_neq in E. rewrite <- IH. tauto.
Qed.

Lemma In_get k v m : wf m -> In (k, v) m -> get k m = Some v.
Proof.
  unfold wf, keys. induction m as [|[k' v'] m IH]; simpl; [tauto|].
  intros Hnd [Heq | Hin].
  - injection Heq as -> ->. now rewrite String.eqb_refl.
  - inversion Hnd as [|? ? Hnotin Hnd']; subst.
    destruct (String.eqb k' k) eqn:E.
    + apply String.eqb_eq in E. subst k'. exfalso. apply Hnotin.
      change k with (fst (k, v)). now apply in_map.
    + auto.
Qed.

Lemma In_values_set x k v m :
  In x (values (set k v m)) -> x = v \/ In x (values m).
Proof.
  unfold values. induction m as [|[k' v'] m IH]; simpl.
  - intros [<- | []]. now left.
  - destruct (String.eqb k' k); simpl.
    + intros [<- | H]; auto.
    + intros [<- | H]; auto. destruct (IH H); auto.
Qed.

Lemma keys_set_In k k' v m :
  In k' (keys (set k v m)) <-> k' = k \/ In k' (keys m).
Proof.
  unfold keys. induction m as [|[k0 v0] m IH]; simpl.
  - intuition.
  - destruct (String.eqb k0 k) eqn:E; simpl.
    + apply String.eqb_eq in E. subst. intuition.
    + rewrite IH. intuition.
Qed.

Lemma wf_set k v m : wf m -> wf (set k v m).
Proof.
  unfold wf. induction m as [|[k0 v0] m IH]; simpl; intros Hnd.
  - constructor; [simpl; tauto | constructor].
  - inversion Hnd as [|? ? Hnotin Hnd']; subst.
    destruct (String.eqb k0 k) eqn:E; simpl.
    + apply String.eqb_eq in E. subst. now constructor.
    + constructor; auto.
      intros Hin. apply keys_set_In in Hin. destruct Hin as [-> | Hin].
      * now rewrite String.eqb_refl in E.
      * now apply Hnotin.
Qed.

Lemma keys_filter (f : string * V -> bool) m k :
  In k (keys (filter f m)) -> In k (keys m).
Proof.
  unfold keys. intros H. apply in_map_iff in H as [e [<- He]].
  apply filter_In in He as [He _]. now apply in_map.
Qed.

Lemma wf_filter (f : string * V -> bool) m : wf m -> wf (filter f m).
Proof.
  unfold wf. induction m as [|[k0 v0] m IH]; simpl; intros Hnd; auto.
  inversion Hnd as [|? ? Hnotin Hnd']; subst.
  destruct (f (k0, v0)); simpl; auto.
  constructor; auto. intros Hin. apply Hnotin. eapply keys_filter; eauto.
Qed.

Lemma wf_delete k m : wf m -> wf (delete k m).
Proof. apply wf_filter. Qed.

Lemma wf_retain keep m : wf m -> wf (retain keep m).
Proof. apply wf_filter. Qed.

Lemma get_delete_same k m : get k (delete k m) = None.
Proof.
  unfold delete. induction m as [|[k' v'] m IH]; simpl; auto.
  destruct (String.eqb k' k) eqn:E; simpl; auto. now rewrite E.
Qed.

Lemma get_delete_other k k' m : k <> k' -> get k' (delete k m) = get k' m.
Proof.
  intros Hne. unfold delete. induction m as [|[k0 v0] m IH]; simpl; auto.
  destruct (String.eqb k0 k) eqn:E; simpl.
  - apply String.eqb_eq in E. subst k0.
    apply String.eqb_neq in Hne. now rewrite Hne.
  - now rewrite IH.
Qed.

Lemma keys_update_all (f : V -> V) m : keys (update_all f m) = keys m.
Proof.
  unfold keys, update_all. rewrite map_map. now apply map_ext.
Qed.

Lemma values_update_all (f : V -> V) m :
  values (update_all f m) = map f (values m).
Proof.
  unfold values, update_all. now rewrite !map_map.
Qed.

Lemma get_update_all (f : V -> V) k m :
  get k (update_all f m) = option_map f (get k m).
Proof.
  induction m as [|[k' v'] m IH]; simpl; auto.
  destruct (String.eqb k' k); auto.
Qed.

Lemma wf_update_all (f : V -> V) m : wf m -> wf (update_all f m).
Proof. unfold wf. now rewrite keys_update_all. Qed.

Lemma get_retain keep k v m :
  wf m -> get k (retain keep m) = Some v ->
  get k m = Some v /\ keep k v = true.
Proof.
  intros Hwf H. apply get_In in H. unfold retain in H.
  apply filter_In in H as [Hin Hkeep]. split; auto. now apply In_get.
Qed.

Lemma values_retain keep x m : In x (values (retain keep m)) -> In x (values m).
Proof.
  unfold values, retain. intros H. apply in_map_iff in H as [e [<- He]].
  apply filter_In in He as [He _]. now apply in_map.
Qed.
End Facts.

End JsMapFacts.

(** ** The mailbox store *)

Module RouteFacts.
Import Route JsMapFacts Scenario.
Local Open Scope string_scope.
Local Open Scope list_scope.
Local Open Scope Z_scope.

Lemma truthyStr_true s : s <> "" -> truthyStr s = true.
Proof. intros H. unfold truthyStr. apply String.eqb_neq in H. now rewrite H. Qed.

Lemma truthyStr_inv s : truthyStr s = true -> s <> "".
Proof.
  unfold truthyStr. destruct (String.eqb s "") eqn:E; [discriminate|].
  intros _. now apply String.eqb_neq.
Qed.

Lemma touch_entered now peerId room :
  touch now peerId room = Some (entered now peerId room).
Proof.
  unfold touch, entered. simpl.
  destruct (JsMap.has peerId (RoomInfo.peers room)) eqn:H.
  - apply has_true in H as [p Hp]. now rewrite Hp.
  - apply has_false in H. rewrite H, get_set_same, set_set. reflexivity.
Qed.

(** The endpoint on a request that passes the first check: the room is
    looked up or created, the requester registered, the action
    dispatched and the room written back. *)
Lemma POST_served now body rooms :
  wellFormed body ->
  POST now body rooms =
    (JsMap.set (Body.roomId body)
       (fst (dispatch now body
               (entered now (Body.peerId body)
                  (roomOf now (Body.roomId body) rooms))))
       rooms,
     snd (dispatch now body
            (entered now (Body.peerId body)
               (roomOf now (Body.roomId body) rooms)))).
Proof.
  intros (Ha & Hr & Hp). unfold POST, roomOf.
  rewrite !truthyStr_true by assumption. simpl.
  destruct (JsMap.has (Body.roomId body) rooms) eqn:H.
  - apply has_true in H as [room Hroom]. rewrite Hroom, touch_entered.
    now destruct (dispatch now body _).
  - apply has_false in H. rewrite H, get_set_same, touch_entered.
    destruct (dispatch now body _). now rewrite set_set.
Qed.

Lemma POST_rejected now body rooms :
  ~ wellFormed body ->
  POST now body rooms = (rooms, ErrorResponse "Invalid request" 400).
Proof.
  intros H. unfold POST, wellFormed in *.
  destruct (truthyStr (Body.action body)) eqn:Ea; auto.
  destruct (truthyStr (Body.roomId body)) eqn:Er; auto.
  destruct (truthyStr (Body.peerId body)) eqn:Ep; auto.
  exfalso. apply H. auto using truthyStr_inv.
Qed.

Lemma wellFormed_dec body : wellFormed body \/ ~ wellFormed body.
Proof.
  unfold wellFormed.
  destruct (string_dec (Body.action body) ""), (string_dec (Body.roomId body) ""),
    (string_dec (Body.peerId body) ""); tauto.
Qed.

(** The mailbox of a peer in the room a request has entered. *)
Lemma entered_get_self now peerId room :
  JsMap.get peerId (RoomInfo.peers (entered now peerId room)) =
    Some (PeerInfo.set_lastSeen now
            (match JsMap.get peerId (RoomInfo.peers room) with
             | Some p => p
             | None => newPeer peerId now
             end)).
Proof. unfold entered. simpl. apply get_set_same. Qed.

Lemma entered_get_other now peerId p room :
  peerId <> p ->
  JsMap.get p (RoomInfo.peers (entered now peerId room)) =
    JsMap.get p (RoomInfo.peers room).
Proof. intros H. unfold entered. simpl. now apply get_set_other. Qed.

Lemma mailbox_roomOf now roomId p rooms :
  JsMap.get p (RoomInfo.peers (roomOf now roomId rooms)) = mailbox roomId p rooms.
Proof. unfold roomOf, mailbox. now destruct (JsMap.get roomId rooms). Qed.

Lemma mailbox_set roomId room p rooms :
  mailbox roomId p (JsMap.set roomId room rooms) =
    JsMap.get p (RoomInfo.peers room).
Proof. unfold mailbox. now rewrite get_set_same. Qed.

Lemma mailbox_set_other roomId roomId' room p rooms :
  roomId <> roomId' ->
  mailbox roomId' p (JsMap.set roomId room rooms) = mailbox roomId' p rooms.
Proof. intros H. unfold mailbox. now rewrite get_set_other. Qed.

(** *** Deposits *)

Lemma dispatch_offer now body room :
  Body.action body = "offer" -> dispatch now body room = caseOffer now body room.
Proof. intros H. unfold dispatch. now rewrite H. Qed.

Lemma dispatch_answer now body room :
  Body.action body = "answer" -> dispatch now body room = caseAnswer now body room.
Proof. intros H. unfold dispatch. now rewrite H. Qed.

Lemma dispatch_poll now body room :
  Body.action body = "poll" -> dispatch now body room = casePoll now body room.
Proof. intros H. unfold dispatch. now rewrite H. Qed.

Lemma dispatch_join now body room :
  Body.action body = "join" -> dispatch now body room = caseJoin body room.
Proof. intros H. unfold dispatch. now rewrite H. Qed.

(** An offer for a target without a mailbox: the mailbox is created,
    dated 60000 ms back, and holds exactly the new record. *)
Lemma caseOffer_unknown_target now body room :
  Body.target body <> "" ->
  truthy (Body.offer body) = true ->
  JsMap.get (Body.target body) (RoomInfo.peers room) = None ->
  snd (caseOffer now body room) = SuccessResponse /\
  JsMap.get (Body.target body) (RoomInfo.peers (fst (caseOffer now body room))) =
    Some (PeerInfo.mk (Body.target body) (now - 60000)
            [Signal.mk (Body.peerId body) (Body.offer body) now] []).
Proof.
  intros Ht Ho Hnone. unfold caseOffer.
  rewrite (truthyStr_true _ Ht), Ho. simpl.
  assert (Hhas : JsMap.has (Body.target body) (RoomInfo.peers room) = false)
    by now apply has_false.
  rewrite Hhas, get_set_same. simpl. split; [reflexivity|].
  now rewrite get_set_same.
Qed.





(** *** What a response carries *)

Lemma orZero_Some z : orZero (Some z) = z.
Proof. simpl. destruct (Z.eqb_spec z 0); congruence. Qed.

Lemma roomRecords_In s room :
  In s (roomRecords room) <->
  exists p, In p (JsMap.values (RoomInfo.peers room)) /\
            (In s (PeerInfo.offers p) \/ In s (PeerInfo.answers p)).
Proof.
  unfold roomRecords. rewrite in_app_iff, !in_flat_map. split.
  - intros [[p [Hp Hs]] | [p [Hp Hs]]]; exists p; auto.
  - intros [p [Hp [Hs | Hs]]]; [left | right]; exists p; auto.
Qed.

(** Registering the requester adds no record. *)
Lemma entered_records now peerId room s :
  In s (roomRecords (entered now peerId room)) -> In s (roomRecords room).
Proof.
  rewrite !roomRecords_In. intros [p [Hp Hs]]. unfold entered in Hp. simpl in Hp.
  apply In_values_set in Hp as [-> | Hp]; [|eauto].
  destruct (JsMap.get peerId (RoomInfo.peers room)) as [q|] eqn:Hq.
  - exists q. split; [eapply get_In_values; eauto | exact Hs].
  - simpl in Hs. tauto.
Qed.

(** The records a poll response carries are records of the room, from
    other senders, stamped after the cursor. *)
Lemma casePoll_delivered now body room s :
  In s (delivered (snd (casePoll now body room))) <->
  In s (roomRecords room) /\ isNewFor (Body.peerId body) (orZero (Body.lastPoll body)) s = true.
Proof.
  unfold casePoll, roomRecords. simpl.
  rewrite !in_app_iff, !filter_In. tauto.
Qed.

Lemma dispatch_delivered now body room s :
  In s (delivered (snd (dispatch now body room))) ->
  In s (roomRecords room) /\ orZero (Body.lastPoll body) < Signal.timestamp s.
Proof.
  unfold dispatch.
  destruct (String.eqb (Body.action body) "join"); [simpl; tauto|].
  destruct (String.eqb (Body.action body) "offer").
  { unfold caseOffer.
    destruct (_ || _); [simpl; tauto|].
    destruct (JsMap.get _ _); simpl; tauto. }
  destruct (String.eqb (Body.action body) "answer").
  { unfold caseAnswer.
    destruct (_ || _); [simpl; tauto|].
    destruct (negb _); [simpl; tauto|].
    destruct (JsMap.get _ _); simpl; tauto. }
  destruct (String.eqb (Body.action body) "poll"); [|simpl; tauto].
  rewrite casePoll_delivered. intros [Hin Hnew]. split; auto.
  unfold isNewFor in Hnew. apply andb_true_iff in Hnew as [_ Hlt].
  now apply Z.ltb_lt.
Qed.

Lemma records_roomOf now roomId rooms s :
  In s (roomRecords (roomOf now roomId rooms)) -> In s (records roomId rooms).
Proof.
  unfold roomOf, records. destruct (JsMap.get roomId rooms); auto.
Qed.

(** Every record in a response is held in the store for the polled
    room and is newer than the cursor that was sent. *)
Lemma POST_delivered now body rooms s :
  In s (delivered (snd (POST now body rooms))) ->
  In s (records (Body.roomId body) rooms) /\
  orZero (Body.lastPoll body) < Signal.timestamp s.
Proof.
  destruct (wellFormed_dec body) as [Hwf | Hwf].
  - rewrite (POST_served _ _ _ Hwf). simpl. intros H.
    apply dispatch_delivered in H as [Hin Hlt]. split; auto.
    eapply records_roomOf, entered_records; eauto.
  - rewrite (POST_rejected _ _ _ Hwf). simpl. tauto.
Qed.

(** *** How the records of a room evolve *)

Lemma caseOffer_records now body room s :
  In s (roomRecords (fst (caseOffer now body room))) ->
  In s (roomRecords room) \/ Signal.timestamp s = now.
Proof.
  unfold caseOffer.
  destruct (_ || _); [simpl; tauto|].
  set (peers1 := if JsMap.has _ _ then _ else _).
  assert (Hsub : forall p, In p (JsMap.values peers1) ->
                 In p (JsMap.values (RoomInfo.peers room)) \/
                 (PeerInfo.offers p = [] /\ PeerInfo.answers p = [])).
  { intros p Hp. subst peers1.
    destruct (JsMap.has _ _); auto.
    apply In_values_set in Hp as [-> | Hp]; auto. }
  destruct (JsMap.get (Body.target body) peers1) as [tp|] eqn:Htp; simpl.
  - rewrite !roomRecords_In. simpl. intros [p [Hp Hs]].
    apply In_values_set in Hp as [-> | Hp].
    + simpl in Hs. rewrite in_app_iff in Hs. simpl in Hs.
      destruct Hs as [[Hs | [<- | []]] | Hs]; auto;
        (apply get_In_values, Hsub in Htp as [Htp | [Ho Ha]];
         [left; exists tp; auto | rewrite ?Ho, ?Ha in Hs; contradiction]).
    + apply Hsub in Hp as [Hp | [Ho Ha]]; [left; exists p; auto|].
      rewrite Ho, Ha in Hs. simpl in Hs. tauto.
  - rewrite !roomRecords_In. simpl. intros [p [Hp Hs]].
    apply Hsub in Hp as [Hp | [Ho Ha]]; [left; exists p; auto|].
    rewrite Ho, Ha in Hs. simpl in Hs. tauto.
Qed.

Lemma caseAnswer_records now body room s :
  In s (roomRecords (fst (caseAnswer now body room))) ->
  In s (roomRecords room) \/ Signal.timestamp s = now.
Proof.
  unfold caseAnswer.
  destruct (_ || _); [simpl; tauto|].
  destruct (negb _); [simpl; tauto|].
  destruct (JsMap.get (Body.target body) (RoomInfo.peers room)) as [tp|] eqn:Htp;
    simpl; [|tauto].
  rewrite !roomRecords_In. simpl. intros [p [Hp Hs]].
  apply In_values_set in Hp as [-> | Hp]; [|left; exists p; auto].
  simpl in Hs. rewrite in_app_iff in Hs. simpl in Hs.
  apply get_In_values in Htp.
  destruct Hs as [Hs | [Hs | [<- | []]]]; auto; left; exists tp; auto.
Qed.

(** After the clean-up loop of a poll every record left in the room is
    younger than 60000 ms, and none was added. *)
Lemma casePoll_records now body room s :
  In s (roomRecords (fst (casePoll now body room))) ->
  In s (roomRecords room) /\ now - 60000 < Signal.timestamp s.
Proof.
  unfold casePoll. simpl. rewrite !roomRecords_In. simpl.
  rewrite values_update_all. intros [p [Hp Hs]].
  apply in_map_iff in Hp as [q [<- Hq]]. unfold prune in Hs. simpl in Hs.
  rewrite !filter_In in Hs. unfold isFresh in Hs. rewrite !Z.ltb_lt in Hs.
  split; [exists q|]; tauto.
Qed.

Lemma caseJoin_records body room :
  roomRecords (fst (caseJoin body room)) = roomRecords room.
Proof. unfold caseJoin. simpl. now destruct (Body.isHost body). Qed.

Lemma dispatch_records now body room s :
  In s (roomRecords (fst (dispatch now body room))) ->
  In s (roomRecords room) \/ Signal.timestamp s = now.
Proof.
  unfold dispatch.
  destruct (String.eqb _ "join"); [rewrite caseJoin_records; tauto|].
  destruct (String.eqb _ "offer"); [apply caseOffer_records|].
  destruct (String.eqb _ "answer"); [apply caseAnswer_records|].
  destruct (String.eqb _ "poll"); [|simpl; tauto].
  intros H. apply casePoll_records in H. tauto.
Qed.

Lemma records_set roomId room rooms :
  records roomId (JsMap.set roomId room rooms) = roomRecords room.
Proof. unfold records. now rewrite get_set_same. Qed.

Lemma records_set_other roomId roomId' room rooms :
  roomId <> roomId' ->
  records roomId' (JsMap.set roomId room rooms) = records roomId' rooms.
Proof. intros H. unfold records. now rewrite get_set_other. Qed.

(** A request adds to a room at most records stamped with its own
    server time. *)
Lemma POST_records now body rooms roomId s :
  In s (records roomId (fst (POST now body rooms))) ->
  In s (records roomId rooms) \/ Signal.timestamp s = now.
Proof.
  destruct (wellFormed_dec body) as [Hwf | Hwf].
  - rewrite (POST_served _ _ _ Hwf). simpl.
    destruct (string_dec (Body.roomId body) roomId) as [<- | Hne].
    + rewrite records_set. intros H.
      apply dispatch_records in H as [H | H]; auto.
      left. eapply records_roomOf, entered_records; eauto.
    + rewrite records_set_other by assumption. auto.
  - rewrite (POST_rejected _ _ _ Hwf). simpl. auto.
Qed.

(** A served poll leaves only records younger than 60000 ms in its room. *)
Lemma POST_poll_prunes now body rooms s :
  wellFormed body -> Body.action body = "poll" ->
  In s (records (Body.roomId body) (fst (POST now body rooms))) ->
  now - 60000 < Signal.timestamp s.
Proof.
  intros Hwf Hact. rewrite (POST_served _ _ _ Hwf). simpl.
  rewrite records_set, (dispatch_poll _ _ _ Hact). intros H.
  now apply casePoll_records in H.
Qed.

Lemma POST_wf now body rooms : JsMap.wf rooms -> JsMap.wf (fst (POST now body rooms)).
Proof.
  intros H. destruct (wellFormed_dec body) as [Hwf | Hwf].
  - rewrite (POST_served _ _ _ Hwf). simpl. now apply wf_set.
  - now rewrite (POST_rejected _ _ _ Hwf).
Qed.

Lemma cleanup_wf now rooms : JsMap.wf rooms -> JsMap.wf (cleanup now rooms).
Proof. intros H. unfold cleanup. now apply wf_retain, wf_update_all. Qed.

(** The sweep only removes. *)
Lemma cleanup_records now rooms roomId s :
  JsMap.wf rooms ->
  In s (records roomId (cleanup now rooms)) -> In s (records roomId rooms).
Proof.
  intros Hwf. unfold records, cleanup.
  destruct (JsMap.get roomId (JsMap.retain _ _)) as [room|] eqn:Hget;
    [|simpl; tauto].
  apply get_retain in Hget as [Hget _]; [|now apply wf_update_all].
  rewrite get_update_all in Hget.
  destruct (JsMap.get roomId rooms) as [room0|]; [|discriminate].
  injection Hget as <-. rewrite !roomRecords_In. unfold sweepRoom. simpl.
  intros [p [Hp Hs]]. exists p. split; auto. eapply values_retain; eauto.
Qed.

Lemma step_wf e rooms : JsMap.wf rooms -> JsMap.wf (step e rooms).
Proof. destruct e; simpl; [apply POST_wf | apply cleanup_wf]. Qed.

Lemma run_wf es rooms : JsMap.wf rooms -> JsMap.wf (run es rooms).
Proof.
  unfold run. revert rooms. induction es as [|e es IH]; simpl; auto.
  intros rooms H. apply IH. now apply step_wf.
Qed.

(** Records older than a bound stay out of a room once they are out, as
    long as the server clock stays ahead of the bound. *)
Lemma run_records_newer bound roomId es :
  Forall (fun e => bound < time e) es ->
  forall rooms,
    JsMap.wf rooms ->
    Forall (fun s => bound < Signal.timestamp s) (records roomId rooms) ->
    Forall (fun s => bound < Signal.timestamp s) (records roomId (run es rooms)).
Proof.
  unfold run. induction 1 as [|e es He Hes IH]; simpl; auto.
  intros rooms Hwf Hinv. apply IH; [now apply step_wf|].
  rewrite Forall_forall in *. intros s Hs. destruct e as [now body | now]; simpl in *.
  - apply POST_records in Hs as [Hs | Hs]; auto. lia.
  - apply cleanup_records in Hs; auto.
Qed.

(** *** The claims about polling *)

(** C5, counterexample: A's offer for B is deposited at time 1000 and
    nobody polls until C does at time 100000, with no cursor; more than
    60000 ms have passed, and the response still carries the record. *)
Lemma stale_record_still_delivered :
  1000 + 60000 < 100000 /\
  In (Signal.mk "A" sdpOffer 1000) (records "R1" afterOffer) /\
  In (Signal.mk "A" sdpOffer 1000)
     (delivered (snd (POST 100000 (pollByC None) afterOffer))).
Proof. repeat split; simpl; auto. Qed.

(** C5, as amended: once a poll of a room has been served at time
    [now1], no later response for that room carries a record stamped
    [now1 - 60000] or earlier, whatever happens in between (requests and
    sweeps, the server clock not running backwards) and whether or not
    the record was ever delivered.  The poll at [now1] itself computes
    its response before it prunes and can still carry such a record. *)
Theorem retention_after_pruning_poll rooms now1 body1 later now2 body2 t :
  JsMap.wf rooms ->
  wellFormed body1 ->
  Body.action body1 = "poll" ->
  t + 60000 <= now1 ->
  Forall (fun e => now1 <= time e) later ->
  Body.roomId body2 = Body.roomId body1 ->
  Forall (fun s => t < Signal.timestamp s)
         (delivered (snd (POST now2 body2
                            (run later (fst (POST now1 body1 rooms)))))).
Proof.
  intros Hwf Hwf1 Hact Ht Hlater Hroom.
  assert (Hinv : Forall (fun s => t < Signal.timestamp s)
                   (records (Body.roomId body1)
                      (run later (fst (POST now1 body1 rooms))))).
  { apply run_records_newer.
    - eapply Forall_impl; [|exact Hlater]. simpl. intros e He. lia.
    - now apply POST_wf.
    - apply Forall_forall. intros s Hs.
      apply POST_poll_prunes in Hs; auto. lia. }
  rewrite Forall_forall in *. intros s Hs.
  apply POST_delivered in Hs as [Hs _]. rewrite Hroom in Hs. auto.
Qed.

Lemma wf_afterOffer : JsMap.wf afterOffer.
Proof. apply POST_wf. constructor. Qed.

Lemma retention_after_pruning_poll_witness :
  Forall (fun s => 1000 < Signal.timestamp s)
         (delivered (snd (POST 101000 (pollByC None)
                            (run [Request 100500 offerToB]
                                 (fst (POST 100000 (pollByC None) afterOffer)))))).
Proof.
  apply (retention_after_pruning_poll afterOffer 100000 (pollByC None)
           [Request 100500 offerToB] 101000 (pollByC None) 1000).
  - exact wf_afterOffer.
  - repeat split; discriminate.
  - reflexivity.
  - lia.
  - repeat constructor. simpl. lia.
  - reflexivity.
Defined.

(** C6: a peer polls with cursor [t1] and is told server time [t2],
    [t1 < t2]; whatever the store goes through afterwards, its next
    poll, made with cursor [t2], carries no offer or answer stamped [t1]
    or earlier. *)
Theorem poll_monotonic rooms now1 body1 t1 t2 between now2 body2 :
  wellFormed body1 ->
  Body.action body1 = "poll" ->
  Body.lastPoll body1 = Some t1 ->
  timestamp (snd (POST now1 body1 rooms)) = Some t2 ->
  t1 < t2 ->
  Body.action body2 = "poll" ->
  Body.roomId body2 = Body.roomId body1 ->
  Body.peerId body2 = Body.peerId body1 ->
  Body.lastPoll body2 = Some t2 ->
  Forall (fun s => ~ Signal.timestamp s <= t1)
         (delivered (snd (POST now2 body2
                            (run between (fst (POST now1 body1 rooms)))))).
Proof.
  intros _ _ _ _ Hlt _ _ _ Hcursor. apply Forall_forall. intros s Hs.
  apply POST_delivered in Hs as [_ Hs].
  rewrite Hcursor, orZero_Some in Hs. lia.
Qed.

Lemma poll_monotonic_witness :
  Forall (fun s => ~ Signal.timestamp s <= 500)
         (delivered (snd (POST 3000 (pollByC (Some 2000))
                            (run [Request 2500 offerToB]
                                 (fst (POST 2000 (pollByC (Some 500)) afterOffer)))))).
Proof.
  apply (poll_monotonic afterOffer 2000 (pollByC (Some 500)) 500 2000
           [Request 2500 offerToB] 3000 (pollByC (Some 2000))).
  - repeat split; discriminate.
  - reflexivity.
  - reflexivity.
  - reflexivity.
  - lia.
  - reflexivity.
  - reflexivity.
  - reflexivity.
  - reflexivity.
Defined.

(** The response to a served poll reports the server's time. *)
Lemma POST_poll_timestamp now body rooms :
  wellFormed body -> Body.action body = "poll" ->
  timestamp (snd (POST now body rooms)) = Some now.
Proof.
  intros Hwf Hact. rewrite (POST_served _ _ _ Hwf). simpl.
  now rewrite (dispatch_poll _ _ _ Hact).
Qed.

(** *** Mailboxes created by an offer *)

(** No action changes the [lastSeen] of a mailbox that exists. *)
Lemma dispatch_lastSeen now body room p q :
  JsMap.get p (RoomInfo.peers room) = Some q ->
  exists q', JsMap.get p (RoomInfo.peers (fst (dispatch now body room))) = Some q' /\
             PeerInfo.lastSeen q' = PeerInfo.lastSeen q.
Proof.
  intros Hq. unfold dispatch.
  destruct (String.eqb _ "join").
  { unfold caseJoin. simpl. destruct (Body.isHost body); simpl; eauto. }
  destruct (String.eqb _ "offer").
  { unfold caseOffer. destruct (_ || _); [simpl; eauto|].
    destruct (string_dec (Body.target body) p) as [-> | Hne].
    - assert (Hhas : JsMap.has p (RoomInfo.peers room) = true)
        by (apply has_true; eauto).
      rewrite Hhas, Hq. simpl. rewrite get_set_same. eauto.
    - set (peers1 := if JsMap.has _ _ then _ else _).
      assert (H1 : JsMap.get p peers1 = Some q).
      { subst peers1. destruct (JsMap.has _ _); auto.
        now rewrite get_set_other. }
      destruct (JsMap.get (Body.target body) peers1); simpl; eauto.
      rewrite get_set_other by assumption. eauto. }
  destruct (String.eqb _ "answer").
  { unfold caseAnswer. destruct (_ || _); [simpl; eauto|].
    destruct (negb _); [simpl; eauto|].
    destruct (string_dec (Body.target body) p) as [Heq | Hne].
    - rewrite Heq, Hq. simpl. rewrite get_set_same. eauto.
    - destruct (JsMap.get (Body.target body) (RoomInfo.peers room)); simpl; eauto.
      rewrite get_set_other by assumption. eauto. }
  destruct (String.eqb _ "poll"); [|simpl; eauto].
  unfold casePoll. simpl. rewrite get_update_all, Hq. simpl. eauto.
Qed.

(** A request made by someone else, or in another room, leaves the
    [lastSeen] of a mailbox alone. *)
Lemma POST_lastSeen now body rooms roomId p q :
  ~ (Body.roomId body = roomId /\ Body.peerId body = p) ->
  mailbox roomId p rooms = Some q ->
  exists q', mailbox roomId p (fst (POST now body rooms)) = Some q' /\
             PeerInfo.lastSeen q' = PeerInfo.lastSeen q.
Proof.
  intros Hother Hq. destruct (wellFormed_dec body) as [Hwf | Hwf].
  - rewrite (POST_served _ _ _ Hwf). simpl.
    destruct (string_dec (Body.roomId body) roomId) as [<- | Hne].
    + rewrite mailbox_set. apply dispatch_lastSeen.
      rewrite entered_get_other by tauto. now rewrite mailbox_roomOf.
    + rewrite mailbox_set_other by assumption. eauto.
  - rewrite (POST_rejected _ _ _ Hwf). simpl. eauto.
Qed.

Lemma run_lastSeen roomId p es :
  Forall (notBy roomId p) es ->
  forall rooms q,
    mailbox roomId p rooms = Some q ->
    exists q', mailbox roomId p (run es rooms) = Some q' /\
               PeerInfo.lastSeen q' = PeerInfo.lastSeen q.
Proof.
  unfold run. induction 1 as [|e es He Hes IH]; simpl; eauto.
  intros rooms q Hq. destruct e as [now body | now]; simpl in *; [|tauto].
  destruct (POST_lastSeen now body rooms roomId p q He Hq) as [q1 [Hq1 Hl1]].
  destruct (IH _ _ Hq1) as [q2 [Hq2 Hl2]]. exists q2. split; congruence.
Qed.

(** Who a poll response announces as a new peer. *)
Lemma casePoll_announced now body room id :
  In id (announced (snd (casePoll now body room))) <->
  id <> Body.peerId body /\
  exists p, JsMap.get id (RoomInfo.peers room) = Some p /\
            orZero (Body.lastPoll body) < PeerInfo.lastSeen p.
Proof.
  unfold casePoll. simpl. rewrite map_map. simpl. rewrite map_id.
  rewrite filter_In, keys_update_all, In_keys_get. unfold isNewPeer.
  rewrite get_update_all, andb_true_iff, negb_true_iff, String.eqb_neq.
  destruct (JsMap.get id (RoomInfo.peers room)) as [p|]; simpl.
  - rewrite Z.ltb_lt. split.
    + intros [_ [Hne Hlt]]. eauto.
    + intros [Hne [p' [[= <-] Hlt]]]. eauto.
  - split.
    + intros [[v Hv] _]. discriminate.
    + intros [_ [p [Hp _]]]. discriminate.
Qed.

(** C10: an offer deposited at time [now] for a target without a
    mailbox creates the mailbox with [lastSeen = now - 60000];
    afterwards, until the target itself contacts the store or the sweep
    runs, a poll of that room announces the target as a new peer exactly
    when the poller is another peer whose cursor is older than
    [now - 60000]. *)
Theorem offer_creates_backdated_mailbox now body rooms others now2 poll :
  wellFormed body ->
  Body.action body = "offer" ->
  Body.target body <> "" ->
  truthy (Body.offer body) = true ->
  Body.target body <> Body.peerId body ->
  mailbox (Body.roomId body) (Body.target body) rooms = None ->
  Forall (notBy (Body.roomId body) (Body.target body)) others ->
  wellFormed poll ->
  Body.action poll = "poll" ->
  Body.roomId poll = Body.roomId body ->
  (exists p, mailbox (Body.roomId body) (Body.target body)
                     (fst (POST now body rooms)) = Some p /\
             PeerInfo.lastSeen p = now - 60000) /\
  (In (Body.target body)
      (announced (snd (POST now2 poll (run others (fst (POST now body rooms))))))
   <-> Body.peerId poll <> Body.target body /\
       orZero (Body.lastPoll poll) < now - 60000).
Proof.
  intros Hwf Hact Ht Ho Hne Hnone Hothers Hwfp Hactp Hroom.
  assert (Hbox : mailbox (Body.roomId body) (Body.target body)
                   (fst (POST now body rooms)) =
                 Some (PeerInfo.mk (Body.target body) (now - 60000)
                         [Signal.mk (Body.peerId body) (Body.offer body) now] [])).
  { rewrite (POST_served _ _ _ Hwf). simpl.
    rewrite mailbox_set, (dispatch_offer _ _ _ Hact).
    apply caseOffer_unknown_target; auto.
    rewrite entered_get_other by congruence. now rewrite mailbox_roomOf. }
  split; [eexists; split; [exact Hbox | reflexivity]|].
  destruct (run_lastSeen _ _ _ Hothers _ _ Hbox) as [q [Hq Hlast]].
  simpl in Hlast.
  rewrite (POST_served _ _ _ Hwfp). simpl.
  rewrite (dispatch_poll _ _ _ Hactp), casePoll_announced, Hroom.
  split.
  - intros [Hneq [p [Hp Hlt]]]. split; [congruence|].
    rewrite entered_get_other, mailbox_roomOf, Hq in Hp by congruence.
    injection Hp as <-. lia.
  - intros [Hneq Hlt]. split; [congruence|]. exists q.
    rewrite entered_get_other, mailbox_roomOf by congruence. split; [exact Hq | lia].
Qed.

Lemma offer_creates_backdated_mailbox_witness :
  (exists p, mailbox "R1" "B" (fst (POST 100000 offerToB [])) = Some p /\
             PeerInfo.lastSeen p = 100000 - 60000) /\
  (In "B" (announced (snd (POST 100200 (pollByC (Some 30000))
                             (run [Request 100100 offerToB]
                                  (fst (POST 100000 offerToB []))))))
   <-> "C" <> "B" /\ orZero (Some 30000) < 100000 - 60000).
Proof.
  apply (offer_creates_backdated_mailbox 100000 offerToB []
           [Request 100100 offerToB] 100200 (pollByC (Some 30000))).
  - repeat split; discriminate.
  - reflexivity.
  - discriminate.
  - reflexivity.
  - discriminate.
  - reflexivity.
  - repeat constructor. simpl. intros [_ H]. discriminate.
  - repeat split; discriminate.
  - reflexivity.
  - reflexivity.
Defined.

End RouteFacts.

(** ** The polling client *)

Module SignalingFacts.
Import Route Signaling RouteFacts Scenario.
Local Open Scope string_scope.
Local Open Scope list_scope.
Local Open Scope Z_scope.

(** The endpoint's answer to a client's join request.  The host it
    reports is the requester, if it announces itself as host, and
    otherwise whoever the room had as host before. *)
Lemma served_join serverNow s rooms :
  roomId s <> "" -> peerId s <> "" ->
  exists peers flag,
    snd (served serverNow (joinRequest s) rooms) =
      Http true
        (JoinResponse peers flag
           (if isHost s then Some (peerId s)
            else match JsMap.get (roomId s) rooms with
                 | Some room => RoomInfo.hostPeerId room
                 | None => None
                 end)).
Proof.
  intros Hr Hp. unfold served.
  assert (Hwf : wellFormed (joinRequest s)) by (repeat split; auto; discriminate).
  rewrite (POST_served _ _ _ Hwf).
  rewrite dispatch_join by reflexivity. unfold caseJoin, roomOf. simpl.
  destruct (isHost s); simpl; [eauto|].
  destruct (JsMap.get (roomId s) rooms); simpl; eauto.
Qed.

(** The endpoint's answer to a client's poll request. *)
Lemma served_poll serverNow s rooms :
  roomId s <> "" -> peerId s <> "" ->
  exists offers answers newPeers,
    snd (served serverNow (pollRequest s) rooms) =
      Http true (PollResponse offers answers newPeers serverNow).
Proof.
  intros Hr Hp. unfold served.
  assert (Hwf : wellFormed (pollRequest s)) by (repeat split; auto; discriminate).
  rewrite (POST_served _ _ _ Hwf).
  rewrite dispatch_poll by reflexivity. unfold casePoll. simpl. eauto.
Qed.

(** C9, counterexample: P joins room R1 of an empty store; the server's
    clock reads 1000 and the browser's reads 5.  The success response
    has the keys [success], [peers] and [isHost] and no timestamp, and
    the client's cursor becomes 5. *)
Lemma join_response_without_timestamp :
  snd (served 1000 (joinRequest clientP) []) =
    Http true (JoinResponse [] false None) /\
  success (JoinResponse [] false None) = true /\
  fields (JoinResponse [] false None) = ["success"; "peers"; "isHost"] /\
  timestamp (JoinResponse [] false None) = None /\
  ~ In "timestamp" (fields (JoinResponse [] false None)) /\
  lastPollTimestamp
    (fst (fst (join 5 (snd (served 1000 (joinRequest clientP) [])) clientP)))
    = Some 5.
Proof.
  repeat split. simpl. intros H.
  repeat (destruct H as [H | H]; [discriminate|]). exact H.
Qed.

(** C9, as amended: the success response to a join carries the success
    flag, the peer list and the requester's host flag, and the room's
    host identifier exactly when the room has a host once the request
    is served (the requester, if it announces itself as host, otherwise
    the host the room had before); it carries no timestamp.  On
    receiving it the client sets its cursor to its own clock and returns
    the peer list.  Server time reaches the client only through poll
    responses: after a successful poll the cursor is the time the server
    reported. *)
Theorem join_cursor_is_client_clock serverNow clientNow s rooms :
  roomId s <> "" ->
  peerId s <> "" ->
  (exists peers flag host,
     snd (served serverNow (joinRequest s) rooms) =
       Http true (JoinResponse peers flag host) /\
     host = (if isHost s then Some (peerId s)
             else match JsMap.get (roomId s) rooms with
                  | Some room => RoomInfo.hostPeerId room
                  | None => None
                  end) /\
     fields (JoinResponse peers flag host) =
       ["success"; "peers"; "isHost"]
       ++ match host with Some _ => ["hostPeerId"] | None => [] end /\
     ~ In "timestamp" (fields (JoinResponse peers flag host)) /\
     timestamp (JoinResponse peers flag host) = None /\
     join clientNow (snd (served serverNow (joinRequest s) rooms)) s =
       (mk (roomId s) (peerId s) (isHost s) (Some clientNow) true true,
        peers, false)) /\
  (active s = true ->
   lastPollTimestamp
     (fst (poll (snd (served serverNow (pollRequest s) rooms)) s))
     = Some serverNow).
Proof.
  intros Hr Hp. split.
  - destruct (served_join serverNow s rooms Hr Hp) as (peers & h & E).
    eexists peers, h, _. rewrite E.
    split; [reflexivity|]. split; [reflexivity|]. split; [reflexivity|].
    split; [|split; reflexivity].
    simpl. intros H.
    repeat (destruct H as [H | H]; [discriminate|]).
    destruct (if isHost s then _ else _); simpl in H;
      repeat (destruct H as [H | H]; [discriminate|]); exact H.
  - intros Hact.
    destruct (served_poll serverNow s rooms Hr Hp) as (o & a & n & E).
    rewrite E. unfold poll. rewrite Hact. reflexivity.
Qed.

Lemma join_cursor_is_client_clock_witness :
  (exists peers flag host,
     snd (served 1000 (joinRequest clientP) afterOffer) =
       Http true (JoinResponse peers flag host) /\
     host = None /\
     fields (JoinResponse peers flag host) =
       ["success"; "peers"; "isHost"]
       ++ match host with Some _ => ["hostPeerId"] | None => [] end /\
     ~ In "timestamp" (fields (JoinResponse peers flag host)) /\
     timestamp (JoinResponse peers flag host) = None /\
     join 5 (snd (served 1000 (joinRequest clientP) afterOffer)) clientP =
       (mk "R1" "P" false (Some 5) true true, peers, false)) /\
  (active (fst (fst (join 5 NetworkError clientP))) = true ->
   lastPollTimestamp
     (fst (poll (snd (served 1000
                        (pollRequest (fst (fst (join 5 NetworkError clientP))))
                        afterOffer))
                (fst (fst (join 5 NetworkError clientP)))))
     = Some 1000).
Proof.
  split.
  - apply (join_cursor_is_client_clock 1000 5 clientP afterOffer); discriminate.
  - apply (join_cursor_is_client_clock 1000 5
             (fst (fst (join 5 NetworkError clientP))) afterOffer); discriminate.
Defined.

End SignalingFacts.

(** ** The peer table and the negotiation state machine *)

Module RtcFacts.
Import Rtc Rtc.PeerConnection JsMapFacts.
Local Open Scope string_scope.
Local Open Scope list_scope.

(** *** Records and services are determined by their fields *)

Lemma set_processingSignal_id pc b :
  processingSignal pc = b -> set_processingSignal b pc = pc.
Proof. destruct pc; simpl; intros <-; reflexivity. Qed.

Lemma set_connections_id s : set_connections (connections s) s = s.
Proof. now destruct s. Qed.

Lemma unlock_lock pc :
  set_processingSignal false (set_processingSignal true pc) =
    set_processingSignal false pc.
Proof. reflexivity. Qed.

(** A record that is written and written back leaves the service as it
    was. *)
Lemma restore_record s p pc pc1 :
  JsMap.get p (connections s) = Some pc ->
  set_connections
    (JsMap.set p pc (JsMap.set p pc1 (connections s)))
    (set_connections (JsMap.set p pc1 (connections s)) s) = s.
Proof.
  intros H. rewrite set_set, (set_get_id _ _ _ H). now destruct s.
Qed.

Local Arguments includes : simpl never.

Ltac step_get H :=
  repeat (rewrite ?H, ?get_set_same; simpl).

Lemma includes_CONNECTED l st :
  includes l st = false -> In CONNECTED l -> state_eqb st CONNECTED = false.
Proof.
  intros Hinc Hin. destruct (state_eqb st CONNECTED) eqn:E; auto.
  assert (st = CONNECTED) by (destruct st; simpl in E; congruence). subst.
  unfold includes in Hinc. rewrite <- Hinc. symmetry.
  apply existsb_exists. exists CONNECTED. auto.
Qed.

Lemma handleOffer_rejected tr s from offer pc :
  JsMap.get from (connections s) = Some pc ->
  processingSignal pc = false ->
  includes offerRejectedStates (state pc) = true ->
  exec (handleOffer tr from offer) s =
    (s, if state_eqb (state pc) CONNECTED then []
        else [LockWrite from true; LockWrite from false]).
Proof.
  intros Hget Hfree Hinv.
  unfold exec, handleOffer, tryCatch, bind, lookup, gets at 1. simpl.
  rewrite Hget. simpl.
  destruct (state_eqb (state pc) CONNECTED) eqn:Hc; simpl; [reflexivity|].
  rewrite Hfree. simpl. unfold tryFinally, writeLock, mutate, modify, bind, emit.
  simpl. step_get Hget. rewrite Hinv. simpl. step_get Hget.
  rewrite unlock_lock, (set_processingSignal_id _ _ Hfree).
  now rewrite (restore_record _ _ _ _ Hget).
Qed.

Ltac unfold_ops :=
  unfold exec, sendAnswer, sendOffer, setRemoteDescription,
    setLocalDescription, callCreateAnswer, callCreateOffer, handleError,
    writeLock, writeState, lookup, mutate, tryCatch, tryFinally, bind,
    gets, modify, emit, ret, throw, deliveryReport, errorReport.

Lemma handleOffer_accepted tr s from offer pc answer :
  JsMap.get from (connections s) = Some pc ->
  processingSignal pc = false ->
  includes offerRejectedStates (state pc) = false ->
  setsRemote tr = true ->
  createAnswer tr = Some answer ->
  setsLocal tr = true ->
  exec (handleOffer tr from offer) s =
    (set_connections
       (JsMap.set from (set_state ANSWER_SENT pc) (connections s)) s,
     [LockWrite from true;
      StateWrite from OFFER_RECEIVED;
      SetRemoteDescription (connection pc) offer;
      CreateAnswer (connection pc);
      SetLocalDescription (connection pc) answer;
      StateWrite from ANSWER_SENT;
      SendAnswer from answer]
     ++ deliveryReport tr s ++ [LockWrite from false]).
Proof.
  intros Hget Hfree Hinv Hremote Hanswer Hlocal.
  pose proof (includes_CONNECTED _ _ Hinv (or_intror (or_intror (or_introl eq_refl))))
    as Hc.
  destruct pc as [pid h c dc ini con st lock]. simpl in *. subst lock.
  unfold handleOffer.
  destruct (delivers tr) eqn:Hd, (onErrorCallback s) eqn:Hcb;
    unfold_ops; simpl;
    repeat (rewrite ?Hget, ?get_set_same, ?Hc, ?Hinv, ?Hremote, ?Hanswer,
              ?Hlocal, ?Hd, ?Hcb; simpl);
    rewrite !set_set; reflexivity.
Qed.

(** An offer for a record whose lock is held only schedules a retry. *)
Lemma handleOffer_busy tr s from offer pc :
  JsMap.get from (connections s) = Some pc ->
  processingSignal pc = true ->
  exec (handleOffer tr from offer) s =
    (s, if state_eqb (state pc) CONNECTED then []
        else [SetTimeout (RetryHandleOffer from offer) 500%Z]).
Proof.
  intros Hget Hbusy. unfold handleOffer. unfold_ops. simpl.
  rewrite Hget. simpl.
  destruct (state_eqb (state pc) CONNECTED); simpl; [reflexivity|].
  rewrite Hbusy. reflexivity.
Qed.

(** In a state that accepts offers the record is first moved to
    [OFFER_RECEIVED] and the remote description applied, however the
    transport answers. *)
Lemma handleOffer_applies tr s from offer pc :
  JsMap.get from (connections s) = Some pc ->
  processingSignal pc = false ->
  includes offerRejectedStates (state pc) = false ->
  exists rest,
    snd (exec (handleOffer tr from offer) s) =
      LockWrite from true :: StateWrite from OFFER_RECEIVED
        :: SetRemoteDescription (connection pc) offer :: rest.
Proof.
  intros Hget Hfree Hinv.
  pose proof (includes_CONNECTED _ _ Hinv (or_intror (or_intror (or_introl eq_refl))))
    as Hc.
  unfold handleOffer.
  destruct (setsRemote tr) eqn:Hremote, (createAnswer tr) eqn:Hanswer,
    (setsLocal tr) eqn:Hlocal, (delivers tr) eqn:Hd, (onErrorCallback s) eqn:Hcb;
    unfold_ops; simpl;
    repeat (rewrite ?Hget, ?get_set_same, ?Hc, ?Hfree, ?Hinv, ?Hremote,
              ?Hanswer, ?Hlocal, ?Hd, ?Hcb; simpl);
    eexists; reflexivity.
Qed.

(** Where an accepted offer leaves the record: in [ANSWER_SENT] when the
    transport went along, in [OFFER_RECEIVED] when one of its calls was
    rejected; unlocked in both cases. *)
Lemma handleOffer_outcome tr s from offer pc :
  JsMap.get from (connections s) = Some pc ->
  processingSignal pc = false ->
  includes offerRejectedStates (state pc) = false ->
  exists pc',
    JsMap.get from (connections (fst (exec (handleOffer tr from offer) s))) = Some pc' /\
    processingSignal pc' = false /\
    state pc' = (if answersOffer tr then ANSWER_SENT else OFFER_RECEIVED).
Proof.
  intros Hget Hfree Hinv.
  pose proof (includes_CONNECTED _ _ Hinv (or_intror (or_intror (or_introl eq_refl))))
    as Hc.
  unfold handleOffer, answersOffer.
  destruct (setsRemote tr) eqn:Hremote, (createAnswer tr) eqn:Hanswer,
    (setsLocal tr) eqn:Hlocal, (delivers tr) eqn:Hd, (onErrorCallback s) eqn:Hcb;
    unfold_ops; simpl;
    repeat (rewrite ?Hget, ?get_set_same, ?Hc, ?Hfree, ?Hinv, ?Hremote,
              ?Hanswer, ?Hlocal, ?Hd, ?Hcb; simpl);
    eexists; repeat split; reflexivity.
Qed.

(** *** [handleAnswer] *)

Lemma handleAnswer_rejected tr s from answer pc :
  JsMap.get from (connections s) = Some pc ->
  processingSignal pc = false ->
  includes answerRejectedStates (state pc) = true ->
  exec (handleAnswer tr from answer) s =
    (s, if state_eqb (state pc) CONNECTED then []
        else [LockWrite from true; LockWrite from false]).
Proof.
  intros Hget Hfree Hinv. unfold handleAnswer. unfold_ops. simpl.
  rewrite Hget. simpl.
  destruct (state_eqb (state pc) CONNECTED) eqn:Hc; simpl; [reflexivity|].
  rewrite Hfree. simpl. step_get Hget. rewrite Hinv. simpl. step_get Hget.
  rewrite unlock_lock, (set_processingSignal_id _ _ Hfree).
  now rewrite (restore_record _ _ _ _ Hget).
Qed.

Lemma handleAnswer_busy tr s from answer pc :
  JsMap.get from (connections s) = Some pc ->
  processingSignal pc = true ->
  exec (handleAnswer tr from answer) s =
    (s, if state_eqb (state pc) CONNECTED then []
        else [SetTimeout (RetryHandleAnswer from answer) 500%Z]).
Proof.
  intros Hget Hbusy. unfold handleAnswer. unfold_ops. simpl.
  rewrite Hget. simpl.
  destruct (state_eqb (state pc) CONNECTED); simpl; [reflexivity|].
  rewrite Hbusy. reflexivity.
Qed.

Lemma handleAnswer_accepted tr s from answer pc :
  JsMap.get from (connections s) = Some pc ->
  processingSignal pc = false ->
  includes answerRejectedStates (state pc) = false ->
  setsRemote tr = true ->
  exec (handleAnswer tr from answer) s =
    (set_connections
       (JsMap.set from (set_state ANSWER_RECEIVED pc) (connections s)) s,
     [LockWrite from true;
      SetRemoteDescription (connection pc) answer;
      StateWrite from ANSWER_RECEIVED;
      LockWrite from false]).
Proof.
  intros Hget Hfree Hinv Hremote.
  pose proof (includes_CONNECTED _ _ Hinv (or_intror (or_introl eq_refl))) as Hc.
  destruct pc as [pid h c dc ini con st lock]. simpl in *. subst lock.
  unfold handleAnswer. unfold_ops. simpl.
  repeat (rewrite ?Hget, ?get_set_same, ?Hc, ?Hinv, ?Hremote; simpl).
  rewrite !set_set. reflexivity.
Qed.

(** *** [createAndSendOffer] *)

Lemma createAndSendOffer_rejected tr s p pc :
  JsMap.get p (connections s) = Some pc ->
  processingSignal pc = false ->
  includes offerInvalidStates (state pc) = true ->
  exec (createAndSendOffer tr p) s =
    (s, if state_eqb (state pc) CONNECTED then []
        else [LockWrite p true; LockWrite p false]).
Proof.
  intros Hget Hfree Hinv. unfold createAndSendOffer. unfold_ops. simpl.
  rewrite Hget. simpl.
  destruct (state_eqb (state pc) CONNECTED) eqn:Hc; simpl; [reflexivity|].
  rewrite Hfree. simpl. step_get Hget. rewrite Hinv. simpl. step_get Hget.
  rewrite unlock_lock, (set_processingSignal_id _ _ Hfree).
  now rewrite (restore_record _ _ _ _ Hget).
Qed.

Lemma createAndSendOffer_busy tr s p pc :
  JsMap.get p (connections s) = Some pc ->
  processingSignal pc = true ->
  exec (createAndSendOffer tr p) s =
    (s, if state_eqb (state pc) CONNECTED then []
        else [SetTimeout (RetryOffer p) 500%Z]).
Proof.
  intros Hget Hbusy. unfold createAndSendOffer. unfold_ops. simpl.
  rewrite Hget. simpl.
  destruct (state_eqb (state pc) CONNECTED); simpl; [reflexivity|].
  rewrite Hbusy. reflexivity.
Qed.

Lemma createAndSendOffer_accepted tr s p pc offer :
  JsMap.get p (connections s) = Some pc ->
  processingSignal pc = false ->
  includes offerInvalidStates (state pc) = false ->
  createOffer tr = Some offer ->
  setsLocal tr = true ->
  exec (createAndSendOffer tr p) s =
    (set_connections
       (JsMap.set p (set_state OFFER_SENT pc) (connections s)) s,
     [LockWrite p true;
      StateWrite p CONNECTING;
      CreateOffer (connection pc);
      SetLocalDescription (connection pc) offer;
      StateWrite p OFFER_SENT;
      SendOffer p offer]
     ++ deliveryReport tr s ++ [LockWrite p false]).
Proof.
  intros Hget Hfree Hinv Hoffer Hlocal.
  assert (Hc : state_eqb (state pc) CONNECTED = false).
  { apply (includes_CONNECTED _ _ Hinv). simpl. tauto. }
  destruct pc as [pid h c dc ini con st lock]. simpl in *. subst lock.
  unfold createAndSendOffer.
  destruct (delivers tr) eqn:Hd, (onErrorCallback s) eqn:Hcb;
    unfold_ops; simpl;
    repeat (rewrite ?Hget, ?get_set_same, ?Hc, ?Hinv, ?Hoffer, ?Hlocal,
              ?Hd, ?Hcb; simpl);
    rewrite !set_set; reflexivity.
Qed.

(** Whenever the lock is taken it is given back: the trace starts by
    setting the flag and ends by clearing it, and the record is left
    with the flag cleared, however the transport answers. *)
Lemma createAndSendOffer_releases tr s p pc :
  JsMap.get p (connections s) = Some pc ->
  processingSignal pc = false ->
  state_eqb (state pc) CONNECTED = false ->
  exists pc',
    JsMap.get p (connections (fst (exec (createAndSendOffer tr p) s))) = Some pc' /\
    processingSignal pc' = false /\
    hd_error (snd (exec (createAndSendOffer tr p) s)) = Some (LockWrite p true) /\
    last (snd (exec (createAndSendOffer tr p) s)) TableClear = LockWrite p false.
Proof.
  intros Hget Hfree Hc. unfold createAndSendOffer.
  destruct (includes offerInvalidStates (state pc)) eqn:Hinv,
    (createOffer tr) eqn:Hoffer, (setsLocal tr) eqn:Hlocal,
    (delivers tr) eqn:Hd, (onErrorCallback s) eqn:Hcb;
    unfold_ops; simpl;
    repeat (rewrite ?Hget, ?get_set_same, ?Hc, ?Hfree, ?Hinv, ?Hoffer,
              ?Hlocal, ?Hd, ?Hcb; simpl);
    eexists; repeat split; reflexivity.
Qed.

(** *** The claims about single operations *)

Lemma state_eqb_eq a b : state_eqb a b = true <-> a = b.
Proof. destruct a, b; simpl; split; congruence. Qed.

Lemma includes_In l st : includes l st = true <-> In st l.
Proof.
  unfold includes. rewrite existsb_exists. split.
  - intros [x [Hx E]]. apply state_eqb_eq in E. now subst.
  - intros H. exists st. split; auto. now apply state_eqb_eq.
Qed.

Lemma includes_not_In l st : includes l st = false <-> ~ In st l.
Proof.
  rewrite <- includes_In. destruct (includes l st); split; congruence.
Qed.

Lemma quiet_if (b : bool) (t : list Effect) :
  Forall (fun e => negotiates e = false) t ->
  Forall (fun e => negotiates e = false) (if b then [] else t).
Proof. destruct b; auto. Qed.

(** C7: [handleOffer] on an existing record whose lock is free.  In
    state OFFER_SENT, ANSWER_RECEIVED or CONNECTED the service is left
    exactly as it was and the trace holds at most the taking and giving
    back of the lock.  In every other state, the transport accepting
    the offer and producing and accepting an answer, the operation
    applies the remote description, creates the answer and applies it
    locally, leaves the record in ANSWER_SENT (lock free again) and
    hands the answer to the signaling client.  The last part says where
    the record is left whatever the transport answers: ANSWER_SENT when
    its calls resolve, OFFER_RECEIVED when one of them is rejected. *)
Theorem handleOffer_on_free_record tr s from offer pc answer :
  JsMap.get from (connections s) = Some pc ->
  processingSignal pc = false ->
  (In (state pc) [OFFER_SENT; ANSWER_RECEIVED; CONNECTED] ->
   exec (handleOffer tr from offer) s =
     (s, if state_eqb (state pc) CONNECTED then []
         else [LockWrite from true; LockWrite from false])) /\
  (~ In (state pc) [OFFER_SENT; ANSWER_RECEIVED; CONNECTED] ->
   setsRemote tr = true ->
   createAnswer tr = Some answer ->
   setsLocal tr = true ->
   exec (handleOffer tr from offer) s =
     (set_connections
        (JsMap.set from (set_state ANSWER_SENT pc) (connections s)) s,
      [LockWrite from true;
       StateWrite from OFFER_RECEIVED;
       SetRemoteDescription (connection pc) offer;
       CreateAnswer (connection pc);
       SetLocalDescription (connection pc) answer;
       StateWrite from ANSWER_SENT;
       SendAnswer from answer]
      ++ deliveryReport tr s ++ [LockWrite from false])) /\
  (~ In (state pc) [OFFER_SENT; ANSWER_RECEIVED; CONNECTED] ->
   exists pc',
     JsMap.get from (connections (fst (exec (handleOffer tr from offer) s))) = Some pc' /\
     processingSignal pc' = false /\
     state pc' = (if answersOffer tr then ANSWER_SENT else OFFER_RECEIVED)).
Proof.
  intros Hget Hfree. split; [|split].
  - intros Hin. apply handleOffer_rejected; auto. now apply includes_In.
  - intros Hnot. apply handleOffer_accepted; auto. now apply includes_not_In.
  - intros Hnot. apply includes_not_In in Hnot.
    destruct (handleOffer_outcome tr s from offer pc Hget Hfree Hnot)
      as (pc' & H1 & H2 & H3).
    eauto.
Qed.

Lemma handleOffer_on_free_record_witness :
  exec (handleOffer Scenario.ok "H" Scenario.sdpOffer)
       (Scenario.guestWith OFFER_SENT false) =
    (Scenario.guestWith OFFER_SENT false,
     [LockWrite "H" true; LockWrite "H" false]) /\
  exec (handleOffer Scenario.ok "H" Scenario.sdpOffer)
       (Scenario.guestWith NEW false) =
    (Scenario.guestWith ANSWER_SENT false,
     [LockWrite "H" true;
      StateWrite "H" OFFER_RECEIVED;
      SetRemoteDescription 0 Scenario.sdpOffer;
      CreateAnswer 0;
      SetLocalDescription 0 Scenario.sdpAnswer;
      StateWrite "H" ANSWER_SENT;
      SendAnswer "H" Scenario.sdpAnswer;
      LockWrite "H" false]).
Proof.
  split.
  - refine (proj1 (handleOffer_on_free_record Scenario.ok
                     (Scenario.guestWith OFFER_SENT false) "H" Scenario.sdpOffer
                     (Scenario.recordOfH OFFER_SENT false) Scenario.sdpAnswer
                     eq_refl eq_refl) _).
    simpl. tauto.
  - refine (proj1 (proj2 (handleOffer_on_free_record Scenario.ok
                     (Scenario.guestWith NEW false) "H" Scenario.sdpOffer
                     (Scenario.recordOfH NEW false) Scenario.sdpAnswer
                     eq_refl eq_refl)) _ eq_refl eq_refl eq_refl).
    simpl. intros [H | [H | [H | []]]]; discriminate.
Defined.

(** The offer cannot be made or applied: the record stays in CONNECTING,
    nothing is handed to the signaling client, and the lock is given
    back. *)
Lemma createAndSendOffer_fails tr s p pc :
  JsMap.get p (connections s) = Some pc ->
  processingSignal pc = false ->
  includes offerInvalidStates (state pc) = false ->
  createOffer tr = None \/ setsLocal tr = false ->
  fst (exec (createAndSendOffer tr p) s) =
    set_connections
      (JsMap.set p (set_state CONNECTING pc) (connections s)) s /\
  Forall (fun e => match e with
                   | SendOffer _ _ | StateWrite _ OFFER_SENT => False
                   | _ => True
                   end)
         (snd (exec (createAndSendOffer tr p) s)).
Proof.
  intros Hget Hfree Hinv Hfail.
  assert (Hc : state_eqb (state pc) CONNECTED = false).
  { apply (includes_CONNECTED _ _ Hinv). simpl. tauto. }
  destruct pc as [pid h c dc ini con st lock]. simpl in *. subst lock.
  unfold createAndSendOffer.
  destruct (createOffer tr) as [offer|] eqn:Hoffer,
    (setsLocal tr) eqn:Hlocal, (onErrorCallback s) eqn:Hcb;
    try (destruct Hfail; discriminate);
    unfold_ops; simpl;
    repeat (rewrite ?Hget, ?get_set_same, ?Hc, ?Hinv, ?Hoffer, ?Hlocal,
              ?Hcb; simpl);
    rewrite !set_set; split; try reflexivity; repeat constructor.
Qed.

(** C8: [createAndSendOffer] on an existing record, called as the spec
    requires and as [connectToPeer] calls it, with the lock free.  If
    the state is one of OFFER_SENT, OFFER_RECEIVED, ANSWER_SENT,
    ANSWER_RECEIVED, CONNECTED, the service is left as it was: no state
    is written, no offer is created or sent.  Otherwise the record goes
    to CONNECTING; when the transport creates the offer and accepts it
    as local description the record goes on to OFFER_SENT and the offer
    is handed to the signaling client, and when it does not the record
    stays in CONNECTING and nothing is sent.  Whenever the lock was
    taken (state not CONNECTED), the trace begins with taking it and
    ends with its release and the record is left unlocked, whatever the
    transport and the signaling request answer. *)
Theorem createAndSendOffer_contract tr s p pc offer :
  JsMap.get p (connections s) = Some pc ->
  processingSignal pc = false ->
  (In (state pc) offerInvalidStates ->
   fst (exec (createAndSendOffer tr p) s) = s /\
   Forall (fun e => negotiates e = false)
          (snd (exec (createAndSendOffer tr p) s))) /\
  (~ In (state pc) offerInvalidStates ->
   createOffer tr = Some offer ->
   setsLocal tr = true ->
   exec (createAndSendOffer tr p) s =
     (set_connections
        (JsMap.set p (set_state OFFER_SENT pc) (connections s)) s,
      [LockWrite p true;
       StateWrite p CONNECTING;
       CreateOffer (connection pc);
       SetLocalDescription (connection pc) offer;
       StateWrite p OFFER_SENT;
       SendOffer p offer]
      ++ deliveryReport tr s ++ [LockWrite p false])) /\
  (~ In (state pc) offerInvalidStates ->
   createOffer tr = None \/ setsLocal tr = false ->
   fst (exec (createAndSendOffer tr p) s) =
     set_connections
       (JsMap.set p (set_state CONNECTING pc) (connections s)) s /\
   Forall (fun e => match e with
                    | SendOffer _ _ | StateWrite _ OFFER_SENT => False
                    | _ => True
                    end)
          (snd (exec (createAndSendOffer tr p) s))) /\
  (state pc <> CONNECTED ->
   exists pc',
     JsMap.get p (connections (fst (exec (createAndSendOffer tr p) s))) = Some pc' /\
     processingSignal pc' = false /\
     hd_error (snd (exec (createAndSendOffer tr p) s)) = Some (LockWrite p true) /\
     last (snd (exec (createAndSendOffer tr p) s)) TableClear = LockWrite p false).
Proof.
  intros Hget Hfree. split; [|split; [|split]].
  - intros Hin. apply includes_In in Hin.
    rewrite (createAndSendOffer_rejected _ _ _ _ Hget Hfree Hin). simpl.
    split; auto. apply quiet_if. repeat constructor.
  - intros Hnot Hoffer Hlocal.
    apply createAndSendOffer_accepted; auto. now apply includes_not_In.
  - intros Hnot Hfail.
    apply createAndSendOffer_fails; auto. now apply includes_not_In.
  - intros Hc. apply (createAndSendOffer_releases tr s p pc); auto.
    destruct (state_eqb (state pc) CONNECTED) eqn:E; auto.
    apply state_eqb_eq in E. contradiction.
Qed.

Lemma createAndSendOffer_contract_witness :
  (fst (exec (createAndSendOffer Scenario.ok "A")
             (Scenario.hostWith ANSWER_SENT false))
     = Scenario.hostWith ANSWER_SENT false /\
   Forall (fun e => negotiates e = false)
          (snd (exec (createAndSendOffer Scenario.ok "A")
                     (Scenario.hostWith ANSWER_SENT false)))) /\
  exec (createAndSendOffer Scenario.ok "A") (Scenario.hostWith NEW false) =
    (Scenario.hostWith OFFER_SENT false,
     [LockWrite "A" true;
      StateWrite "A" CONNECTING;
      CreateOffer 0;
      SetLocalDescription 0 Scenario.sdpOffer;
      StateWrite "A" OFFER_SENT;
      SendOffer "A" Scenario.sdpOffer;
      LockWrite "A" false]) /\
  (fst (exec (createAndSendOffer Scenario.noOffer "A")
             (Scenario.hostWith NEW false))
     = Scenario.hostWith CONNECTING false /\
   Forall (fun e => match e with
                    | SendOffer _ _ | StateWrite _ OFFER_SENT => False
                    | _ => True
                    end)
          (snd (exec (createAndSendOffer Scenario.noOffer "A")
                     (Scenario.hostWith NEW false)))) /\
  (exists pc',
     JsMap.get "A" (connections
                      (fst (exec (createAndSendOffer Scenario.noOffer "A")
                                 (Scenario.hostWith NEW false)))) = Some pc' /\
     processingSignal pc' = false /\
     hd_error (snd (exec (createAndSendOffer Scenario.noOffer "A")
                         (Scenario.hostWith NEW false)))
       = Some (LockWrite "A" true) /\
     last (snd (exec (createAndSendOffer Scenario.noOffer "A")
                     (Scenario.hostWith NEW false))) TableClear
       = LockWrite "A" false).
Proof.
  split; [|split; [|split]].
  - refine (proj1 (createAndSendOffer_contract Scenario.ok
                     (Scenario.hostWith ANSWER_SENT false) "A"
                     (Scenario.recordOfA ANSWER_SENT false) Scenario.sdpOffer
                     eq_refl eq_refl) _).
    simpl. tauto.
  - refine (proj1 (proj2 (createAndSendOffer_contract Scenario.ok
                     (Scenario.hostWith NEW false) "A"
                     (Scenario.recordOfA NEW false) Scenario.sdpOffer
                     eq_refl eq_refl))
              _ eq_refl eq_refl).
    simpl. intros [H | [H | [H | [H | [H | []]]]]]; discriminate.
  - refine (proj1 (proj2 (proj2 (createAndSendOffer_contract Scenario.noOffer
                     (Scenario.hostWith NEW false) "A"
                     (Scenario.recordOfA NEW false) Scenario.sdpOffer
                     eq_refl eq_refl)))
              _ _).
    + simpl. intros [H | [H | [H | [H | [H | []]]]]]; discriminate.
    + left. reflexivity.
  - refine (proj2 (proj2 (proj2 (createAndSendOffer_contract Scenario.noOffer
                     (Scenario.hostWith NEW false) "A"
                     (Scenario.recordOfA NEW false) Scenario.sdpOffer
                     eq_refl eq_refl)))
              _).
    discriminate.
Defined.

(** C2, counterexample: a participant receives the host's offer and
    answers it, which leaves the record in ANSWER_SENT.  The same offer
    delivered again is processed again: the record goes back to
    OFFER_RECEIVED, the remote description is applied a second time and
    a second answer is sent. *)
Lemma repeated_offer_is_processed_again :
  fst (run [(Scenario.ok, OfferArrived "H" Scenario.sdpOffer)] Scenario.guest)
    = Scenario.guestWith ANSWER_SENT false /\
  snd (exec (handleOffer Scenario.ok "H" Scenario.sdpOffer)
            (Scenario.guestWith ANSWER_SENT false)) =
    [LockWrite "H" true;
     StateWrite "H" OFFER_RECEIVED;
     SetRemoteDescription 0 Scenario.sdpOffer;
     CreateAnswer 0;
     SetLocalDescription 0 Scenario.sdpAnswer;
     StateWrite "H" ANSWER_SENT;
     SendAnswer "H" Scenario.sdpAnswer;
     LockWrite "H" false].
Proof. split; reflexivity. Qed.

(** C2, as amended: an offer delivered to a record in state OFFER_SENT,
    ANSWER_RECEIVED or CONNECTED, and an answer delivered to a record in
    state ANSWER_RECEIVED or CONNECTED, leave the service as it was and
    take no negotiation step: no write of the state, no session
    description applied, nothing sent.  An offer delivered to a record
    in ANSWER_SENT whose lock is free is taken up again: the state is
    set back to OFFER_RECEIVED and the remote description applied once
    more. *)
Theorem redelivery_past_guard_is_noop tr s from d pc :
  JsMap.get from (connections s) = Some pc ->
  (In (state pc) [OFFER_SENT; ANSWER_RECEIVED; CONNECTED] ->
   fst (exec (handleOffer tr from d) s) = s /\
   Forall (fun e => negotiates e = false)
          (snd (exec (handleOffer tr from d) s))) /\
  (In (state pc) [ANSWER_RECEIVED; CONNECTED] ->
   fst (exec (handleAnswer tr from d) s) = s /\
   Forall (fun e => negotiates e = false)
          (snd (exec (handleAnswer tr from d) s))) /\
  (state pc = ANSWER_SENT ->
   processingSignal pc = false ->
   exists rest,
     snd (exec (handleOffer tr from d) s) =
       LockWrite from true :: StateWrite from OFFER_RECEIVED
         :: SetRemoteDescription (connection pc) d :: rest).
Proof.
  intros Hget. split; [|split].
  - intros Hin. apply includes_In in Hin.
    destruct (processingSignal pc) eqn:Hlock.
    + rewrite (handleOffer_busy _ _ _ _ _ Hget Hlock). simpl.
      split; auto. apply quiet_if. repeat constructor.
    + rewrite (handleOffer_rejected _ _ _ _ _ Hget Hlock Hin). simpl.
      split; auto. apply quiet_if. repeat constructor.
  - intros Hin. apply includes_In in Hin.
    destruct (processingSignal pc) eqn:Hlock.
    + rewrite (handleAnswer_busy _ _ _ _ _ Hget Hlock). simpl.
      split; auto. apply quiet_if. repeat constructor.
    + rewrite (handleAnswer_rejected _ _ _ _ _ Hget Hlock Hin). simpl.
      split; auto. apply quiet_if. repeat constructor.
  - intros Hst Hfree. apply handleOffer_applies; auto.
    rewrite Hst. reflexivity.
Qed.

Lemma redelivery_past_guard_is_noop_witness :
  (fst (exec (handleOffer Scenario.ok "A" Scenario.sdpOffer)
             (Scenario.hostWith OFFER_SENT false))
     = Scenario.hostWith OFFER_SENT false /\
   Forall (fun e => negotiates e = false)
          (snd (exec (handleOffer Scenario.ok "A" Scenario.sdpOffer)
                     (Scenario.hostWith OFFER_SENT false)))) /\
  (fst (exec (handleAnswer Scenario.ok "A" Scenario.sdpAnswer)
             (Scenario.hostWith ANSWER_RECEIVED false))
     = Scenario.hostWith ANSWER_RECEIVED false /\
   Forall (fun e => negotiates e = false)
          (snd (exec (handleAnswer Scenario.ok "A" Scenario.sdpAnswer)
                     (Scenario.hostWith ANSWER_RECEIVED false)))) /\
  (exists rest,
     snd (exec (handleOffer Scenario.ok "H" Scenario.sdpOffer)
               (Scenario.guestWith ANSWER_SENT false)) =
       LockWrite "H" true :: StateWrite "H" OFFER_RECEIVED
         :: SetRemoteDescription 0 Scenario.sdpOffer :: rest).
Proof.
  split; [|split].
  - refine (proj1 (redelivery_past_guard_is_noop Scenario.ok
                     (Scenario.hostWith OFFER_SENT false) "A" Scenario.sdpOffer
                     (Scenario.recordOfA OFFER_SENT false) eq_refl) _).
    simpl. tauto.
  - refine (proj1 (proj2 (redelivery_past_guard_is_noop Scenario.ok
                     (Scenario.hostWith ANSWER_RECEIVED false) "A" Scenario.sdpAnswer
                     (Scenario.recordOfA ANSWER_RECEIVED false) eq_refl)) _).
    simpl. tauto.
  - exact (proj2 (proj2 (redelivery_past_guard_is_noop Scenario.ok
                     (Scenario.guestWith ANSWER_SENT false) "H" Scenario.sdpOffer
                     (Scenario.recordOfH ANSWER_SENT false) eq_refl))
             eq_refl eq_refl).
Defined.

(** *** The connected notification *)

(** The handler of the connection-state change reports a connection
    only while the record's [connected] flag is false. *)
Lemma onconnectionstatechange_gated s p pc :
  JsMap.get p (connections s) = Some pc ->
  connected pc = true ->
  snd (exec (onconnectionstatechange p cs_connected) s) = [StateWrite p CONNECTED].
Proof.
  intros Hget Hcon. unfold onconnectionstatechange. unfold_ops. simpl.
  repeat (rewrite ?Hget, ?get_set_same, ?Hcon; simpl). reflexivity.
Qed.

(** The handler of the data channel's [open] event reports a connection
    whatever the flag says. *)
Lemma onopen_not_gated s p pc :
  JsMap.get p (connections s) = Some pc ->
  onConnectionCallback s = true ->
  In (OnConnection p) (snd (exec (onopen p) s)).
Proof.
  intros Hget Hcb. unfold onopen, notifyConnection, updatePeerCount.
  destruct (onPeerCountChangeCallback s) eqn:Hcount;
    unfold_ops; simpl;
    repeat (rewrite ?Hget, ?get_set_same, ?Hcb, ?Hcount; simpl); auto.
Qed.

(** C3, at the failing input: the host learns of A, creates the record
    and sends its offer.  The transport then reports the connection as
    connected, and after that the data channel opens.  The connection
    callback runs twice for the one record and the peer count is
    reported twice.  With the two notifications in the opposite order the
    callback runs once. *)
Theorem connected_callback_fires_twice :
  fst (run [(Scenario.ok, PeerJoined (Peer.mk "A" false))] Scenario.host)
    = Scenario.hostWith OFFER_SENT false /\
  snd (run [(Scenario.ok, ConnectionStateChanged "A" cs_connected);
            (Scenario.ok, ChannelOpened "A")]
           (Scenario.hostWith OFFER_SENT false)) =
    [StateWrite "A" CONNECTED; OnConnection "A"; OnPeerCountChange 1;
     StateWrite "A" CONNECTED; OnConnection "A"; OnPeerCountChange 1] /\
  List.length
    (filter (isOnConnection "A")
       (snd (run [(Scenario.ok, PeerJoined (Peer.mk "A" false));
                  (Scenario.ok, ConnectionStateChanged "A" cs_connected);
                  (Scenario.ok, ChannelOpened "A")]
                 Scenario.host))) = 2 /\
  List.length
    (filter (isOnConnection "A")
       (snd (run [(Scenario.ok, PeerJoined (Peer.mk "A" false));
                  (Scenario.ok, ChannelOpened "A");
                  (Scenario.ok, ConnectionStateChanged "A" cs_connected)]
                 Scenario.host))) = 1.
Proof. repeat split. Qed.

(** *** The table invariant *)

Section Preservation.
Context {A B : Type}.

Lemma preserves_ret (a : A) : preserves (ret a).
Proof. intros s H. exact H. Qed.

Lemma preserves_throw : preserves (@throw A).
Proof. intros s H. exact H. Qed.

Lemma preserves_gets (f : RTCService -> A) : preserves (gets f).
Proof. intros s H. exact H. Qed.

Lemma preserves_bind (m : M A) (k : A -> M B) :
  preserves m -> (forall a, preserves (k a)) -> preserves (bind m k).
Proof.
  intros Hm Hk s Hs. specialize (Hm s Hs). unfold after, bind in *.
  destruct (m s) as [[[a|] s1] t1]; simpl in *; auto.
  specialize (Hk a s1 Hm). unfold after in Hk.
  destruct (k a s1) as [[r s2] t2]. exact Hk.
Qed.

Lemma preserves_tryCatch (m h : M A) :
  preserves m -> preserves h -> preserves (tryCatch m h).
Proof.
  intros Hm Hh s Hs. specialize (Hm s Hs). unfold after, tryCatch in *.
  destruct (m s) as [[[a|] s1] t1]; simpl in *; auto.
  specialize (Hh s1 Hm). unfold after in Hh.
  destruct (h s1) as [[r s2] t2]. exact Hh.
Qed.

Lemma preserves_tryFinally (m : M A) (f : M unit) :
  preserves m -> preserves f -> preserves (tryFinally m f).
Proof.
  intros Hm Hf s Hs. specialize (Hm s Hs). unfold after, tryFinally in *.
  destruct (m s) as [[r s1] t1]; simpl in *.
  specialize (Hf s1 Hm). unfold after in Hf.
  destruct (f s1) as [[[u|] s2] t2]; exact Hf.
Qed.
End Preservation.

Lemma preserves_emit e : preserves (emit e).
Proof. intros s H. exact H. Qed.

Lemma Forall_set {V} (P : string * V -> Prop) k v (m : JsMap.t V) :
  Forall P m -> P (k, v) -> Forall P (JsMap.set k v m).
Proof.
  intros Hm Hkv. induction m as [|[k' v'] m IH]; simpl.
  - auto.
  - inversion Hm; subst. destruct (String.eqb k' k); auto.
Qed.

Lemma tableOk_get s p pc :
  tableOk s -> JsMap.get p (connections s) = Some pc -> peerId pc = p.
Proof.
  intros [_ Hall] Hget. apply get_In in Hget.
  rewrite Forall_forall in Hall. exact (Hall _ Hget).
Qed.

Lemma tableOk_set s p pc :
  tableOk s -> peerId pc = p ->
  tableOk (set_connections (JsMap.set p pc (connections s)) s).
Proof.
  intros [Hwf Hall] Hid. split; simpl.
  - now apply wf_set.
  - now apply Forall_set.
Qed.

(** A write to a field other than [peerId]. *)
Lemma preserves_mutate p f :
  (forall pc, peerId (f pc) = peerId pc) -> preserves (mutate p f).
Proof.
  intros Hf s Hs. unfold after, mutate, modify. simpl.
  destruct (JsMap.get p (connections s)) as [pc|] eqn:Hget; auto.
  apply tableOk_set; auto. rewrite Hf. eapply tableOk_get; eauto.
Qed.

Lemma preserves_tableSet p pc : peerId pc = p -> preserves (tableSet p pc).
Proof.
  intros Hid s Hs. unfold after, tableSet, bind, modify, emit. simpl.
  now apply tableOk_set.
Qed.

Lemma preserves_tableDelete p : preserves (tableDelete p).
Proof.
  intros s [Hwf Hall]. unfold after, tableDelete, bind, modify, emit. simpl.
  split; simpl.
  - now apply wf_delete.
  - unfold JsMap.delete. rewrite Forall_forall in *. intros e He.
    apply filter_In in He as [He _]. auto.
Qed.

Lemma preserves_set_nextHandle n : preserves (modify (set_nextHandle n)).
Proof. intros s H. exact H. Qed.

Lemma preserves_clear : preserves (modify (set_connections JsMap.empty)).
Proof. intros s _. split; simpl; constructor. Qed.

Create HintDb table discriminated.

#[local] Hint Resolve preserves_ret preserves_throw preserves_gets
  preserves_emit preserves_tableDelete preserves_set_nextHandle
  preserves_clear : table.
#[local] Hint Extern 1 (preserves (mutate _ _)) =>
  apply preserves_mutate; intros []; reflexivity : table.
#[local] Hint Extern 1 (preserves (tableSet _ _)) =>
  apply preserves_tableSet; reflexivity : table.

(** Preservation goes through the structure of a method: sequencing,
    [try] blocks and branches. *)
Ltac table_step :=
  match goal with
  | |- preserves (bind _ _) => apply preserves_bind; [|intros ?]
  | |- preserves (tryCatch _ _) => apply preserves_tryCatch
  | |- preserves (tryFinally _ _) => apply preserves_tryFinally
  | |- preserves (match ?x with _ => _ end) => destruct x
  | |- preserves _ => solve [auto with table]
  end.

Ltac table := repeat table_step.

Lemma preserves_handleError : preserves handleError.
Proof. unfold handleError. table. Qed.

Lemma preserves_writeState p st : preserves (writeState p st).
Proof. unfold writeState. table. Qed.

Lemma preserves_writeLock p b : preserves (writeLock p b).
Proof. unfold writeLock. table. Qed.

Lemma preserves_updatePeerCount : preserves updatePeerCount.
Proof. unfold updatePeerCount. table. Qed.

Lemma preserves_notifyConnection p : preserves (notifyConnection p).
Proof. unfold notifyConnection. table. Qed.

Lemma preserves_notifyDisconnection p : preserves (notifyDisconnection p).
Proof. unfold notifyDisconnection. table. Qed.

Lemma preserves_closeRecord pc : preserves (closeRecord pc).
Proof. unfold closeRecord. table. Qed.

#[local] Hint Resolve preserves_handleError preserves_writeState
  preserves_writeLock preserves_updatePeerCount preserves_notifyConnection
  preserves_notifyDisconnection preserves_closeRecord : table.

Lemma preserves_createAndSendOffer tr p : preserves (createAndSendOffer tr p).
Proof.
  unfold createAndSendOffer, lookup, callCreateOffer, setLocalDescription,
    sendOffer. table.
Qed.

#[local] Hint Resolve preserves_createAndSendOffer : table.

Lemma preserves_connectToPeer tr p h i : preserves (connectToPeer tr p h i).
Proof.
  unfold connectToPeer, replaceExisting, establish, lookup,
    newRTCPeerConnection, createDataChannel. table.
Qed.

#[local] Hint Resolve preserves_connectToPeer : table.

Lemma preserves_handleOffer tr from offer : preserves (handleOffer tr from offer).
Proof.
  unfold handleOffer, lookup, setRemoteDescription, callCreateAnswer,
    setLocalDescription, sendAnswer. table.
Qed.

Lemma preserves_handleAnswer tr from answer :
  preserves (handleAnswer tr from answer).
Proof. unfold handleAnswer, lookup, setRemoteDescription. table. Qed.

Lemma preserves_connectToPeerBegin tr p h i :
  preserves (connectToPeerBegin tr p h i).
Proof.
  unfold connectToPeerBegin, replaceExisting, establishBegin,
    createAndSendOfferBegin, lookup, newRTCPeerConnection, createDataChannel.
  table.
Qed.

Lemma preserves_connectToPeerResume tr p k :
  preserves (connectToPeerResume tr p k).
Proof.
  unfold connectToPeerResume, createAndSendOfferResume, setLocalDescription,
    sendOffer. table.
Qed.

#[local] Hint Resolve preserves_connectToPeerBegin
  preserves_connectToPeerResume : table.

Lemma preserves_connectAllBegin peers : preserves (connectAllBegin peers).
Proof. induction peers as [|[tr peer] rest IH]; simpl; table. Qed.

Lemma preserves_connectAllResume calls : preserves (connectAllResume calls).
Proof. induction calls as [|[[tr p] k] rest IH]; simpl; table. Qed.

Lemma preserves_closeAll records : preserves (closeAll records).
Proof. induction records as [|pc rest IH]; simpl; table. Qed.

#[local] Hint Resolve preserves_handleOffer preserves_handleAnswer
  preserves_connectAllBegin preserves_connectAllResume
  preserves_closeAll : table.

Lemma preserves_handle tr e : preserves (handle tr e).
Proof.
  destruct e as [peers| |peer|from offer|from answer|cb|p cs|p h i failed
                |p ch|p|p]; simpl.
  - unfold start. table.
  - unfold stop. table.
  - unfold handlePeerJoin. table.
  - table.
  - table.
  - destruct cb; simpl; unfold connectTimeout, lookup; table.
  - unfold onconnectionstatechange, markDown, lookup. table.
  - unfold oniceconnectionstatechange, lookup. table.
  - unfold ondatachannel, lookup. table.
  - unfold onopen, lookup. table.
  - unfold onclose, lookup. table.
Qed.

Lemma exec_after {A} (m : M A) s : fst (exec m s) = after m s.
Proof. unfold exec, after. now destruct (m s) as [[r s'] t]. Qed.

(** Every run keeps the table well formed. *)
Lemma run_tableOk es :
  forall s, tableOk s -> tableOk (fst (run es s)).
Proof.
  induction es as [|[tr e] es IH]; simpl; auto.
  intros s Hs. pose proof (preserves_handle tr e s Hs) as H1.
  rewrite <- exec_after in H1.
  destruct (exec (handle tr e) s) as [s1 t1]. simpl in H1.
  specialize (IH s1 H1). destruct (run es s1) as [s2 t2]. exact IH.
Qed.

(** *** One record per peer *)

Lemma no_record_without_key (m : JsMap.t PeerConnection.t) p :
  ~ In p (JsMap.keys m) ->
  Forall (fun e => peerId (snd e) = fst e) m ->
  filter (nonTerminalFor p) (JsMap.values m) = [].
Proof.
  induction m as [|[k v] m IH]; simpl; auto.
  intros Hnot Hall. inversion Hall as [|? ? Hv Hm]; subst. simpl in Hv.
  unfold nonTerminalFor at 1. rewrite Hv.
  destruct (String.eqb_spec k p) as [-> | Hne]; [tauto|]. simpl.
  apply IH; auto.
Qed.

Lemma at_most_one_live_record (m : JsMap.t PeerConnection.t) p :
  JsMap.wf m ->
  Forall (fun e => peerId (snd e) = fst e) m ->
  List.length (filter (nonTerminalFor p) (JsMap.values m)) <= 1.
Proof.
  unfold JsMap.wf. induction m as [|[k v] m IH]; simpl; auto.
  intros Hnd Hall. inversion Hnd as [|? ? Hnotin Hnd']; subst.
  inversion Hall as [|? ? Hv Hm]; subst. simpl in Hv.
  destruct (nonTerminalFor p v) eqn:Hlive; [|auto].
  unfold nonTerminalFor in Hlive. apply andb_true_iff in Hlive as [Hp _].
  apply String.eqb_eq in Hp. rewrite Hv in Hp. subst k.
  simpl. fold (JsMap.values m).
  rewrite no_record_without_key; auto. now rewrite <- Hp.
Qed.

(** Replacing a terminal record: the old record's channel and connection
    are closed and the record leaves the table; what follows is the
    creation block, run on the table without the record. *)
Lemma connectToPeer_replaces tr s p h i ex :
  p <> Rtc.peerId s ->
  JsMap.get p (connections s) = Some ex ->
  terminal (state ex) = true ->
  exec (connectToPeer tr p h i) s =
    (fst (exec (tryCatch (establish tr p h i) handleError)
               (set_connections (JsMap.delete p (connections s)) s)),
     channelClosed ex
     ++ [CloseConnection (connection ex); TableDelete p]
     ++ snd (exec (tryCatch (establish tr p h i) handleError)
                  (set_connections (JsMap.delete p (connections s)) s))).
Proof.
  intros Hself Hget Hterm.
  assert (Hlive : negb (state_eqb (state ex) DISCONNECTED)
                  && negb (state_eqb (state ex) FAILED) = false).
  { unfold terminal in Hterm.
    destruct (state_eqb (state ex) DISCONNECTED),
      (state_eqb (state ex) FAILED); simpl in *; congruence. }
  apply String.eqb_neq in Hself.
  unfold exec, connectToPeer, replaceExisting, closeRecord, tableDelete,
    channelClosed, lookup.
  unfold bind at 1 2 3. unfold gets. rewrite Hself, Hget, Hlive.
  destruct (dataChannel ex); unfold bind, modify, emit, ret; simpl;
    destruct (tryCatch _ _ _) as [[r s2] t2]; reflexivity.
Qed.

(** C1: in every state the service reaches from an empty table, under
    any sequence of events and transport answers, the table holds at
    most one non-terminal record for each peer identifier.  And when
    [connectToPeer] finds a terminal record for the peer, it closes that
    record's data channel (if any) and its connection and deletes the
    record; only then does it run the creation of the new record, on a
    table that no longer holds the old one. *)
Theorem one_live_record_per_peer s0 es p tr s q h i ex :
  connections s0 = JsMap.empty ->
  List.length
    (filter (nonTerminalFor p) (JsMap.values (connections (fst (run es s0)))))
    <= 1 /\
  (q <> Rtc.peerId s ->
   JsMap.get q (connections s) = Some ex ->
   terminal (state ex) = true ->
   exists created,
     snd (exec (connectToPeer tr q h i) s) =
       channelClosed ex
       ++ [CloseConnection (connection ex); TableDelete q] ++ created /\
     JsMap.get q (JsMap.delete q (connections s)) = None /\
     exec (tryCatch (establish tr q h i) handleError)
          (set_connections (JsMap.delete q (connections s)) s) =
       (fst (exec (connectToPeer tr q h i) s), created)).
Proof.
  intros Hempty. split.
  - assert (H0 : tableOk s0).
    { unfold tableOk. rewrite Hempty. split; constructor. }
    destruct (run_tableOk es s0 H0) as [Hwf Hall].
    now apply at_most_one_live_record.
  - intros Hself Hget Hterm.
    rewrite (connectToPeer_replaces tr s q h i ex Hself Hget Hterm). simpl.
    eexists. split; [reflexivity|]. split; [apply get_delete_same|].
    now destruct (exec _ _).
Qed.

Lemma one_live_record_per_peer_witness :
  List.length
    (filter (nonTerminalFor "A")
       (JsMap.values
          (connections
             (fst (run [(Scenario.ok, PeerJoined (Peer.mk "A" false));
                        (Scenario.ok, IceConnectionStateChanged "A" false true true);
                        (Scenario.ok, TimerFired (Reconnect "A" false true))]
                       Scenario.host)))))
    <= 1 /\
  exists created,
    snd (exec (connectToPeer Scenario.ok "A" false true)
              (Scenario.hostWith FAILED false)) =
      channelClosed (Scenario.recordOfA FAILED false)
      ++ [CloseConnection (connection (Scenario.recordOfA FAILED false));
          TableDelete "A"] ++ created /\
    JsMap.get "A" (JsMap.delete "A" (connections (Scenario.hostWith FAILED false)))
      = None /\
    exec (tryCatch (establish Scenario.ok "A" false true) handleError)
         (set_connections
            (JsMap.delete "A" (connections (Scenario.hostWith FAILED false)))
            (Scenario.hostWith FAILED false)) =
      (fst (exec (connectToPeer Scenario.ok "A" false true)
                 (Scenario.hostWith FAILED false)), created).
Proof.
  pose proof (one_live_record_per_peer Scenario.host
                [(Scenario.ok, PeerJoined (Peer.mk "A" false));
                 (Scenario.ok, IceConnectionStateChanged "A" false true true);
                 (Scenario.ok, TimerFired (Reconnect "A" false true))]
                "A" Scenario.ok (Scenario.hostWith FAILED false) "A" false true
                (Scenario.recordOfA FAILED false) eq_refl) as [Hcount Hreplace].
  split; [exact Hcount|].
  apply Hreplace; [discriminate | reflexivity | reflexivity].
Defined.

(** *** An awaited call is the two halves of the call, one after the
    other *)

Lemma createAndSendOffer_halves tr p s :
  createAndSendOffer tr p s =
    (suspended <- createAndSendOfferBegin p ;;
     match suspended with
     | Some pc => createAndSendOfferResume tr p pc
     | None => ret tt
     end)%rtc s.
Proof.
  unfold createAndSendOffer, createAndSendOfferBegin, createAndSendOfferResume,
    lookup, callCreateOffer, setLocalDescription, sendOffer, handleError,
    writeLock, writeState, mutate, tryCatch, tryFinally, bind, gets,
    modify, emit, ret, throw.
  cbv beta.
  destruct (JsMap.get p (connections s)) as [pc|] eqn:Hget; [|reflexivity].
  destruct (state_eqb (state pc) CONNECTED); [reflexivity|].
  destruct (processingSignal pc); [reflexivity|].
  simpl. rewrite ?Hget. simpl.
  destruct (includes offerInvalidStates (state pc)) eqn:Hinv.
  - simpl. reflexivity.
  - destruct (createOffer tr) as [offer|], (setsLocal tr), (delivers tr),
      (onErrorCallback s) eqn:Hcb;
      simpl; repeat (rewrite ?Hget, ?get_set_same, ?Hcb; simpl); reflexivity.
Qed.

Lemma connectToPeer_halves tr p h i s :
  connectToPeer tr p h i s =
    (suspended <- connectToPeerBegin tr p h i ;;
     connectToPeerResume tr p suspended)%rtc s.
Proof.
  destruct tr as [t1 t2 t3 t4 t5 t6 t7].
  destruct s as [r self hst conns c1 c2 c3 c4 n].
  unfold connectToPeer, connectToPeerBegin, connectToPeerResume,
    replaceExisting, establish, establishBegin, createAndSendOffer,
    createAndSendOfferBegin, createAndSendOfferResume, closeRecord,
    newRTCPeerConnection, createDataChannel, tableSet, tableDelete,
    lookup, callCreateOffer, setLocalDescription, sendOffer, handleError,
    writeLock, writeState, mutate, tryCatch, tryFinally, bind, gets,
    modify, emit, ret, throw.
  cbv beta. simpl.
  destruct (String.eqb p self); [reflexivity|].
  destruct (JsMap.get p conns) as [ex|] eqn:Hget;
    repeat (progress (rewrite ?Hget; simpl)).
  - destruct (negb (state_eqb (state ex) DISCONNECTED)
              && negb (state_eqb (state ex) FAILED)); [reflexivity|].
    destruct (dataChannel ex); simpl;
      destruct t1, i, t2, t3, t5, t7, c3; simpl;
      repeat (progress (rewrite ?get_set_same; simpl)); reflexivity.
  - destruct t1, i, t2, t3, t5, t7, c3; simpl;
      repeat (progress (rewrite ?get_set_same; simpl)); reflexivity.
Qed.

(** The record [createAndSendOffer] finds when [connectToPeer] calls it
    is the one stored a moment before: in state NEW, with the lock
    free.  The call takes the lock and gets as far as [createOffer()]. *)
Lemma createAndSendOffer_finds_lock_free tr p h s :
  constructs tr = true -> opensChannel tr = true ->
  let c := nextHandle s in
  exists s',
    establishBegin tr p h true s =
      (Normal (Some (PeerConnection.mk p h c (Some (S c)) true false NEW false)),
       s',
       [NewRTCPeerConnection c; CreateDataChannel c (S c); TableSet p;
        SetTimeout (ConnectTimeout p h true) 10000%Z;
        LockWrite p true; StateWrite p CONNECTING; CreateOffer c]).
Proof.
  intros Hc Hch c. subst c.
  destruct s as [r self hst conns c1 c2 c3 c4 n].
  unfold establishBegin, createAndSendOfferBegin, newRTCPeerConnection,
    createDataChannel, tableSet, lookup, writeLock, writeState, mutate,
    bind, gets, modify, emit, ret, throw.
  rewrite Hc, Hch. cbv beta. simpl.
  repeat (progress (rewrite ?get_set_same; simpl)).
  eexists. reflexivity.
Qed.

End RtcFacts.

(* ================================================================== *)
(** * Further properties                                               *)
(* ================================================================== *)

(** ** More on insertion-ordered maps *)

Module JsMapMore.
Import JsMap JsMapFacts.

Section Facts.
Context {V : Type}.
Implicit Types (m : JsMap.t V) (k : string) (v : V).

(** A value of the map is still a value after [set], unless it is the one
    that was replaced. *)
Lemma In_values_set_rev x k v m :
  In x (values m) -> get k m = Some x \/ In x (values (set k v m)).
Proof.
  unfold values. induction m as [|[k' v'] m IH]; simpl; [tauto|].
  destruct (String.eqb k' k) eqn:E; simpl.
  - intros [<- | H]; auto.
  - intros [<- | H]; auto. destruct (IH H); auto.
Qed.

Lemma keys_set_present k v v0 m :
  get k m = Some v0 -> keys (set k v m) = keys m.
Proof.
  unfold keys. induction m as [|[k' v'] m IH]; simpl; [discriminate|].
  destruct (String.eqb k' k) eqn:E; simpl.
  - apply String.eqb_eq in E. now subst.
  - intros H. now rewrite IH.
Qed.

Lemma keys_set_absent k v m :
  get k m = None -> keys (set k v m) = (keys m ++ [k])%list.
Proof.
  unfold keys. induction m as [|[k' v'] m IH]; simpl; auto.
  destruct (String.eqb k' k) eqn:E; simpl; [discriminate|].
  intros H. now rewrite IH.
Qed.

(** Leaving [k] out, the keys are the same before and after [set k]. *)
Lemma keys_set_others k v m :
  filter (fun id => negb (String.eqb id k)) (keys (set k v m)) =
  filter (fun id => negb (String.eqb id k)) (keys m).
Proof.
  destruct (get k m) as [v0|] eqn:H.
  - now rewrite (keys_set_present _ _ _ _ H).
  - rewrite (keys_set_absent _ _ _ H), filter_app. simpl.
    rewrite String.eqb_refl. simpl. apply app_nil_r.
Qed.

(** [retain] keeps the entry [get] finds when the entry passes. *)
Lemma get_retain_kept keep k v m :
  get k m = Some v -> keep k v = true -> get k (retain keep m) = Some v.
Proof.
  unfold retain. induction m as [|[k' v'] m IH]; simpl; [discriminate|].
  destruct (String.eqb k' k) eqn:E.
  - apply String.eqb_eq in E. subst k'. intros [= ->] Hk.
    rewrite Hk. simpl. now rewrite String.eqb_refl.
  - intros H Hk. destruct (keep k' v'); simpl; auto. now rewrite E; auto.
Qed.

Lemma In_retain keep k v m :
  In (k, v) (retain keep m) <-> In (k, v) m /\ keep k v = true.
Proof. unfold retain. now rewrite filter_In. Qed.

Lemma In_update_all (f : V -> V) k v m :
  In (k, v) (update_all f m) <-> exists v0, In (k, v0) m /\ v = f v0.
Proof.
  unfold update_all. rewrite in_map_iff. split.
  - intros [[k0 v0] [[= <- <-] H]]. eauto.
  - intros [v0 [H ->]]. exists (k, v0). auto.
Qed.
End Facts.

End JsMapMore.

(** ** More on the mailbox store *)

Module RouteMore.
Import Route RouteView JsMapFacts JsMapMore RouteFacts Scenario.
Local Open Scope string_scope.
Local Open Scope list_scope.
Local Open Scope Z_scope.

(** *** What every served request does *)

Lemma dispatch_lastActivity now body room :
  RoomInfo.lastActivity (fst (dispatch now body room)) = RoomInfo.lastActivity room.
Proof.
  unfold dispatch.
  destruct (String.eqb _ "join").
  { unfold caseJoin. simpl. now destruct (Body.isHost body). }
  destruct (String.eqb _ "offer").
  { unfold caseOffer. destruct (_ || _); auto.
    destruct (JsMap.get _ _); reflexivity. }
  destruct (String.eqb _ "answer").
  { unfold caseAnswer. destruct (_ || _); auto.
    destruct (negb _); auto. destruct (JsMap.get _ _); reflexivity. }
  destruct (String.eqb _ "poll"); reflexivity.
Qed.

(** X1: a request that carries an action, a room and a peer identifier
    registers the requester whatever the action is and whether or not it
    is answered with an error: afterwards the room exists with
    [lastActivity = now] and holds a mailbox for the requester with
    [lastSeen = now]. *)
Theorem request_registers_requester now body rooms :
  wellFormed body ->
  exists room p,
    JsMap.get (Body.roomId body) (fst (POST now body rooms)) = Some room /\
    RoomInfo.lastActivity room = now /\
    JsMap.get (Body.peerId body) (RoomInfo.peers room) = Some p /\
    PeerInfo.lastSeen p = now.
Proof.
  intros Hwf. rewrite (POST_served _ _ _ Hwf). simpl. rewrite get_set_same.
  set (room1 := entered now (Body.peerId body) (roomOf now (Body.roomId body) rooms)).
  destruct (dispatch_lastSeen now body room1 (Body.peerId body) _
              (entered_get_self now (Body.peerId body) _)) as [p [Hp Hseen]].
  exists (fst (dispatch now body room1)), p. repeat split; auto.
  now rewrite dispatch_lastActivity.
Qed.

Lemma request_registers_requester_witness :
  snd (POST 7000 (Body.mk "leave" "R1" "Z" false JsUndefined JsUndefined "" None)
            afterOffer) = ErrorResponse "Invalid action" 400 /\
  exists room p,
    JsMap.get "R1"
      (fst (POST 7000 (Body.mk "leave" "R1" "Z" false JsUndefined JsUndefined "" None)
                 afterOffer)) = Some room /\
    RoomInfo.lastActivity room = 7000 /\
    JsMap.get "Z" (RoomInfo.peers room) = Some p /\
    PeerInfo.lastSeen p = 7000.
Proof.
  split; [reflexivity|].
  apply (request_registers_requester 7000
           (Body.mk "leave" "R1" "Z" false JsUndefined JsUndefined "" None)
           afterOffer).
  repeat split; discriminate.
Defined.

(** *** Joining *)

(** X2: the peer list of a join response holds, in the order in which
    they first contacted the room, exactly the identifiers that had a
    mailbox in the room before the request, the requester left out; each
    entry's host flag is computed after the requester's own host
    announcement has been registered. *)
Theorem join_lists_the_other_peers now body rooms :
  wellFormed body ->
  Body.action body = "join" ->
  snd (POST now body rooms) =
    let host :=
      if Body.isHost body then Some (Body.peerId body)
      else RoomInfo.hostPeerId (roomOf now (Body.roomId body) rooms) in
    JoinResponse
      (map (fun id => Peer.mk id (isHostFor host id))
           (filter (fun id => negb (String.eqb id (Body.peerId body)))
                   (JsMap.keys (RoomInfo.peers
                                  (roomOf now (Body.roomId body) rooms)))))
      (isHostFor host (Body.peerId body))
      host.
Proof.
  intros Hwf Hact. rewrite (POST_served _ _ _ Hwf). simpl.
  rewrite (dispatch_join _ _ _ Hact). unfold caseJoin, entered. simpl.
  destruct (Body.isHost body); simpl; rewrite keys_set_others; reflexivity.
Qed.

Lemma join_lists_the_other_peers_witness :
  snd (POST 5000 (Body.mk "join" "R1" "B" true JsUndefined JsUndefined "" None)
            afterOffer) =
    JoinResponse [Peer.mk "A" false] true (Some "B").
Proof.
  assert (Hwf : wellFormed
                  (Body.mk "join" "R1" "B" true JsUndefined JsUndefined "" None))
    by (repeat split; discriminate).
  exact (join_lists_the_other_peers 5000 _ afterOffer Hwf eq_refl).
Defined.

Lemma dispatch_hostPeerId now body room :
  RoomInfo.hostPeerId (fst (dispatch now body room)) =
    if String.eqb (Body.action body) "join" && Body.isHost body
    then Some (Body.peerId body) else RoomInfo.hostPeerId room.
Proof.
  unfold dispatch.
  destruct (String.eqb _ "join"); simpl.
  { unfold caseJoin. simpl. now destruct (Body.isHost body). }
  destruct (String.eqb _ "offer").
  { unfold caseOffer. destruct (_ || _); auto.
    destruct (JsMap.get _ _); reflexivity. }
  destruct (String.eqb _ "answer").
  { unfold caseAnswer. destruct (_ || _); auto.
    destruct (negb _); auto. destruct (JsMap.get _ _); reflexivity. }
  destruct (String.eqb _ "poll"); reflexivity.
Qed.

(** X3: the host of a room changes only through a join that announces
    the requester as host, and then the requester becomes the host,
    replacing whoever was host before; every other served request leaves
    the host as it was. *)
Theorem host_changes_only_by_host_join now body rooms :
  wellFormed body ->
  hostOf (Body.roomId body) (fst (POST now body rooms)) =
    Some (if String.eqb (Body.action body) "join" && Body.isHost body
          then Some (Body.peerId body)
          else RoomInfo.hostPeerId (roomOf now (Body.roomId body) rooms)).
Proof.
  intros Hwf. unfold hostOf. rewrite (POST_served _ _ _ Hwf). simpl.
  rewrite get_set_same. simpl. now rewrite dispatch_hostPeerId.
Qed.

Lemma host_changes_only_by_host_join_witness :
  hostOf "R1"
    (fst (POST 6000 (Body.mk "join" "R1" "C" true JsUndefined JsUndefined "" None)
               (fst (POST 5000
                       (Body.mk "join" "R1" "B" true JsUndefined JsUndefined "" None)
                       afterOffer))))
    = Some (Some "C").
Proof.
  apply (host_changes_only_by_host_join 6000
           (Body.mk "join" "R1" "C" true JsUndefined JsUndefined "" None)).
  repeat split; discriminate.
Defined.

(** *** Polling *)

Lemma entered_records_rev now peerId room s :
  In s (roomRecords room) -> In s (roomRecords (entered now peerId room)).
Proof.
  rewrite !roomRecords_In. intros [p [Hp Hs]]. unfold entered. simpl.
  destruct (In_values_set_rev p peerId
              (PeerInfo.set_lastSeen now
                 (match JsMap.get peerId (RoomInfo.peers room) with
                  | Some q => q
                  | None => newPeer peerId now
                  end))
              (RoomInfo.peers room) Hp) as [Hget | Hin].
  - rewrite Hget. exists (PeerInfo.set_lastSeen now p). split; [|exact Hs].
    eapply get_In_values. apply get_set_same.
  - eauto.
Qed.

Lemma records_roomOf_rev now roomId rooms s :
  In s (records roomId rooms) -> In s (roomRecords (roomOf now roomId rooms)).
Proof.
  unfold roomOf, records. destruct (JsMap.get roomId rooms); simpl; tauto.
Qed.

Lemma poll_delivered_iff now body rooms s :
  wellFormed body ->
  Body.action body = "poll" ->
  (In s (delivered (snd (POST now body rooms))) <->
   In s (records (Body.roomId body) rooms) /\
   Signal.from s <> Body.peerId body /\
   orZero (Body.lastPoll body) < Signal.timestamp s).
Proof.
  intros Hwf Hact. rewrite (POST_served _ _ _ Hwf). simpl.
  rewrite (dispatch_poll _ _ _ Hact), casePoll_delivered.
  unfold isNewFor. rewrite andb_true_iff, negb_true_iff, String.eqb_neq, Z.ltb_lt.
  split.
  - intros [Hin [Hfrom Hlt]]. repeat split; auto.
    eapply records_roomOf, entered_records; eauto.
  - intros [Hin [Hfrom Hlt]]. repeat split; auto.
    now apply entered_records_rev, records_roomOf_rev.
Qed.

(** X4: a served poll returns exactly the offer and answer records held
    anywhere in the room, in any peer's mailbox and not only in the
    poller's, that were sent by someone other than the poller and are
    stamped later than the cursor. *)
Theorem poll_returns_the_room_s_news now body rooms s :
  wellFormed body ->
  Body.action body = "poll" ->
  (In s (delivered (snd (POST now body rooms))) <->
   In s (records (Body.roomId body) rooms) /\
   Signal.from s <> Body.peerId body /\
   orZero (Body.lastPoll body) < Signal.timestamp s).
Proof. apply poll_delivered_iff. Qed.

Lemma poll_returns_the_room_s_news_witness :
  In (Signal.mk "A" sdpOffer 1000)
     (delivered (snd (POST 2000 (pollByC (Some 500)) afterOffer))) <->
  In (Signal.mk "A" sdpOffer 1000) (records "R1" afterOffer) /\
  "A" <> "C" /\ orZero (Some 500) < 1000.
Proof.
  apply (poll_returns_the_room_s_news 2000 (pollByC (Some 500)) afterOffer
           (Signal.mk "A" sdpOffer 1000)).
  - repeat split; discriminate.
  - reflexivity.
Defined.

(** *** Records stay until they are a minute old *)

Lemma caseOffer_keeps now body room s :
  In s (roomRecords room) -> In s (roomRecords (fst (caseOffer now body room))).
Proof.
  unfold caseOffer. destruct (_ || _); [simpl; tauto|].
  set (peers1 := if JsMap.has _ _ then _ else _).
  intros Hs.
  assert (H1 : exists p, In p (JsMap.values peers1) /\
                 (In s (PeerInfo.offers p) \/ In s (PeerInfo.answers p))).
  { apply roomRecords_In in Hs as [p [Hp Hs]]. exists p. split; auto.
    subst peers1. destruct (JsMap.has _ _) eqn:Hhas; auto.
    apply has_false in Hhas.
    destruct (In_values_set_rev p (Body.target body)
                (PeerInfo.mk (Body.target body) (now - 60000) [] [])
                (RoomInfo.peers room) Hp) as [Hget | Hin]; auto.
    congruence. }
  destruct H1 as [p [Hp Hsp]].
  destruct (JsMap.get (Body.target body) peers1) as [tp|] eqn:Htp; simpl.
  - apply roomRecords_In. simpl.
    destruct (In_values_set_rev p (Body.target body)
                (pushOffer (Signal.mk (Body.peerId body) (Body.offer body) now) tp)
                peers1 Hp) as [Hget | Hin]; [|eauto].
    rewrite Htp in Hget. injection Hget as ->.
    eexists. split; [eapply get_In_values; apply get_set_same|].
    simpl. rewrite in_app_iff. tauto.
  - apply roomRecords_In. simpl. eauto.
Qed.

Lemma caseAnswer_keeps now body room s :
  In s (roomRecords room) -> In s (roomRecords (fst (caseAnswer now body room))).
Proof.
  unfold caseAnswer. destruct (_ || _); [simpl; tauto|].
  destruct (negb _); [simpl; tauto|].
  destruct (JsMap.get (Body.target body) (RoomInfo.peers room)) as [tp|] eqn:Htp;
    simpl; [|tauto].
  rewrite !roomRecords_In. simpl. intros [p [Hp Hs]].
  destruct (In_values_set_rev p (Body.target body)
              (pushAnswer (Signal.mk (Body.peerId body) (Body.answer body) now) tp)
              (RoomInfo.peers room) Hp) as [Hget | Hin]; [|eauto].
  rewrite Htp in Hget. injection Hget as ->.
  eexists. split; [eapply get_In_values; apply get_set_same|].
  simpl. rewrite in_app_iff. tauto.
Qed.

Lemma casePoll_keeps now body room s :
  In s (roomRecords room) -> now - 60000 < Signal.timestamp s ->
  In s (roomRecords (fst (casePoll now body room))).
Proof.
  unfold casePoll. simpl. rewrite !roomRecords_In. simpl.
  rewrite values_update_all. intros [p [Hp Hs]] Hfresh.
  exists (prune now p). split; [now apply in_map|].
  unfold prune. simpl. rewrite !filter_In. unfold isFresh. rewrite Z.ltb_lt. tauto.
Qed.

Lemma dispatch_keeps now body room s :
  In s (roomRecords room) -> now - 60000 < Signal.timestamp s ->
  In s (roomRecords (fst (dispatch now body room))).
Proof.
  intros Hs Hfresh. unfold dispatch.
  destruct (String.eqb _ "join"); [now rewrite caseJoin_records|].
  destruct (String.eqb _ "offer"); [now apply caseOffer_keeps|].
  destruct (String.eqb _ "answer"); [now apply caseAnswer_keeps|].
  destruct (String.eqb _ "poll"); [now apply casePoll_keeps|]. exact Hs.
Qed.

(** No request drops a record that is younger than 60000 ms. *)
Lemma POST_keeps_fresh now body rooms roomId s :
  In s (records roomId rooms) -> now - 60000 < Signal.timestamp s ->
  In s (records roomId (fst (POST now body rooms))).
Proof.
  intros Hs Hfresh. destruct (wellFormed_dec body) as [Hwf | Hwf].
  - rewrite (POST_served _ _ _ Hwf). simpl.
    destruct (string_dec (Body.roomId body) roomId) as [<- | Hne].
    + rewrite records_set. apply dispatch_keeps; auto.
      now apply entered_records_rev, records_roomOf_rev.
    + now rewrite records_set_other.
  - now rewrite (POST_rejected _ _ _ Hwf).
Qed.

Lemma run_keeps_fresh roomId s es :
  Forall (servedBefore (Signal.timestamp s + 60000)) es ->
  forall rooms,
    In s (records roomId rooms) -> In s (records roomId (run es rooms)).
Proof.
  unfold run. induction 1 as [|e es He Hes IH]; simpl; auto.
  intros rooms Hs. apply IH. destruct e as [now body | now]; simpl in *; [|tauto].
  apply POST_keeps_fresh; auto. lia.
Qed.

Lemma offer_deposit_stored now body rooms :
  wellFormed body ->
  Body.action body = "offer" ->
  Body.target body <> "" ->
  truthy (Body.offer body) = true ->
  In (Signal.mk (Body.peerId body) (Body.offer body) now)
     (records (Body.roomId body) (fst (POST now body rooms))).
Proof.
  intros Hwf Hact Ht Ho. rewrite (POST_served _ _ _ Hwf). simpl.
  rewrite records_set, (dispatch_offer _ _ _ Hact). unfold caseOffer.
  rewrite (truthyStr_true _ Ht), Ho. simpl.
  set (peers1 := if JsMap.has _ _ then _ else _).
  assert (Htp : exists tp, JsMap.get (Body.target body) peers1 = Some tp).
  { subst peers1. destruct (JsMap.has _ _) eqn:Hhas.
    - now apply has_true in Hhas.
    - rewrite get_set_same. eauto. }
  destruct Htp as [tp Htp]. rewrite Htp. simpl.
  apply roomRecords_In. simpl. eexists.
  split; [eapply get_In_values; apply get_set_same|].
  left. simpl. rewrite in_app_iff. simpl. auto.
Qed.

(** X5: an offer accepted at server time [t] is carried by the response
    to every later poll of the room by a peer other than the sender whose
    cursor is older than [t], provided every request served in between was
    served before [t + 60000] and the sweep did not run.  The target the
    offer was addressed to plays no part. *)
Theorem offer_reaches_every_other_poller t body rooms between now2 poll :
  wellFormed body ->
  Body.action body = "offer" ->
  Body.target body <> "" ->
  truthy (Body.offer body) = true ->
  Forall (servedBefore (t + 60000)) between ->
  wellFormed poll ->
  Body.action poll = "poll" ->
  Body.roomId poll = Body.roomId body ->
  Body.peerId poll <> Body.peerId body ->
  orZero (Body.lastPoll poll) < t ->
  In (Signal.mk (Body.peerId body) (Body.offer body) t)
     (delivered (snd (POST now2 poll (run between (fst (POST t body rooms)))))).
Proof.
  intros Hwf Hact Ht Ho Hbetween Hwfp Hactp Hroom Hpeer Hcursor.
  apply (poll_delivered_iff now2 poll _ _ Hwfp Hactp). simpl.
  repeat split; auto. rewrite Hroom.
  apply run_keeps_fresh; [exact Hbetween|].
  now apply offer_deposit_stored.
Qed.

Lemma offer_reaches_every_other_poller_witness :
  In (Signal.mk "A" sdpOffer 1000)
     (delivered
        (snd (POST 90000 (pollByC (Some 500))
                (run [Request 30000 (pollByC None); Request 60999 answerToB]
                     (fst (POST 1000 offerToB [])))))).
Proof.
  apply (offer_reaches_every_other_poller 1000 offerToB []
           [Request 30000 (pollByC None); Request 60999 answerToB]
           90000 (pollByC (Some 500))).
  - repeat split; discriminate.
  - reflexivity.
  - discriminate.
  - reflexivity.
  - repeat constructor; simpl; lia.
  - repeat split; discriminate.
  - reflexivity.
  - reflexivity.
  - discriminate.
  - simpl. lia.
Defined.

Lemma caseAnswer_known_target now body room tp :
  Body.target body <> "" ->
  truthy (Body.answer body) = true ->
  JsMap.get (Body.target body) (RoomInfo.peers room) = Some tp ->
  caseAnswer now body room =
    (RoomInfo.set_peers
       (JsMap.set (Body.target body)
          (pushAnswer (Signal.mk (Body.peerId body) (Body.answer body) now) tp)
          (RoomInfo.peers room))
       room,
     SuccessResponse).
Proof.
  intros Ht Ha Htp. unfold caseAnswer.
  assert (Hhas : JsMap.has (Body.target body) (RoomInfo.peers room) = true)
    by (apply has_true; eauto).
  now rewrite (truthyStr_true _ Ht), Ha, Hhas, Htp.
Qed.

Lemma answer_deposit_stored now body rooms :
  wellFormed body ->
  Body.action body = "answer" ->
  Body.target body <> "" ->
  truthy (Body.answer body) = true ->
  mailbox (Body.roomId body) (Body.target body) rooms <> None
    \/ Body.target body = Body.peerId body ->
  snd (POST now body rooms) = SuccessResponse /\
  In (Signal.mk (Body.peerId body) (Body.answer body) now)
     (records (Body.roomId body) (fst (POST now body rooms))).
Proof.
  intros Hwf Hact Ht Ha Hknown.
  assert (Htp : exists tp,
            JsMap.get (Body.target body)
              (RoomInfo.peers (entered now (Body.peerId body)
                                 (roomOf now (Body.roomId body) rooms))) = Some tp).
  { destruct (string_dec (Body.peerId body) (Body.target body)) as [E | Hne].
    - rewrite <- E, entered_get_self. eauto.
    - rewrite entered_get_other, mailbox_roomOf by assumption.
      destruct Hknown as [Hbox | E]; [|congruence].
      destruct (mailbox _ _ rooms); [eauto | congruence]. }
  destruct Htp as [tp Htp].
  rewrite (POST_served _ _ _ Hwf). cbn [fst snd].
  rewrite records_set, (dispatch_answer _ _ _ Hact).
  rewrite (caseAnswer_known_target _ _ _ _ Ht Ha Htp). cbn [fst snd].
  split; [reflexivity|].
  apply roomRecords_In. simpl. eexists.
  split; [eapply get_In_values; apply get_set_same|].
  right. simpl. rewrite in_app_iff. simpl. auto.
Qed.

(** X6: an answer for a target that has a mailbox in the room (or for
    the sender itself) is accepted, and from then on it is carried by the
    response to every poll of the room by another peer whose cursor is
    older than the deposit, as long as the requests in between were
    served less than 60000 ms after it and the sweep did not run. *)
Theorem answer_reaches_every_other_poller t body rooms between now2 poll :
  wellFormed body ->
  Body.action body = "answer" ->
  Body.target body <> "" ->
  truthy (Body.answer body) = true ->
  mailbox (Body.roomId body) (Body.target body) rooms <> None
    \/ Body.target body = Body.peerId body ->
  Forall (servedBefore (t + 60000)) between ->
  wellFormed poll ->
  Body.action poll = "poll" ->
  Body.roomId poll = Body.roomId body ->
  Body.peerId poll <> Body.peerId body ->
  orZero (Body.lastPoll poll) < t ->
  snd (POST t body rooms) = SuccessResponse /\
  In (Signal.mk (Body.peerId body) (Body.answer body) t)
     (delivered (snd (POST now2 poll (run between (fst (POST t body rooms)))))).
Proof.
  intros Hwf Hact Ht Ha Hknown Hbetween Hwfp Hactp Hroom Hpeer Hcursor.
  destruct (answer_deposit_stored t body rooms Hwf Hact Ht Ha Hknown) as [Hok Hin].
  split; [exact Hok|].
  apply (poll_delivered_iff now2 poll _ _ Hwfp Hactp). simpl.
  repeat split; auto. rewrite Hroom.
  now apply run_keeps_fresh.
Qed.

Lemma answer_reaches_every_other_poller_witness :
  snd (POST 2000 answerToB afterOffer) = SuccessResponse /\
  In (Signal.mk "A" sdpAnswer 2000)
     (delivered
        (snd (POST 3000 (pollByC (Some 1500))
                (run [Request 2500 offerToB] (fst (POST 2000 answerToB afterOffer)))))).
Proof.
  apply (answer_reaches_every_other_poller 2000 answerToB afterOffer
           [Request 2500 offerToB] 3000 (pollByC (Some 1500))).
  - repeat split; discriminate.
  - reflexivity.
  - discriminate.
  - reflexivity.
  - left. discriminate.
  - repeat constructor; simpl; lia.
  - repeat split; discriminate.
  - reflexivity.
  - reflexivity.
  - discriminate.
  - simpl. lia.
Defined.

(** *** No record twice *)

Lemma run_records_upto bound roomId es :
  Forall (fun e => time e <= bound) es ->
  forall rooms,
    JsMap.wf rooms ->
    Forall (fun s => Signal.timestamp s <= bound) (records roomId rooms) ->
    Forall (fun s => Signal.timestamp s <= bound) (records roomId (run es rooms)).
Proof.
  unfold run. induction 1 as [|e es He Hes IH]; simpl; auto.
  intros rooms Hwf Hinv. apply IH; [now apply step_wf|].
  rewrite Forall_forall in *. intros s Hs. destruct e as [now body | now]; simpl in *.
  - apply POST_records in Hs as [Hs | Hs]; auto. lia.
  - apply cleanup_records in Hs; auto.
Qed.

(** X7: the server starts empty and serves requests and sweeps at times
    up to [now1]; a poll is then served at [now1].  Whatever happens
    afterwards, a poll that carries the timestamp of that response as its
    cursor is handed none of the records the first response carried: no
    record is delivered twice to a client that feeds the reported
    timestamp back. *)
Theorem no_record_delivered_twice es now1 body1 between now2 body2 :
  Forall (fun e => time e <= now1) es ->
  wellFormed body1 ->
  Body.action body1 = "poll" ->
  Body.lastPoll body2 = timestamp (snd (POST now1 body1 (run es []))) ->
  Forall (fun s => ~ In s (delivered (snd (POST now1 body1 (run es [])))))
         (delivered (snd (POST now2 body2
                            (run between (fst (POST now1 body1 (run es []))))))).
Proof.
  intros Hes Hwf Hact Hcursor. apply Forall_forall. intros s H2 H1.
  apply POST_delivered in H2 as [_ H2].
  rewrite Hcursor, (POST_poll_timestamp _ _ _ Hwf Hact), orZero_Some in H2.
  apply POST_delivered in H1 as [H1 _].
  assert (Hupto : Forall (fun s => Signal.timestamp s <= now1)
                    (records (Body.roomId body1) (run es []))).
  { apply run_records_upto; auto; constructor. }
  rewrite Forall_forall in Hupto. specialize (Hupto _ H1). lia.
Qed.

Lemma no_record_delivered_twice_witness :
  Forall (fun s => ~ In s (delivered
                             (snd (POST 2000 (pollByC (Some 500))
                                     (run [Request 1000 offerToB] [])))))
         (delivered
            (snd (POST 3000 (pollByC (Some 2000))
                    (run [Request 2500 offerToB]
                         (fst (POST 2000 (pollByC (Some 500))
                                 (run [Request 1000 offerToB] []))))))).
Proof.
  apply (no_record_delivered_twice [Request 1000 offerToB] 2000 (pollByC (Some 500))
           [Request 2500 offerToB] 3000 (pollByC (Some 2000))).
  - repeat constructor. simpl. lia.
  - repeat split; discriminate.
  - reflexivity.
  - reflexivity.
Defined.

(** *** The sweep *)

Lemma filter_idem {X} (f : X -> bool) l : filter f (filter f l) = filter f l.
Proof.
  induction l as [|x l IH]; simpl; auto.
  destruct (f x) eqn:E; simpl; [rewrite E|]; congruence.
Qed.

Lemma sweepRoom_idem now room : sweepRoom now (sweepRoom now room) = sweepRoom now room.
Proof.
  unfold sweepRoom, JsMap.retain. simpl. now rewrite filter_idem.
Qed.

Lemma filter_map_idem {X} (g : X -> X) (f : X -> bool) l :
  (forall x, g (g x) = g x) ->
  filter f (map g (filter f (map g l))) = filter f (map g l).
Proof.
  intros Hg. induction l as [|x l IH]; simpl; auto.
  destruct (f (g x)) eqn:E; simpl; auto.
  rewrite Hg, E, IH. reflexivity.
Qed.

(** X8: the sweep is idempotent: run a second time at the same instant
    it removes nothing more. *)
Theorem cleanup_idempotent now rooms :
  cleanup now (cleanup now rooms) = cleanup now rooms.
Proof.
  unfold cleanup, JsMap.retain, JsMap.update_all.
  apply (filter_map_idem
           (fun e : string * RoomInfo.t => (fst e, sweepRoom now (snd e)))).
  intros [k room]. simpl. now rewrite sweepRoom_idem.
Qed.

(** X9: what the sweep leaves behind: every room still in the store
    was active within the last 24 hours and holds at least one mailbox,
    and every mailbox still in it was seen within the last 2 minutes. *)
Theorem cleanup_leaves_only_the_live now rooms :
  Forall (fun e =>
            now - RoomInfo.lastActivity (snd e) <= ROOM_TIMEOUT /\
            RoomInfo.peers (snd e) <> [] /\
            Forall (fun m => now - PeerInfo.lastSeen (snd m) <= PEER_TIMEOUT)
                   (RoomInfo.peers (snd e)))
         (cleanup now rooms).
Proof.
  apply Forall_forall. intros [r room] Hin. simpl.
  unfold cleanup in Hin. apply In_retain in Hin as [Hin Hkeep].
  apply In_update_all in Hin as [room0 [Hin ->]].
  unfold roomExpired in Hkeep.
  apply negb_true_iff, orb_false_iff in Hkeep as [Hact Hsize].
  apply Z.ltb_ge in Hact. apply Nat.eqb_neq in Hsize. repeat split.
  - exact Hact.
  - intros E. apply Hsize. unfold JsMap.size. now rewrite E.
  - apply Forall_forall. intros [p q] Hq. simpl.
    unfold sweepRoom in Hq. simpl in Hq. apply In_retain in Hq as [_ Hq].
    apply negb_true_iff, Z.ltb_ge in Hq. exact Hq.
Qed.

(** X10: the sweep spares what is live: a mailbox seen within the last
    2 minutes, in a room active within the last 24 hours, is still there
    after the sweep, with its pending offers and answers untouched. *)
Theorem cleanup_spares_the_live now rooms roomId room p q :
  JsMap.get roomId rooms = Some room ->
  JsMap.get p (RoomInfo.peers room) = Some q ->
  now - RoomInfo.lastActivity room <= ROOM_TIMEOUT ->
  now - PeerInfo.lastSeen q <= PEER_TIMEOUT ->
  mailbox roomId p (cleanup now rooms) = Some q.
Proof.
  intros Hroom Hq Hact Hseen.
  assert (Hkept : JsMap.get p (RoomInfo.peers (sweepRoom now room)) = Some q).
  { unfold sweepRoom. simpl. apply get_retain_kept; auto.
    apply negb_true_iff, Z.ltb_ge. exact Hseen. }
  unfold mailbox, cleanup.
  rewrite (get_retain_kept _ roomId (sweepRoom now room)).
  - exact Hkept.
  - now rewrite get_update_all, Hroom.
  - unfold roomExpired. apply negb_true_iff, orb_false_iff. split.
    + apply Z.ltb_ge. exact Hact.
    + apply Nat.eqb_neq. unfold JsMap.size. intros E.
      apply get_In in Hkept.
      destruct (RoomInfo.peers (sweepRoom now room)); [contradiction | discriminate].
Qed.

Lemma cleanup_spares_the_live_witness :
  mailbox "R1" "A" (cleanup 100000 afterOffer) =
    Some (PeerInfo.mk "A" 1000 [] []).
Proof.
  apply (cleanup_spares_the_live 100000 afterOffer "R1"
           (RoomInfo.mk None
              [("A", PeerInfo.mk "A" 1000 [] []);
               ("B", PeerInfo.mk "B" (1000 - 60000) [Signal.mk "A" sdpOffer 1000] [])]
              1000 1000)).
  - reflexivity.
  - reflexivity.
  - unfold ROOM_TIMEOUT. simpl. lia.
  - unfold PEER_TIMEOUT. simpl. lia.
Defined.

(** X11: a request never removes a mailbox, and it changes the
    [lastSeen] of no mailbox but the requester's: a peer is kept alive
    only by its own requests, not by what others send to it. *)
Theorem requests_never_evict now body rooms roomId p q :
  mailbox roomId p rooms = Some q ->
  exists q',
    mailbox roomId p (fst (POST now body rooms)) = Some q' /\
    (PeerInfo.lastSeen q' = PeerInfo.lastSeen q \/
     (wellFormed body /\ Body.roomId body = roomId /\ Body.peerId body = p /\
      PeerInfo.lastSeen q' = now)).
Proof.
  intros Hq.
  destruct (wellFormed_dec body) as [Hwf | Hwf].
  - destruct (string_dec (Body.roomId body) roomId) as [Hr | Hr];
      [destruct (string_dec (Body.peerId body) p) as [Hp | Hp]|].
    + subst roomId p. rewrite (POST_served _ _ _ Hwf). simpl. rewrite mailbox_set.
      destruct (dispatch_lastSeen now body _ (Body.peerId body) _
                  (entered_get_self now (Body.peerId body)
                     (roomOf now (Body.roomId body) rooms))) as [q' [Hq' Hseen]].
      exists q'. split; [exact Hq'|]. right. tauto.
    + destruct (POST_lastSeen now body rooms roomId p q ltac:(tauto) Hq)
        as [q' [Hq' Hseen]].
      eauto.
    + destruct (POST_lastSeen now body rooms roomId p q ltac:(tauto) Hq)
        as [q' [Hq' Hseen]].
      eauto.
  - rewrite (POST_rejected _ _ _ Hwf). simpl. eauto.
Qed.

Lemma requests_never_evict_witness :
  exists q',
    mailbox "R1" "B" (fst (POST 500000 offerToB afterOffer)) = Some q' /\
    (PeerInfo.lastSeen q' = PeerInfo.lastSeen
                              (PeerInfo.mk "B" (1000 - 60000)
                                 [Signal.mk "A" sdpOffer 1000] []) \/
     (wellFormed offerToB /\ Body.roomId offerToB = "R1" /\
      Body.peerId offerToB = "B" /\ PeerInfo.lastSeen q' = 500000)).
Proof.
  apply (requests_never_evict 500000 offerToB afterOffer "R1" "B"). reflexivity.
Defined.

End RouteMore.

(** ** More on the signaling client *)

Module ClientFacts.
Import Route Signaling Client JsMapFacts RouteFacts RouteMore Scenario.
Local Open Scope string_scope.
Local Open Scope list_scope.
Local Open Scope Z_scope.

Lemma caseOffer_response now body room :
  snd (caseOffer now body room) =
    if truthyStr (Body.target body) && truthy (Body.offer body)
    then SuccessResponse else ErrorResponse "Invalid offer" 400.
Proof.
  unfold caseOffer.
  destruct (truthyStr (Body.target body)); simpl; [|reflexivity].
  destruct (truthy (Body.offer body)); simpl; [|reflexivity].
  destruct (JsMap.has _ _) eqn:Hhas.
  - apply has_true in Hhas as [tp Htp]. now rewrite Htp.
  - now rewrite get_set_same.
Qed.

Lemma caseAnswer_response now body room :
  snd (caseAnswer now body room) =
    if truthyStr (Body.target body) && truthy (Body.answer body) then
      if JsMap.has (Body.target body) (RoomInfo.peers room) then SuccessResponse
      else ErrorResponse "Target peer not found" 404
    else ErrorResponse "Invalid answer" 400.
Proof.
  unfold caseAnswer.
  destruct (truthyStr (Body.target body)); simpl; [|reflexivity].
  destruct (truthy (Body.answer body)); simpl; [|reflexivity].
  destruct (JsMap.has _ _) eqn:Hhas; simpl; [|reflexivity].
  apply has_true in Hhas as [tp Htp]. now rewrite Htp.
Qed.

Lemma served_response serverNow body rooms :
  snd (served serverNow body rooms) =
    Http (success (snd (POST serverNow body rooms))) (snd (POST serverNow body rooms)).
Proof.
  unfold served. destruct (POST serverNow body rooms) as [rooms' r]. simpl.
  now destruct r.
Qed.

Lemma has_entered now peerId target room :
  JsMap.has target (RoomInfo.peers (entered now peerId room)) =
    String.eqb target peerId || JsMap.has target (RoomInfo.peers room).
Proof.
  destruct (String.eqb_spec target peerId) as [-> | Hne]; cbn [orb].
  - apply has_true. rewrite entered_get_self. eauto.
  - unfold JsMap.has. now rewrite entered_get_other by congruence.
Qed.

(** X12: what the client's send operations resolve to when the endpoint
    answers.  [sendOffer] resolves to [true] exactly when a target was
    named and the offer is a truthy value.  [sendAnswer] needs more: the
    target must already have a mailbox in the room (or be the sender);
    an answer for a peer the store does not know resolves to [false].
    In both, a [false] result comes with a run of the error callback. *)
Theorem send_results serverNow s target payload rooms :
  roomId s <> "" ->
  peerId s <> "" ->
  sendOffer (snd (served serverNow (offerRequest s target payload) rooms)) =
    (truthyStr target && truthy payload,
     negb (truthyStr target && truthy payload)) /\
  sendAnswer (snd (served serverNow (answerRequest s target payload) rooms)) =
    (truthyStr target && truthy payload
       && (String.eqb target (peerId s) || known (roomId s) target rooms),
     negb (truthyStr target && truthy payload
             && (String.eqb target (peerId s) || known (roomId s) target rooms))).
Proof.
  intros Hr Hp. split.
  - assert (Hwf : wellFormed (offerRequest s target payload))
      by (repeat split; auto; discriminate).
    rewrite served_response, (POST_served _ _ _ Hwf). cbn [snd].
    rewrite dispatch_offer by reflexivity. rewrite caseOffer_response.
    cbn [Body.target Body.offer offerRequest].
    now destruct (truthyStr target && truthy payload).
  - assert (Hwf : wellFormed (answerRequest s target payload))
      by (repeat split; auto; discriminate).
    rewrite served_response, (POST_served _ _ _ Hwf). cbn [snd].
    rewrite dispatch_answer by reflexivity. rewrite caseAnswer_response.
    cbn [Body.target Body.answer Body.peerId Body.roomId answerRequest].
    rewrite has_entered. unfold known, JsMap.has.
    rewrite mailbox_roomOf.
    destruct (truthyStr target && truthy payload); simpl; [|reflexivity].
    destruct (String.eqb target (peerId s)); simpl; [reflexivity|].
    now destruct (mailbox (roomId s) target rooms).
Qed.

Lemma send_results_witness :
  sendOffer (snd (served 1000 (offerRequest clientP "Q" sdpOffer) afterOffer)) =
    (true, false) /\
  sendAnswer (snd (served 1000 (answerRequest clientP "Q" sdpAnswer) afterOffer)) =
    (false, true).
Proof.
  apply (send_results 1000 clientP "Q" sdpOffer afterOffer); discriminate.
Defined.

(** X13: [stop()] keeps a new poll from starting, but not a poll that
    is already waiting for its response from finishing: when that response
    arrives after [stop()], its new peers, offers and answers are still
    dispatched to the callbacks and the cursor still moves to the reported
    timestamp. *)
Theorem poll_in_flight_survives_stop s data :
  success data = true ->
  pollBegin (stop s) = None /\
  pollEnd (Http true data) (stop s) =
    (mk (roomId s) (peerId s) (isHost s) (timestamp data) false false,
     dispatches data).
Proof.
  intros Hok. split; [reflexivity|]. unfold pollEnd. now rewrite Hok.
Qed.

Lemma poll_in_flight_survives_stop_witness :
  pollBegin (stop clientP) = None /\
  pollEnd (Http true (PollResponse [Signal.mk "A" sdpOffer 1000] [] [] 2000))
          (stop clientP) =
    (mk "R1" "P" false (Some 2000) false false, [Offer "A" sdpOffer]).
Proof.
  apply (poll_in_flight_survives_stop clientP
           (PollResponse [Signal.mk "A" sdpOffer 1000] [] [] 2000)).
  reflexivity.
Defined.

(** The two halves make up [poll]. *)
Lemma poll_halves f s :
  poll f s = match pollBegin s with
             | Some _ => pollEnd f s
             | None => (s, [])
             end.
Proof. unfold poll, pollBegin, pollEnd. now destruct (active s). Qed.

End ClientFacts.

(** ** More on the peer table and the state machine *)

Module RtcMore.
Import Rtc Rtc.PeerConnection RtcView JsMapFacts JsMapMore RtcFacts.
Local Open Scope string_scope.
Local Open Scope list_scope.

Local Arguments includes : simpl never.

(** *** Properties kept by the monad's combinators *)

Section Keeping.
Context (P : RTCService -> Prop) {A B : Type}.

Lemma keeps_ret (a : A) : keeps P (ret a).
Proof. intros s H. exact H. Qed.

Lemma keeps_throw : keeps P (@throw A).
Proof. intros s H. exact H. Qed.

Lemma keeps_gets (f : RTCService -> A) : keeps P (gets f).
Proof. intros s H. exact H. Qed.

Lemma keeps_bind (m : M A) (k : A -> M B) :
  keeps P m -> (forall a, keeps P (k a)) -> keeps P (bind m k).
Proof.
  intros Hm Hk s Hs. specialize (Hm s Hs). unfold after, bind in *.
  destruct (m s) as [[[a|] s1] t1]; simpl in *; auto.
  specialize (Hk a s1 Hm). unfold after in Hk.
  destruct (k a s1) as [[r s2] t2]. exact Hk.
Qed.

Lemma keeps_tryCatch (m h : M A) :
  keeps P m -> keeps P h -> keeps P (tryCatch m h).
Proof.
  intros Hm Hh s Hs. specialize (Hm s Hs). unfold after, tryCatch in *.
  destruct (m s) as [[[a|] s1] t1]; simpl in *; auto.
  specialize (Hh s1 Hm). unfold after in Hh.
  destruct (h s1) as [[r s2] t2]. exact Hh.
Qed.

Lemma keeps_tryFinally (m : M A) (f : M unit) :
  keeps P m -> keeps P f -> keeps P (tryFinally m f).
Proof.
  intros Hm Hf s Hs. specialize (Hm s Hs). unfold after, tryFinally in *.
  destruct (m s) as [[r s1] t1]; simpl in *.
  specialize (Hf s1 Hm). unfold after in Hf.
  destruct (f s1) as [[[u|] s2] t2]; exact Hf.
Qed.
End Keeping.

Lemma keeps_emit P e : keeps P (emit e).
Proof. intros s H. exact H. Qed.

(** Going through the structure of a method, with [leaf] for the writes. *)
Ltac keep_step leaf :=
  match goal with
  | |- keeps _ (bind _ _) => apply keeps_bind; [|intros ?]
  | |- keeps _ (tryCatch _ _) => apply keeps_tryCatch
  | |- keeps _ (tryFinally _ _) => apply keeps_tryFinally
  | |- keeps _ (match ?x with _ => _ end) => destruct x
  | |- keeps _ (ret _) => apply keeps_ret
  | |- keeps _ throw => apply keeps_throw
  | |- keeps _ (gets _) => apply keeps_gets
  | |- keeps _ (emit _) => apply keeps_emit
  | |- keeps _ _ => solve [leaf]
  end.

Ltac keep leaf := repeat (keep_step leaf).

Ltac unfold_methods :=
  unfold start, stop, handlePeerJoin, handleOffer, handleAnswer, fire,
    connectTimeout, connectToPeer, connectToPeerBegin, connectToPeerResume,
    replaceExisting, establish, establishBegin, createAndSendOffer,
    createAndSendOfferBegin, createAndSendOfferResume,
    onconnectionstatechange, markDown,
    oniceconnectionstatechange, ondatachannel, onopen, onclose, closeRecord,
    newRTCPeerConnection, createDataChannel, callCreateOffer,
    callCreateAnswer, setLocalDescription, setRemoteDescription, sendOffer,
    sendAnswer, handleError, updatePeerCount, notifyConnection,
    notifyDisconnection, writeState, writeLock, tableSet, tableDelete, lookup.

(** *** No record for oneself *)

Lemma noSelf_mutate self q f : keeps (noSelfRecord self) (mutate q f).
Proof.
  intros s [Hid Hnone]. unfold after, mutate, modify. simpl.
  destruct (JsMap.get q (connections s)) as [pc|] eqn:Hq; [|now split].
  split; simpl; auto. rewrite get_set_other; auto. congruence.
Qed.

Lemma noSelf_delete self q :
  keeps (noSelfRecord self)
        (modify (fun s => set_connections (JsMap.delete q (connections s)) s)).
Proof.
  intros s [Hid Hnone]. unfold after, modify. simpl. split; simpl; auto.
  destruct (string_dec q self) as [-> | Hne].
  - apply get_delete_same.
  - now rewrite get_delete_other.
Qed.

Lemma noSelf_set self q pc :
  q <> self ->
  keeps (noSelfRecord self)
        (modify (fun s => set_connections (JsMap.set q pc (connections s)) s)).
Proof.
  intros Hne s [Hid Hnone]. unfold after, modify. simpl. split; simpl; auto.
  now rewrite get_set_other.
Qed.

Lemma noSelf_handle self n : keeps (noSelfRecord self) (modify (set_nextHandle n)).
Proof. intros s H. exact H. Qed.

Lemma noSelf_clear self :
  keeps (noSelfRecord self) (modify (set_connections JsMap.empty)).
Proof. intros s [Hid _]. split; auto. Qed.

Ltac noSelf_leaf :=
  first [ apply noSelf_mutate | apply noSelf_delete | apply noSelf_handle
        | apply noSelf_clear | apply noSelf_set; assumption ].

Lemma noSelf_createAndSendOffer self tr p :
  keeps (noSelfRecord self) (createAndSendOffer tr p).
Proof. unfold_methods. keep noSelf_leaf. Qed.

Lemma noSelf_closeAll self records :
  keeps (noSelfRecord self) (closeAll records).
Proof. induction records as [|pc rest IH]; simpl; unfold_methods; keep assumption. Qed.

(** [connectToPeer] creates a record only for somebody else. *)
Lemma noSelf_connectToPeer self tr p h i :
  keeps (noSelfRecord self) (connectToPeer tr p h i).
Proof.
  intros s Hs. pose proof Hs as [Hid Hnone].
  unfold after, connectToPeer. unfold bind at 1. unfold gets at 1.
  destruct (String.eqb_spec p (Rtc.peerId s)) as [E | Hne]; [exact Hs|].
  assert (Hp : p <> self) by congruence.
  assert (Hrest : keeps (noSelfRecord self)
            (proceed <- replaceExisting p ;;
             if proceed then tryCatch (establish tr p h i) handleError
             else ret tt)%rtc).
  { pose proof (noSelf_createAndSendOffer self tr p) as Hoffer.
    unfold replaceExisting, establish, closeRecord, newRTCPeerConnection,
      createDataChannel, handleError, tableSet, tableDelete, lookup.
    keep ltac:(first [noSelf_leaf | exact Hoffer]). }
  specialize (Hrest s Hs). unfold after in Hrest.
  destruct ((proceed <- replaceExisting p ;;
             if proceed then tryCatch (establish tr p h i) handleError
             else ret tt)%rtc s) as [[r s2] t2].
  exact Hrest.
Qed.

Lemma noSelf_connectToPeerBegin self tr p h i :
  keeps (noSelfRecord self) (connectToPeerBegin tr p h i).
Proof.
  intros s Hs. pose proof Hs as [Hid Hnone].
  unfold after, connectToPeerBegin. unfold bind at 1. unfold gets at 1.
  destruct (String.eqb_spec p (Rtc.peerId s)) as [E | Hne]; [exact Hs|].
  assert (Hp : p <> self) by congruence.
  assert (Hrest : keeps (noSelfRecord self)
            (proceed <- replaceExisting p ;;
             if proceed then
               tryCatch (establishBegin tr p h i) (handleError ;; ret None)
             else ret None)%rtc).
  { unfold replaceExisting, establishBegin, createAndSendOfferBegin,
      closeRecord, newRTCPeerConnection, createDataChannel, handleError,
      writeState, writeLock, tableSet, tableDelete, lookup.
    keep noSelf_leaf. }
  specialize (Hrest s Hs). unfold after in Hrest.
  destruct ((proceed <- replaceExisting p ;;
             if proceed then
               tryCatch (establishBegin tr p h i) (handleError ;; ret None)
             else ret None)%rtc s) as [[r s2] t2].
  exact Hrest.
Qed.

Lemma noSelf_connectToPeerResume self tr p k :
  keeps (noSelfRecord self) (connectToPeerResume tr p k).
Proof. unfold_methods. keep noSelf_leaf. Qed.

Lemma noSelf_connectAllBegin self peers :
  keeps (noSelfRecord self) (connectAllBegin peers).
Proof.
  induction peers as [|[tr peer] rest IH]; simpl.
  - apply keeps_ret.
  - apply keeps_bind; [apply noSelf_connectToPeerBegin | intros k].
    apply keeps_bind; [exact IH | intros ks; apply keeps_ret].
Qed.

Lemma noSelf_connectAllResume self calls :
  keeps (noSelfRecord self) (connectAllResume calls).
Proof.
  induction calls as [|[[tr p] k] rest IH]; simpl.
  - apply keeps_ret.
  - apply keeps_bind; [apply noSelf_connectToPeerResume | intros _; exact IH].
Qed.

Lemma noSelf_handle_event self tr e : keeps (noSelfRecord self) (handle tr e).
Proof.
  pose proof (noSelf_connectToPeer self) as Hconnect.
  pose proof (noSelf_createAndSendOffer self) as Hoffer.
  pose proof (noSelf_connectToPeerBegin self) as Hbegin.
  pose proof (noSelf_connectToPeerResume self) as Hresume.
  pose proof (noSelf_connectAllBegin self) as Hall.
  pose proof (noSelf_connectAllResume self) as Hrest.
  pose proof (noSelf_closeAll self) as Hclose.
  destruct e as [peers| |peer|from offer|from answer|cb|p cs|p h i failed
                |p ch|p|p]; simpl; try destruct cb; simpl;
    unfold start, stop, handlePeerJoin, handleOffer, handleAnswer,
      connectTimeout, onconnectionstatechange, markDown,
      oniceconnectionstatechange, ondatachannel, onopen, onclose,
      setLocalDescription, setRemoteDescription, callCreateAnswer, sendAnswer,
      handleError, updatePeerCount, notifyConnection, notifyDisconnection,
      writeState, writeLock, lookup;
    keep ltac:(first [ noSelf_leaf | apply Hconnect | apply Hoffer
                     | apply Hbegin | apply Hresume
                     | apply Hall | apply Hrest | apply Hclose ]).
Qed.

Lemma noSelf_run self es :
  forall s, noSelfRecord self s -> noSelfRecord self (fst (run es s)).
Proof.
  induction es as [|[tr e] es IH]; simpl; auto.
  intros s Hs. pose proof (noSelf_handle_event self tr e s Hs) as H1.
  rewrite <- exec_after in H1.
  destruct (exec (handle tr e) s) as [s1 t1]. simpl in H1.
  specialize (IH s1 H1). destruct (run es s1) as [s2 t2]. exact IH.
Qed.

(** X14: a service never holds a record for its own peer identifier:
    starting from a table without one, no join notification, offer,
    answer, timer or browser notification, in any order and with any
    transport answers, makes it create one; its identifier stays what it
    was. *)
Theorem never_a_record_for_oneself s0 es :
  JsMap.get (Rtc.peerId s0) (connections s0) = None ->
  Rtc.peerId (fst (run es s0)) = Rtc.peerId s0 /\
  JsMap.get (Rtc.peerId s0) (connections (fst (run es s0))) = None.
Proof.
  intros H0.
  destruct (noSelf_run (Rtc.peerId s0) es s0 (conj eq_refl H0)) as [Hid Hnone].
  split; [exact Hid | exact Hnone].
Qed.

Lemma never_a_record_for_oneself_witness :
  Rtc.peerId
    (fst (run [(Scenario.ok, OfferArrived "A" Scenario.sdpOffer);
               (Scenario.ok, AnswerArrived "A" Scenario.sdpAnswer);
               (Scenario.ok, PeerJoined (Peer.mk "H" true))]
              Scenario.guest)) = Rtc.peerId Scenario.guest /\
  JsMap.get (Rtc.peerId Scenario.guest)
    (connections
       (fst (run [(Scenario.ok, OfferArrived "A" Scenario.sdpOffer);
                  (Scenario.ok, AnswerArrived "A" Scenario.sdpAnswer);
                  (Scenario.ok, PeerJoined (Peer.mk "H" true))]
                 Scenario.guest))) = None.
Proof.
  apply (never_a_record_for_oneself Scenario.guest). reflexivity.
Defined.

(** *** Peers that are already known *)

Lemma terminal_false_live st :
  terminal st = false ->
  negb (state_eqb st DISCONNECTED) && negb (state_eqb st FAILED) = true.
Proof.
  unfold terminal. destruct (state_eqb st DISCONNECTED), (state_eqb st FAILED);
    simpl; congruence.
Qed.

Lemma connectToPeer_live tr s p h i pc :
  JsMap.get p (connections s) = Some pc ->
  terminal (state pc) = false ->
  connectToPeer tr p h i s = (Normal tt, s, []).
Proof.
  intros Hget Hlive. apply terminal_false_live in Hlive.
  unfold connectToPeer, replaceExisting. unfold_ops. simpl.
  destruct (String.eqb p (Rtc.peerId s)); simpl; [reflexivity|].
  now rewrite Hget, Hlive.
Qed.

Lemma connectToPeer_self tr s h i :
  connectToPeer tr (Rtc.peerId s) h i s = (Normal tt, s, []).
Proof.
  unfold connectToPeer. unfold_ops. simpl. now rewrite String.eqb_refl.
Qed.

Lemma connectToPeerBegin_live tr s p h i pc :
  JsMap.get p (connections s) = Some pc ->
  terminal (state pc) = false ->
  connectToPeerBegin tr p h i s = (Normal None, s, []).
Proof.
  intros Hget Hlive. apply terminal_false_live in Hlive.
  unfold connectToPeerBegin, replaceExisting. unfold_ops. simpl.
  destruct (String.eqb p (Rtc.peerId s)); simpl; [reflexivity|].
  now rewrite Hget, Hlive.
Qed.

Lemma connectToPeerBegin_self tr s h i :
  connectToPeerBegin tr (Rtc.peerId s) h i s = (Normal None, s, []).
Proof.
  unfold connectToPeerBegin. unfold_ops. simpl. now rewrite String.eqb_refl.
Qed.

Lemma handlePeerJoin_idle tr s peer :
  Rtc.isHost s = false
  \/ Peer.peerId peer = Rtc.peerId s
  \/ (exists pc, JsMap.get (Peer.peerId peer) (connections s) = Some pc /\
                 terminal (state pc) = false) ->
  exec (handlePeerJoin tr peer) s =
    (s, if onPeerCountChangeCallback s
        then [OnPeerCountChange (getConnectedPeerCount s)] else []).
Proof.
  intros Hcase.
  assert (Hconnect : Rtc.isHost s = true ->
            connectToPeerBegin tr (Peer.peerId peer) (Peer.isHost peer) true s
            = (Normal None, s, [])).
  { intros Hhost. destruct Hcase as [H | [H | [pc [Hget Hlive]]]].
    - congruence.
    - rewrite H. apply connectToPeerBegin_self.
    - eapply connectToPeerBegin_live; eauto. }
  unfold exec, handlePeerJoin, updatePeerCount, connectToPeerResume.
  unfold bind at 1 2. unfold gets at 1.
  destruct (Rtc.isHost s) eqn:Hhost.
  - rewrite (Hconnect eq_refl). unfold_ops. simpl.
    destruct (onPeerCountChangeCallback s); reflexivity.
  - unfold_ops. simpl. destruct (onPeerCountChangeCallback s); reflexivity.
Qed.

(** X15: a join notification starts nothing when the service is not the
    host, when the peer is the service itself, or when the table already
    holds a record for the peer that is neither DISCONNECTED nor FAILED:
    no connection is created, no offer goes out, the table is unchanged;
    only the peer count is reported. *)
Theorem join_of_known_peer_starts_nothing tr s peer :
  Rtc.isHost s = false
  \/ Peer.peerId peer = Rtc.peerId s
  \/ (exists pc, JsMap.get (Peer.peerId peer) (connections s) = Some pc /\
                 terminal (state pc) = false) ->
  exec (handlePeerJoin tr peer) s =
    (s, if onPeerCountChangeCallback s
        then [OnPeerCountChange (getConnectedPeerCount s)] else []).
Proof. apply handlePeerJoin_idle. Qed.

Lemma join_of_known_peer_starts_nothing_witness :
  exec (handlePeerJoin Scenario.ok (Peer.mk "A" false))
       (Scenario.hostWith ANSWER_RECEIVED false) =
    (Scenario.hostWith ANSWER_RECEIVED false, [OnPeerCountChange 0]).
Proof.
  apply (join_of_known_peer_starts_nothing Scenario.ok
           (Scenario.hostWith ANSWER_RECEIVED false) (Peer.mk "A" false)).
  right. right. exists (Scenario.recordOfA ANSWER_RECEIVED false).
  split; reflexivity.
Defined.

(** *** Stopping *)

Lemma closeAll_trace records s :
  closeAll records s = (Normal tt, s, flat_map teardown records).
Proof.
  induction records as [|pc rest IH]; simpl; [reflexivity|].
  unfold bind at 1. unfold closeRecord, teardown, channelClosed.
  destruct (dataChannel pc); unfold_ops; simpl; rewrite IH; reflexivity.
Qed.

Lemma exec_stop s :
  exec stop s =
    (set_connections JsMap.empty s,
     flat_map teardown (JsMap.values (connections s))
     ++ [TableClear; SignalingStop]).
Proof.
  unfold exec, stop. unfold bind at 1. unfold gets at 1.
  unfold bind at 1. rewrite closeAll_trace. unfold_ops. simpl.
  reflexivity.
Qed.

(** X16: [stop()] closes the data channel (if any) and the connection
    of every record, in table order, and then empties the table; the
    connected-peer count is 0 afterwards.  It invokes neither the
    disconnection callback nor the peer-count callback. *)
Theorem stop_tears_everything_down s :
  exec stop s =
    (set_connections JsMap.empty s,
     flat_map teardown (JsMap.values (connections s))
     ++ [TableClear; SignalingStop]) /\
  getConnectedPeerCount (fst (exec stop s)) = 0.
Proof.
  split; [apply exec_stop|]. now rewrite exec_stop.
Qed.





(** The trace of a composite begins with the trace of its first part. *)
Lemma trace_bind {A B} (m : M A) (k : A -> M B) s :
  exists rest, snd (exec (bind m k) s) = snd (exec m s) ++ rest.
Proof.
  unfold exec, bind. destruct (m s) as [[[a|] s1] t1]; simpl.
  - destruct (k a s1) as [[r s2] t2]. simpl. eauto.
  - exists []. now rewrite app_nil_r.
Qed.

Lemma trace_tryCatch {A} (m h : M A) s :
  exists rest, snd (exec (tryCatch m h) s) = snd (exec m s) ++ rest.
Proof.
  unfold exec, tryCatch. destruct (m s) as [[[a|] s1] t1]; simpl.
  - exists []. now rewrite app_nil_r.
  - destruct (h s1) as [[r s2] t2]. simpl. eauto.
Qed.

Lemma exec_bind_gets {A B} (f : RTCService -> A) (k : A -> M B) s :
  exec (bind (gets f) k) s = exec (k (f s)) s.
Proof.
  unfold exec, bind, gets. now destruct (k (f s) s) as [[r s2] t2].
Qed.

(** For a peer that is not the service itself and has no record,
    [connectToPeer] is its creation block. *)
Lemma connectToPeer_absent tr p h i s :
  p <> Rtc.peerId s ->
  JsMap.get p (connections s) = None ->
  connectToPeer tr p h i s = tryCatch (establish tr p h i) handleError s.
Proof.
  intros Hself Hnone. apply String.eqb_neq in Hself.
  unfold connectToPeer, replaceExisting, lookup.
  unfold bind at 1 2 3. unfold gets. rewrite Hself, Hnone. unfold ret.
  now destruct (tryCatch _ _ s) as [[r s2] t2].
Qed.

Lemma establish_begins tr p h i s :
  constructs tr = true ->
  exists rest,
    snd (exec (establish tr p h i) s) = NewRTCPeerConnection (nextHandle s) :: rest.
Proof.
  intros Hc. unfold establish.
  destruct (trace_bind (newRTCPeerConnection tr)
              (fun connection =>
                 (dataChannel <-
                    (if i then
                       ch <- createDataChannel tr connection ;; ret (Some ch)
                     else ret None) ;;
                  tableSet p
                    (PeerConnection.mk p h connection dataChannel i false NEW false) ;;
                  emit (SetTimeout (ConnectTimeout p h i) 10000%Z) ;;
                  if i then createAndSendOffer tr p else ret tt)%rtc) s)
    as [rest Hrest].
  exists rest. rewrite Hrest.
  unfold newRTCPeerConnection. rewrite Hc. reflexivity.
Qed.

Lemma connectToPeer_begins tr p h i s :
  p <> Rtc.peerId s ->
  JsMap.get p (connections s) = None ->
  constructs tr = true ->
  exists rest,
    snd (exec (connectToPeer tr p h i) s) = NewRTCPeerConnection (nextHandle s) :: rest.
Proof.
  intros Hself Hnone Hc. unfold exec.
  rewrite (connectToPeer_absent _ _ _ _ _ Hself Hnone).
  destruct (trace_tryCatch (establish tr p h i) handleError s) as [r1 H1].
  destruct (establish_begins tr p h i s Hc) as [r2 H2].
  unfold exec in *. rewrite H1, H2. simpl. eauto.
Qed.

Lemma handleOffer_begins tr p d s :
  p <> Rtc.peerId s ->
  JsMap.get p (connections s) = None ->
  constructs tr = true ->
  exists rest,
    snd (exec (handleOffer tr p d) s) = NewRTCPeerConnection (nextHandle s) :: rest.
Proof.
  intros Hself Hnone Hc. unfold handleOffer.
  match goal with
  | |- context [tryCatch ?m ?h] =>
      destruct (trace_tryCatch m h s) as [r1 H1]; rewrite H1
  end.
  unfold lookup at 1. rewrite exec_bind_gets, Hnone.
  match goal with
  | |- context [exec (bind ?m ?k) s] =>
      destruct (trace_bind m k s) as [r2 H2]; rewrite H2
  end.
  match goal with
  | |- context [exec (bind ?m ?k) s] =>
      destruct (trace_bind m k s) as [r3 H3]; rewrite H3
  end.
  destruct (connectToPeer_begins tr p false false s Hself Hnone Hc) as [r4 H4].
  rewrite H4. simpl. eauto.
Qed.

Lemma handleAnswer_begins tr p d s :
  p <> Rtc.peerId s ->
  JsMap.get p (connections s) = None ->
  constructs tr = true ->
  exists rest,
    snd (exec (handleAnswer tr p d) s) = NewRTCPeerConnection (nextHandle s) :: rest.
Proof.
  intros Hself Hnone Hc. unfold handleAnswer.
  match goal with
  | |- context [tryCatch ?m ?h] =>
      destruct (trace_tryCatch m h s) as [r1 H1]; rewrite H1
  end.
  unfold lookup at 1. rewrite exec_bind_gets, Hnone.
  match goal with
  | |- context [exec (bind ?m ?k) s] =>
      destruct (trace_bind m k s) as [r2 H2]; rewrite H2
  end.
  destruct (connectToPeer_begins tr p false true s Hself Hnone Hc) as [r4 H4].
  rewrite H4. simpl. eauto.
Qed.

(** X18: [stop()] cancels no timer.  A reconnect timer, or a retry of
    [handleOffer] or [handleAnswer], that fires after [stop()] for a peer
    other than the service itself finds the table empty and constructs a
    new [RTCPeerConnection]. *)
Theorem timers_outlive_stop tr s p h i d :
  p <> Rtc.peerId s ->
  constructs tr = true ->
  (exists rest,
     snd (exec (handle tr (TimerFired (Reconnect p h i))) (fst (exec stop s))) =
       NewRTCPeerConnection (nextHandle s) :: rest) /\
  (exists rest,
     snd (exec (handle tr (TimerFired (RetryHandleOffer p d))) (fst (exec stop s))) =
       NewRTCPeerConnection (nextHandle s) :: rest) /\
  (exists rest,
     snd (exec (handle tr (TimerFired (RetryHandleAnswer p d))) (fst (exec stop s))) =
       NewRTCPeerConnection (nextHandle s) :: rest).
Proof.
  intros Hself Hc. rewrite exec_stop. cbn [fst handle fire].
  repeat split.
  - apply (connectToPeer_begins tr p h i (set_connections JsMap.empty s)); auto.
  - apply (handleOffer_begins tr p d (set_connections JsMap.empty s)); auto.
  - apply (handleAnswer_begins tr p d (set_connections JsMap.empty s)); auto.
Qed.

Lemma timers_outlive_stop_witness :
  (exists rest,
     snd (exec (handle Scenario.ok (TimerFired (Reconnect "A" false true)))
               (fst (exec stop (Scenario.hostWith FAILED false)))) =
       NewRTCPeerConnection 2 :: rest) /\
  (exists rest,
     snd (exec (handle Scenario.ok (TimerFired (RetryHandleOffer "A" Scenario.sdpOffer)))
               (fst (exec stop (Scenario.hostWith FAILED false)))) =
       NewRTCPeerConnection 2 :: rest) /\
  (exists rest,
     snd (exec (handle Scenario.ok (TimerFired (RetryHandleAnswer "A" Scenario.sdpOffer)))
               (fst (exec stop (Scenario.hostWith FAILED false)))) =
       NewRTCPeerConnection 2 :: rest).
Proof.
  apply (timers_outlive_stop Scenario.ok (Scenario.hostWith FAILED false)
           "A" false true Scenario.sdpOffer).
  - discriminate.
  - reflexivity.
Defined.

(** *** One peer's events and another peer's record *)

Lemma holds_mutate p pc q f : q <> p -> keeps (holds p pc) (mutate q f).
Proof.
  intros Hne s Hs. unfold after, mutate, modify, holds in *. simpl.
  destruct (JsMap.get q (connections s)); auto. simpl.
  now rewrite get_set_other.
Qed.

Lemma holds_set p pc q x :
  q <> p ->
  keeps (holds p pc)
        (modify (fun s => set_connections (JsMap.set q x (connections s)) s)).
Proof.
  intros Hne s Hs. unfold after, modify, holds in *. simpl.
  now rewrite get_set_other.
Qed.

Lemma holds_delete p pc q :
  q <> p ->
  keeps (holds p pc)
        (modify (fun s => set_connections (JsMap.delete q (connections s)) s)).
Proof.
  intros Hne s Hs. unfold after, modify, holds in *. simpl.
  now rewrite get_delete_other.
Qed.

Lemma holds_handle p pc n : keeps (holds p pc) (modify (set_nextHandle n)).
Proof. intros s H. exact H. Qed.

Ltac holds_leaf :=
  first [ apply holds_handle
        | apply holds_mutate; assumption
        | apply holds_set; assumption
        | apply holds_delete; assumption ].

Lemma holds_other tr e q p pc :
  subject e = Some q -> q <> p -> keeps (holds p pc) (handle tr e).
Proof.
  intros Hq Hne.
  destruct e as [peers| |peer|from offer|from answer|cb|q' cs|q' h i failed
                |q' ch|q'|q']; try discriminate; try destruct cb;
    simpl in Hq; injection Hq as Hq; subst q; simpl;
    unfold_methods; keep holds_leaf.
Qed.

(** X19: the state machines of different peers do not touch each other:
    an event about one peer (its join notification, an offer or answer
    from it, one of its timers, a notification from its connection or
    channel) leaves the record of every other peer exactly as it was,
    whatever the transport answers. *)
Theorem events_touch_only_their_peer tr e q p pc s :
  subject e = Some q ->
  q <> p ->
  JsMap.get p (connections s) = Some pc ->
  JsMap.get p (connections (fst (exec (handle tr e) s))) = Some pc.
Proof.
  intros Hq Hne Hp. rewrite exec_after. now apply (holds_other tr e q p pc).
Qed.

Lemma events_touch_only_their_peer_witness :
  JsMap.get "A"
    (connections
       (fst (exec (handle Scenario.ok (OfferArrived "B" Scenario.sdpOffer))
                  (Scenario.hostWith OFFER_SENT false))))
    = Some (Scenario.recordOfA OFFER_SENT false).
Proof.
  apply (events_touch_only_their_peer Scenario.ok
           (OfferArrived "B" Scenario.sdpOffer) "B" "A").
  - reflexivity.
  - discriminate.
  - reflexivity.
Defined.

(** *** An established connection stays *)

(** The table holds a record for [p] that owns connection [c]. *)
Lemma owns_mutate p c q f :
  (forall pc, connection (f pc) = connection pc) ->
  keeps (fun s => exists pc, holds p pc s /\ connection pc = c) (mutate q f).
Proof.
  intros Hf s [pc [Hp Hc]]. unfold after, mutate, modify, holds in *. simpl.
  destruct (JsMap.get q (connections s)) as [x|] eqn:Hq; [|eauto]. simpl.
  destruct (string_dec q p) as [-> | Hne].
  - rewrite get_set_same. exists (f x). split; auto.
    rewrite Hf. congruence.
  - rewrite get_set_other by assumption. eauto.
Qed.

Ltac owns_leaf := apply owns_mutate; intros []; reflexivity.

Lemma owns_notification p c e :
  match e with
  | ConnectionStateChanged _ _ | IceConnectionStateChanged _ _ _ _
  | DataChannelReceived _ _ | ChannelOpened _ | ChannelClosed _
  | TimerFired (RetryOffer _) => True
  | _ => False
  end ->
  forall tr, keeps (fun s => exists pc, holds p pc s /\ connection pc = c)
                   (handle tr e).
Proof.
  destruct e as [peers| |peer|from offer|from answer|cb|q' cs|q' h i failed
                |q' ch|q'|q']; try tauto; try destruct cb; try tauto;
    intros _ tr; simpl; unfold_methods; keep owns_leaf.
Qed.

(** [start()] and a record that is not terminal: the attempt for its
    peer ends at once, and no other attempt touches it. *)
Lemma holds_connectToPeerBegin tr q h i p pc s :
  terminal (state pc) = false ->
  holds p pc s ->
  holds p pc (after (connectToPeerBegin tr q h i) s) /\
  (q = p ->
   fst (fst (connectToPeerBegin tr q h i s)) = Normal None).
Proof.
  intros Hlive Hs. destruct (string_dec q p) as [-> | Hne].
  - unfold after. rewrite (connectToPeerBegin_live _ _ _ _ _ _ Hs Hlive).
    split; [exact Hs | reflexivity].
  - split; [|contradiction]. revert s Hs.
    change (keeps (holds p pc) (connectToPeerBegin tr q h i)).
    unfold_methods. keep holds_leaf.
Qed.

Lemma holds_connectToPeerResume tr q k p pc :
  (q = p -> k = None) ->
  keeps (holds p pc) (connectToPeerResume tr q k).
Proof.
  intros Hk. destruct (string_dec q p) as [E | Hne].
  - rewrite (Hk E). apply keeps_ret.
  - unfold_methods. keep holds_leaf.
Qed.

(** The attempts for [p] among the calls [start()] has suspended. *)
Lemma holds_connectAllBegin peers p pc :
  terminal (state pc) = false ->
  forall s, holds p pc s ->
  holds p pc (after (connectAllBegin peers) s) /\
  forall calls, fst (fst (connectAllBegin peers s)) = Normal calls ->
    Forall (fun c => snd (fst c) = p -> snd c = None) calls.
Proof.
  intros Hlive. induction peers as [|[tr peer] rest IH]; intros s Hs.
  - split; [exact Hs|]. intros calls [= <-]. constructor.
  - destruct (holds_connectToPeerBegin tr (Peer.peerId peer)
                (Peer.isHost peer) true p pc s Hlive Hs) as [H1 Hk].
    simpl. unfold after, bind in *.
    destruct (connectToPeerBegin tr (Peer.peerId peer) (Peer.isHost peer)
                                 true s) as [[[k|] s1] t1]; simpl in *.
    + destruct (IH s1 H1) as [H2 Hks].
      destruct (connectAllBegin rest s1) as [[[ks|] s2] t2]; simpl in *.
      * split; [exact H2|]. intros calls [= <-]. constructor.
        -- simpl. intros E. specialize (Hk E). congruence.
        -- now apply Hks.
      * split; [exact H2|]. discriminate.
    + split; [exact H1|]. discriminate.
Qed.

Lemma holds_connectAllResume calls p pc :
  Forall (fun c => snd (fst c) = p -> snd c = None) calls ->
  keeps (holds p pc) (connectAllResume calls).
Proof.
  induction 1 as [|[[tr q] k] rest Hk Hrest IH]; simpl.
  - apply keeps_ret.
  - apply keeps_bind; [now apply holds_connectToPeerResume | intros _; exact IH].
Qed.

Lemma holds_updatePeerCount p pc : keeps (holds p pc) updatePeerCount.
Proof. unfold updatePeerCount. keep idtac. Qed.

Lemma holds_handleError p pc : keeps (holds p pc) handleError.
Proof. unfold handleError. keep idtac. Qed.

Lemma holds_start peers p pc :
  terminal (state pc) = false -> keeps (holds p pc) (start peers).
Proof.
  intros Hlive s Hs. unfold start, after.
  unfold bind at 1. unfold tryCatch. unfold bind at 1. unfold gets at 1.
  destruct (Rtc.isHost s).
  - destruct (holds_connectAllBegin peers p pc Hlive s Hs) as [H1 Hks].
    unfold bind at 1. unfold after in H1.
    destruct (connectAllBegin peers s) as [[[ks|] s1] t1]; simpl in *.
    + pose proof (holds_updatePeerCount p pc s1 H1) as H2.
      unfold bind at 1. unfold after in H2.
      destruct (updatePeerCount s1) as [[[u|] s2] t2]; simpl in *.
      * pose proof (holds_connectAllResume ks p pc (Hks ks eq_refl) s2 H2) as H3.
        unfold after in H3.
        destruct (connectAllResume ks s2) as [[r s3] t3]. simpl. exact H3.
      * pose proof (holds_handleError p pc s2 H2) as H3. unfold after in H3.
        unfold bind. destruct (handleError s2) as [[[u|] s3] t3]; simpl in *;
          exact H3.
    + pose proof (holds_handleError p pc s1 H1) as H3. unfold after in H3.
      unfold bind. destruct (handleError s1) as [[[u|] s3] t3]; simpl in *;
        exact H3.
  - unfold bind at 1. unfold ret at 1. simpl.
    pose proof (holds_updatePeerCount p pc s Hs) as H2.
    unfold bind at 1. unfold after in H2.
    destruct (updatePeerCount s) as [[[u|] s2] t2]; simpl in *.
    + exact H2.
    + pose proof (holds_handleError p pc s2 H2) as H3. unfold after in H3.
      unfold bind. destruct (handleError s2) as [[[u|] s3] t3]; simpl in *;
        exact H3.
Qed.

Lemma connectTimeout_connected tr s p h i pc :
  JsMap.get p (connections s) = Some pc ->
  state pc = CONNECTED ->
  exec (connectTimeout tr p h i) s = (s, []).
Proof.
  intros Hget Hst. unfold connectTimeout. unfold exec, bind at 1.
  unfold lookup, gets. rewrite Hget, Hst. simpl.
  now rewrite andb_false_r.
Qed.

Lemma unchanged_if (b : bool) s (t : list Effect) (x : RTCService * list Effect) :
  x = (s, if b then [] else t) -> fst x = s.
Proof. intros ->. reflexivity. Qed.

(** X20: no single event other than [stop()] takes an established
    connection away.  If the record of a peer is in state CONNECTED, then
    after any join notification, offer, answer, timer or browser
    notification, for this or any other peer and with any transport
    answers, the table still holds a record for the peer and it still
    owns the same connection object. *)
Theorem connected_record_is_not_replaced tr e p pc s :
  e <> Stop ->
  JsMap.get p (connections s) = Some pc ->
  state pc = CONNECTED ->
  exists pc',
    JsMap.get p (connections (fst (exec (handle tr e) s))) = Some pc' /\
    connection pc' = connection pc.
Proof.
  intros Hstop Hget Hst.
  assert (Hlive : terminal (state pc) = false) by now rewrite Hst.
  assert (Hinc : forall l, In CONNECTED l -> includes l (state pc) = true).
  { intros l Hl. apply includes_In. now rewrite Hst. }
  assert (Hsame : fst (exec (handle tr e) s) = s -> exists pc',
            JsMap.get p (connections (fst (exec (handle tr e) s))) = Some pc' /\
            connection pc' = connection pc).
  { intros ->. eauto. }
  assert (Hnote : match e with
                  | ConnectionStateChanged _ _ | IceConnectionStateChanged _ _ _ _
                  | DataChannelReceived _ _ | ChannelOpened _ | ChannelClosed _
                  | TimerFired (RetryOffer _) => True
                  | _ => False
                  end ->
                  exists pc',
                    JsMap.get p (connections (fst (exec (handle tr e) s))) = Some pc' /\
                    connection pc' = connection pc).
  { intros Hn. rewrite exec_after.
    apply (owns_notification p (connection pc) e Hn tr s). exists pc. now split. }
  destruct (subject e) as [q|] eqn:Hq.
  - destruct (string_dec q p) as [-> | Hne].
    + destruct e as [peers| |peer|from offer|from answer|cb|q' cs|q' h i failed
                    |q' ch|q'|q']; try discriminate; try (apply Hnote; exact I).
      * simpl in Hq. injection Hq as Hq. apply Hsame. simpl.
        rewrite handlePeerJoin_idle; [reflexivity|].
        right. right. exists pc. rewrite Hq. now split.
      * simpl in Hq. injection Hq as ->. apply Hsame. simpl.
        destruct (processingSignal pc) eqn:Hlock.
        -- now rewrite (handleOffer_busy _ _ _ _ _ Hget Hlock).
        -- rewrite (handleOffer_rejected _ _ _ _ _ Hget Hlock); [reflexivity|].
           apply Hinc. simpl. tauto.
      * simpl in Hq. injection Hq as ->. apply Hsame. simpl.
        destruct (processingSignal pc) eqn:Hlock.
        -- now rewrite (handleAnswer_busy _ _ _ _ _ Hget Hlock).
        -- rewrite (handleAnswer_rejected _ _ _ _ _ Hget Hlock); [reflexivity|].
           apply Hinc. simpl. tauto.
      * destruct cb; simpl in Hq; injection Hq as ->; simpl;
          try (apply Hnote; exact I); apply Hsame; simpl.
        -- unfold exec. now rewrite (connectToPeer_live _ _ _ _ _ _ Hget Hlive).
        -- now rewrite (connectTimeout_connected _ _ _ _ _ _ Hget Hst).
        -- destruct (processingSignal pc) eqn:Hlock.
           ++ now rewrite (handleOffer_busy _ _ _ _ _ Hget Hlock).
           ++ rewrite (handleOffer_rejected _ _ _ _ _ Hget Hlock); [reflexivity|].
              apply Hinc. simpl. tauto.
        -- destruct (processingSignal pc) eqn:Hlock.
           ++ now rewrite (handleAnswer_busy _ _ _ _ _ Hget Hlock).
           ++ rewrite (handleAnswer_rejected _ _ _ _ _ Hget Hlock); [reflexivity|].
              apply Hinc. simpl. tauto.
    + exists pc. split; auto. rewrite exec_after.
      now apply (holds_other tr e q p pc).
  - destruct e as [peers| |peer|from offer|from answer|cb|q' cs|q' h i failed
                  |q' ch|q'|q']; try discriminate; try congruence.
    + exists pc. split; auto. rewrite exec_after. simpl.
      now apply (holds_start peers p pc Hlive).
    + destruct cb; discriminate.
Qed.

Lemma connected_record_is_not_replaced_witness :
  exists pc',
    JsMap.get "A"
      (connections
         (fst (exec (handle Scenario.ok (TimerFired (ConnectTimeout "A" false true)))
                    (Scenario.hostWith CONNECTED false)))) = Some pc' /\
    connection pc' = connection (Scenario.recordOfA CONNECTED false).
Proof.
  apply (connected_record_is_not_replaced Scenario.ok
           (TimerFired (ConnectTimeout "A" false true)) "A"
           (Scenario.recordOfA CONNECTED false)
           (Scenario.hostWith CONNECTED false)).
  - discriminate.
  - reflexivity.
  - reflexivity.
Defined.

(** *** The connected-peer count *)

Lemma count_set p x x' (m : JsMap.t PeerConnection.t) :
  JsMap.get p m = Some x ->
  List.length (filter connected (JsMap.values (JsMap.set p x' m))) + counted x =
  List.length (filter connected (JsMap.values m)) + counted x'.
Proof.
  unfold counted. induction m as [|[k v] m IH]; simpl; [discriminate|].
  destruct (String.eqb k p) eqn:Hk.
  - intros [= ->]. simpl. destruct (connected x), (connected x'); simpl; lia.
  - intros Hget. specialize (IH Hget). simpl.
    destruct (connected v); simpl; lia.
Qed.

Ltac settle_count Hget :=
  unfold getConnectedPeerCount; simpl; rewrite ?set_set;
  match goal with
  | |- context [JsMap.set ?p ?x ?m] =>
      let H := fresh in
      pose proof (count_set p _ x m Hget) as H;
      unfold counted in *; simpl in *;
      repeat match goal with
             | |- context [connected ?pc] => destruct (connected pc)
             | H' : context [connected ?pc] |- _ => destruct (connected pc)
             end; simpl in *; lia
  | _ => unfold counted; repeat match goal with
             | |- context [connected ?pc] => destruct (connected pc)
             end; simpl; lia
  end.

Ltac run_notification Hget s :=
  unfold after, onopen, onclose, onconnectionstatechange, markDown,
    writeState, notifyConnection, notifyDisconnection, updatePeerCount,
    lookup, mutate, modify, emit, gets, bind, ret;
  cbv beta; rewrite !Hget; simpl; rewrite ?get_set_same; simpl;
  destruct s as [r self h conns c1 c2 c3 c4 n]; simpl in *.

Lemma onopen_count s p pc :
  JsMap.get p (connections s) = Some pc ->
  getConnectedPeerCount (after (onopen p) s) =
  getConnectedPeerCount s + (1 - counted pc).
Proof.
  intros Hget. run_notification Hget s.
  destruct c1, c4; simpl; settle_count Hget.
Qed.

Lemma onclose_count s p pc :
  JsMap.get p (connections s) = Some pc ->
  getConnectedPeerCount (after (onclose p) s) + counted pc =
  getConnectedPeerCount s.
Proof.
  intros Hget. run_notification Hget s.
  destruct c2, c4; simpl; settle_count Hget.
Qed.

Lemma onconnectionstatechange_count s p pc cs :
  JsMap.get p (connections s) = Some pc ->
  getConnectedPeerCount (after (onconnectionstatechange p cs) s) =
  match cs with
  | cs_connected => getConnectedPeerCount s + (1 - counted pc)
  | cs_disconnected | cs_failed | cs_closed =>
      getConnectedPeerCount s - counted pc
  | cs_new | cs_connecting => getConnectedPeerCount s
  end.
Proof.
  intros Hget.
  pose proof (count_set p pc pc (connections s) Hget) as Hpos.
  destruct cs; run_notification Hget s;
    try reflexivity;
    destruct (connected pc) eqn:Hc; simpl; rewrite ?get_set_same; simpl;
    destruct c1, c2, c4; simpl; settle_count Hget.
Qed.

Lemma onconnectionstatechange_flag s p pc :
  JsMap.get p (connections s) = Some pc ->
  exists pc1,
    JsMap.get p (connections (after (onconnectionstatechange p cs_connected) s))
      = Some pc1 /\ connected pc1 = true.
Proof.
  intros Hget. run_notification Hget s.
  destruct (connected pc) eqn:Hc; simpl; rewrite ?get_set_same; simpl.
  - rewrite ?get_set_same. eexists. split; [reflexivity|]. exact Hc.
  - destruct c1, c4; simpl; rewrite ?get_set_same;
      (eexists; split; [reflexivity|reflexivity]).
Qed.

(** X21: the connected-peer count moves with the [connected] flag of the
    record and not with the number of notifications.  For a peer with a
    record: the channel's open notification and the connection's
    'connected' notification each raise the count by one if the record
    was not yet counted and leave it alone otherwise; the close
    notification and the 'disconnected', 'failed' and 'closed'
    notifications lower it by one if the record was counted and leave it
    alone otherwise; and when both connected notifications arrive, the
    count has still risen by one only. *)
Theorem connected_count_moves_with_the_flag tr s p pc :
  JsMap.get p (connections s) = Some pc ->
  let n := getConnectedPeerCount s in
  let count e := getConnectedPeerCount (fst (exec (handle tr e) s)) in
  count (ChannelOpened p) = (if connected pc then n else S n) /\
  count (ConnectionStateChanged p cs_connected)
    = (if connected pc then n else S n) /\
  count (ChannelClosed p) = (if connected pc then n - 1 else n) /\
  (forall cs, In cs [cs_disconnected; cs_failed; cs_closed] ->
     count (ConnectionStateChanged p cs) = (if connected pc then n - 1 else n)) /\
  getConnectedPeerCount
    (fst (run [(tr, ConnectionStateChanged p cs_connected);
               (tr, ChannelOpened p)] s))
    = (if connected pc then n else S n).
Proof.
  intros Hget n count. subst count. cbv beta.
  pose proof (onopen_count s p pc Hget) as Hopen.
  pose proof (onclose_count s p pc Hget) as Hclose.
  pose proof (onconnectionstatechange_count s p pc) as Hcs.
  unfold counted in *. rewrite !exec_after. simpl handle.
  repeat split.
  - rewrite Hopen. subst n. destruct (connected pc); lia.
  - rewrite (Hcs cs_connected Hget). subst n. destruct (connected pc); lia.
  - subst n. destruct (connected pc); lia.
  - intros cs Hin. rewrite exec_after. simpl handle.
    rewrite (Hcs cs Hget). subst n.
    simpl in Hin. destruct Hin as [<-|[<-|[<-|[]]]]; destruct (connected pc); lia.
  - simpl.
    destruct (exec (onconnectionstatechange p cs_connected) s) as [s1 t1] eqn:H1.
    assert (Hs1 : s1 = after (onconnectionstatechange p cs_connected) s).
    { rewrite <- exec_after, H1. reflexivity. }
    destruct (exec (onopen p) s1) as [s2 t2] eqn:H2.
    assert (Hs2 : s2 = after (onopen p) s1).
    { rewrite <- exec_after, H2. reflexivity. }
    simpl. rewrite Hs2.
    destruct (onconnectionstatechange_flag s p pc Hget) as [pc1 [Hg1 Hc1]].
    rewrite <- Hs1 in Hg1.
    rewrite (onopen_count s1 p pc1 Hg1). unfold counted. rewrite Hc1, Hs1.
    rewrite (Hcs cs_connected Hget). subst n. destruct (connected pc); lia.
Qed.

Lemma connected_count_moves_with_the_flag_witness :
  getConnectedPeerCount
    (fst (run [(Scenario.ok, ConnectionStateChanged "A" cs_connected);
               (Scenario.ok, ChannelOpened "A")]
              (Scenario.hostWith ANSWER_RECEIVED false))) = 1.
Proof.
  exact (proj2 (proj2 (proj2 (proj2
    (connected_count_moves_with_the_flag Scenario.ok
       (Scenario.hostWith ANSWER_RECEIVED false) "A"
       (Scenario.recordOfA ANSWER_RECEIVED false) eq_refl))))).
Defined.

(** *** The handshake, end to end *)

Ltac settle_table H :=
  repeat (progress (rewrite ?H, ?get_set_same, ?set_set; simpl)).

Ltac run_methods :=
  unfold exec; unfold_methods;
  unfold mutate, modify, emit, gets, bind, ret, throw, tryCatch, tryFinally;
  cbv beta.

(** The host's side of a first contact: the record and the offer. *)
Lemma connectToPeer_offers tr s p h offer :
  p <> Rtc.peerId s ->
  JsMap.get p (connections s) = None ->
  constructs tr = true -> opensChannel tr = true ->
  createOffer tr = Some offer -> setsLocal tr = true -> delivers tr = true ->
  let c := nextHandle s in
  exec (connectToPeer tr p h true) s =
    (set_nextHandle (S (S c))
       (set_connections
          (JsMap.set p (PeerConnection.mk p h c (Some (S c)) true false
                                          OFFER_SENT false)
                     (connections s)) s),
     [NewRTCPeerConnection c; CreateDataChannel c (S c); TableSet p;
      SetTimeout (ConnectTimeout p h true) 10000%Z;
      LockWrite p true; StateWrite p CONNECTING; CreateOffer c;
      SetLocalDescription c offer; StateWrite p OFFER_SENT;
      SendOffer p offer; LockWrite p false]).
Proof.
  intros Hself Hnone Hc Hch Ho Hl Hd c. subst c.
  apply String.eqb_neq in Hself.
  destruct tr as [t1 t2 t3 t4 t5 t6 t7]. simpl in *. subst.
  destruct s as [r self hst conns c1 c2 c3 c4 n]. simpl in *.
  run_methods. simpl. rewrite Hself. simpl. rewrite Hnone. simpl.
  settle_table Hnone. reflexivity.
Qed.

(** The participant's side: the record made on the first offer, and the
    answer. *)
Lemma handleOffer_answers tr s from offer answer :
  from <> Rtc.peerId s ->
  JsMap.get from (connections s) = None ->
  constructs tr = true -> setsRemote tr = true ->
  createAnswer tr = Some answer -> setsLocal tr = true -> delivers tr = true ->
  let c := nextHandle s in
  exec (handleOffer tr from offer) s =
    (set_nextHandle (S c)
       (set_connections
          (JsMap.set from (PeerConnection.mk from false c None false false
                                             ANSWER_SENT false)
                     (connections s)) s),
     [NewRTCPeerConnection c; TableSet from;
      SetTimeout (ConnectTimeout from false false) 10000%Z;
      LockWrite from true; StateWrite from OFFER_RECEIVED;
      SetRemoteDescription c offer; CreateAnswer c;
      SetLocalDescription c answer; StateWrite from ANSWER_SENT;
      SendAnswer from answer; LockWrite from false]).
Proof.
  intros Hself Hnone Hc Hr Ha Hl Hd c. subst c.
  apply String.eqb_neq in Hself.
  destruct tr as [t1 t2 t3 t4 t5 t6 t7]. simpl in *. subst.
  destruct s as [r self hst conns c1 c2 c3 c4 n]. simpl in *.
  run_methods. simpl. rewrite Hnone. simpl. rewrite Hself. simpl.
  settle_table Hnone. reflexivity.
Qed.

(** The host's side again: the answer to the offer it sent. *)
Lemma handleAnswer_applies tr s from answer pc :
  JsMap.get from (connections s) = Some pc ->
  state pc = OFFER_SENT -> processingSignal pc = false ->
  setsRemote tr = true ->
  exec (handleAnswer tr from answer) s =
    (set_connections
       (JsMap.set from (set_state ANSWER_RECEIVED pc) (connections s)) s,
     [LockWrite from true; SetRemoteDescription (connection pc) answer;
      StateWrite from ANSWER_RECEIVED; LockWrite from false]).
Proof.
  intros Hget Hst Hlock Hr.
  destruct tr as [t1 t2 t3 t4 t5 t6 t7]. simpl in *. subst.
  destruct s as [r self hst conns c1 c2 c3 c4 n]. simpl in *.
  destruct pc as [a b c d e f g h]. simpl in *. subst.
  run_methods. simpl. settle_table Hget. reflexivity.
Qed.

(** The host's side when the peer is announced by the poll loop: the
    peer count is reported while the offer is being created. *)
Lemma handlePeerJoin_offers tr s peer offer :
  Rtc.isHost s = true ->
  Peer.peerId peer <> Rtc.peerId s ->
  JsMap.get (Peer.peerId peer) (connections s) = None ->
  constructs tr = true -> opensChannel tr = true ->
  createOffer tr = Some offer -> setsLocal tr = true -> delivers tr = true ->
  let c := nextHandle s in
  let p := Peer.peerId peer in
  exists report,
    exec (handlePeerJoin tr peer) s =
      (set_nextHandle (S (S c))
         (set_connections
            (JsMap.set p (PeerConnection.mk p (Peer.isHost peer) c (Some (S c))
                                            true false OFFER_SENT false)
                       (connections s)) s),
       [NewRTCPeerConnection c; CreateDataChannel c (S c); TableSet p;
        SetTimeout (ConnectTimeout p (Peer.isHost peer) true) 10000%Z;
        LockWrite p true; StateWrite p CONNECTING; CreateOffer c]
       ++ report
       ++ [SetLocalDescription c offer; StateWrite p OFFER_SENT;
           SendOffer p offer; LockWrite p false]) /\
    Forall (fun e => exists n, e = OnPeerCountChange n) report.
Proof.
  intros Hhost Hself Hnone Hc Hch Ho Hl Hd c p. subst c p.
  apply String.eqb_neq in Hself.
  destruct tr as [t1 t2 t3 t4 t5 t6 t7]. simpl in *. subst.
  destruct s as [r self hst conns c1 c2 c3 c4 n]. simpl in *. subst.
  run_methods. simpl. rewrite Hself. simpl.
  settle_table Hnone.
  destruct c4; simpl; settle_table Hnone.
  - eexists [_]. split; [reflexivity|]. repeat constructor. eauto.
  - exists []. split; [reflexivity|]. constructor.
Qed.

(** X22: the handshake goes through when nothing fails.  The host learns
    of a participant it has no record for and offers; the participant,
    with no record for the host, takes the offer and answers; the host
    takes the answer.  With every browser call and every signaling
    request succeeding, the offer the host sent is the one it created,
    the participant's answer goes to the host, the host's record ends in
    ANSWER_RECEIVED as initiator with a data channel, the participant's
    in ANSWER_SENT without one, and both are unlocked. *)
Theorem handshake_goes_through trH trA sH sA offer answer :
  let h := Rtc.peerId sH in
  let a := Rtc.peerId sA in
  Rtc.isHost sH = true ->
  a <> h ->
  JsMap.get a (connections sH) = None ->
  JsMap.get h (connections sA) = None ->
  constructs trH = true -> opensChannel trH = true ->
  createOffer trH = Some offer -> setsLocal trH = true ->
  delivers trH = true -> setsRemote trH = true ->
  constructs trA = true -> setsRemote trA = true ->
  createAnswer trA = Some answer -> setsLocal trA = true ->
  delivers trA = true ->
  let (sH1, t1) := exec (handle trH (PeerJoined (Peer.mk a false))) sH in
  let (sA1, t2) := exec (handle trA (OfferArrived h offer)) sA in
  let (sH2, t3) := exec (handle trH (AnswerArrived a answer)) sH1 in
  In (SendOffer a offer) t1 /\
  In (SendAnswer h answer) t2 /\
  In (SetRemoteDescription (nextHandle sH) answer) t3 /\
  JsMap.get a (connections sH2) =
    Some (PeerConnection.mk a false (nextHandle sH) (Some (S (nextHandle sH)))
                            true false ANSWER_RECEIVED false) /\
  JsMap.get h (connections sA1) =
    Some (PeerConnection.mk h false (nextHandle sA) None
                            false false ANSWER_SENT false).
Proof.
  intros h a Hhost Hne Ha Hh H1 H2 H3 H4 H5 H6 G1 G2 G3 G4 G5.
  simpl handle.
  destruct (handlePeerJoin_offers trH sH (Peer.mk a false) offer
              Hhost Hne Ha H1 H2 H3 H4 H5) as [report [-> _]].
  rewrite (handleOffer_answers trA sA h offer answer
             (fun E => Hne (eq_sym E)) Hh G1 G2 G3 G4 G5).
  cbn [Peer.peerId Peer.isHost].
  erewrite handleAnswer_applies;
    [| simpl; apply get_set_same | reflexivity | reflexivity | exact H6].
  simpl. rewrite !get_set_same. repeat split; auto 20.
  do 7 right. apply in_or_app. right. simpl. auto 20.
Qed.

Lemma handshake_goes_through_witness :
  let (sH1, t1) :=
    exec (handle Scenario.ok (PeerJoined (Peer.mk "A" false))) Scenario.host in
  let (sA1, t2) :=
    exec (handle Scenario.ok (OfferArrived "H" Scenario.sdpOffer)) Scenario.guest in
  let (sH2, t3) :=
    exec (handle Scenario.ok (AnswerArrived "A" Scenario.sdpAnswer)) sH1 in
  In (SendOffer "A" Scenario.sdpOffer) t1 /\
  In (SendAnswer "H" Scenario.sdpAnswer) t2 /\
  In (SetRemoteDescription 0 Scenario.sdpAnswer) t3 /\
  JsMap.get "A" (connections sH2) =
    Some (PeerConnection.mk "A" false 0 (Some 1) true false ANSWER_RECEIVED false) /\
  JsMap.get "H" (connections sA1) =
    Some (PeerConnection.mk "H" false 0 None false false ANSWER_SENT false).
Proof.
  apply (handshake_goes_through Scenario.ok Scenario.ok Scenario.host
           Scenario.guest Scenario.sdpOffer Scenario.sdpAnswer);
    try reflexivity; discriminate.
Defined.

Lemma handleAnswer_unknown tr s from answer offer :
  from <> Rtc.peerId s ->
  JsMap.get from (connections s) = None ->
  constructs tr = true -> opensChannel tr = true ->
  createOffer tr = Some offer -> setsLocal tr = true -> delivers tr = true ->
  let c := nextHandle s in
  exec (handleAnswer tr from answer) s =
    (set_nextHandle (S (S c))
       (set_connections
          (JsMap.set from (PeerConnection.mk from false c (Some (S c)) true
                                             false OFFER_SENT false)
                     (connections s)) s),
     [NewRTCPeerConnection c; CreateDataChannel c (S c); TableSet from;
      SetTimeout (ConnectTimeout from false true) 10000%Z;
      LockWrite from true; StateWrite from CONNECTING; CreateOffer c;
      SetLocalDescription c offer; StateWrite from OFFER_SENT;
      SendOffer from offer; LockWrite from false;
      SetTimeout (RetryHandleAnswer from answer) 500%Z]).
Proof.
  intros Hself Hnone Hc Hch Ho Hl Hd c. subst c.
  apply String.eqb_neq in Hself.
  destruct tr as [t1 t2 t3 t4 t5 t6 t7]. simpl in *. subst.
  destruct s as [r self hst conns c1 c2 c3 c4 n]. simpl in *.
  run_methods. simpl. rewrite Hnone. simpl. rewrite Hself. simpl.
  settle_table Hnone. reflexivity.
Qed.

(** X23: an answer from a peer the service has no record for is not
    dropped.  The service opens a connection to the sender as initiator,
    sends it an offer of its own and re-schedules the answer after
    500 ms; when that timer fires, the answer, which was made for some
    other offer, is applied to the new connection, whose record goes to
    ANSWER_RECEIVED. *)
Theorem answer_from_unknown_peer_is_applied_later tr s from answer offer :
  from <> Rtc.peerId s ->
  JsMap.get from (connections s) = None ->
  constructs tr = true -> opensChannel tr = true ->
  createOffer tr = Some offer -> setsLocal tr = true -> delivers tr = true ->
  setsRemote tr = true ->
  let c := nextHandle s in
  let (s1, t1) := exec (handle tr (AnswerArrived from answer)) s in
  let (s2, t2) := exec (handle tr (TimerFired (RetryHandleAnswer from answer))) s1 in
  t1 = [NewRTCPeerConnection c; CreateDataChannel c (S c); TableSet from;
        SetTimeout (ConnectTimeout from false true) 10000%Z;
        LockWrite from true; StateWrite from CONNECTING; CreateOffer c;
        SetLocalDescription c offer; StateWrite from OFFER_SENT;
        SendOffer from offer; LockWrite from false;
        SetTimeout (RetryHandleAnswer from answer) 500%Z] /\
  t2 = [LockWrite from true; SetRemoteDescription c answer;
        StateWrite from ANSWER_RECEIVED; LockWrite from false] /\
  JsMap.get from (connections s2) =
    Some (PeerConnection.mk from false c (Some (S c)) true false
                            ANSWER_RECEIVED false).
Proof.
  intros Hself Hnone Hc Hch Ho Hl Hd Hr c. subst c. simpl handle.
  rewrite (handleAnswer_unknown tr s from answer offer Hself Hnone Hc Hch Ho Hl Hd).
  erewrite handleAnswer_applies;
    [| simpl; apply get_set_same | reflexivity | reflexivity | exact Hr].
  simpl. rewrite !get_set_same. repeat split.
Qed.

Lemma answer_from_unknown_peer_is_applied_later_witness :
  let (s1, t1) :=
    exec (handle Scenario.ok (AnswerArrived "A" Scenario.sdpAnswer)) Scenario.host in
  let (s2, t2) :=
    exec (handle Scenario.ok (TimerFired (RetryHandleAnswer "A" Scenario.sdpAnswer))) s1 in
  t1 = [NewRTCPeerConnection 0; CreateDataChannel 0 1; TableSet "A";
        SetTimeout (ConnectTimeout "A" false true) 10000%Z;
        LockWrite "A" true; StateWrite "A" CONNECTING; CreateOffer 0;
        SetLocalDescription 0 Scenario.sdpOffer; StateWrite "A" OFFER_SENT;
        SendOffer "A" Scenario.sdpOffer; LockWrite "A" false;
        SetTimeout (RetryHandleAnswer "A" Scenario.sdpAnswer) 500%Z] /\
  t2 = [LockWrite "A" true; SetRemoteDescription 0 Scenario.sdpAnswer;
        StateWrite "A" ANSWER_RECEIVED; LockWrite "A" false] /\
  JsMap.get "A" (connections s2) =
    Some (PeerConnection.mk "A" false 0 (Some 1) true false
                            ANSWER_RECEIVED false).
Proof.
  apply (answer_from_unknown_peer_is_applied_later Scenario.ok Scenario.host
           "A" Scenario.sdpAnswer Scenario.sdpOffer);
    try reflexivity; discriminate.
Defined.

End RtcMore.

(* ================================================================== *)
(** ** Sending                                                         *)
(* ================================================================== *)

Module MessagingFacts.
Import Rtc Rtc.PeerConnection RtcView Messaging JsMapFacts RtcFacts RtcMore.
Local Open Scope string_scope.
Local Open Scope list_scope.

Lemma empty_tableOk s : connections s = JsMap.empty -> tableOk s.
Proof.
  intros H. unfold tableOk, JsMap.wf. rewrite H. split; constructor.
Qed.

Lemma ready_true ch pc :
  ready ch pc = true <->
  connected pc = true /\
  exists c, dataChannel pc = Some c /\ isOpen ch c = true.
Proof.
  unfold ready. rewrite andb_true_iff. split.
  - intros [Hc Hd]. split; auto.
    destruct (dataChannel pc) as [c|]; [eauto | discriminate].
  - intros [Hc [c [Hd Ho]]]. rewrite Hd. auto.
Qed.

Lemma sendToPeer_ready ch p pc c text s :
  JsMap.get p (connections s) = Some pc ->
  dataChannel pc = Some c -> isOpen ch c = true ->
  sendToPeer ch p (Some text) s =
    if accepts ch c then (true, [ChannelSend c text])
    else (false, reportError s).
Proof.
  intros Hget Hd Ho. unfold sendToPeer. now rewrite Hget, Hd, Ho.
Qed.

Lemma In_reportError o s : In o (reportError s) -> o = ErrorReported.
Proof.
  unfold reportError. destruct (onErrorCallback s); simpl; intuition.
Qed.

(** X24: [broadcast] hands the message to exactly the channels of the
    records that are flagged connected and whose channel is open and
    takes the message, for every table the service can reach from its
    construction: a record that is not flagged connected is skipped even
    when its channel is open. *)
Theorem broadcast_reaches_the_ready es s0 ch text c :
  connections s0 = JsMap.empty ->
  let s := fst (Rtc.run es s0) in
  In (ChannelSend c text) (broadcast ch (Some text) s) <->
  exists p pc,
    JsMap.get p (connections s) = Some pc /\
    connected pc = true /\ dataChannel pc = Some c /\
    isOpen ch c = true /\ accepts ch c = true.
Proof.
  intros Hempty s.
  assert (Hwf : JsMap.wf (connections s)).
  { apply (run_tableOk es s0 (empty_tableOk s0 Hempty)). }
  unfold broadcast. rewrite in_flat_map. split.
  - intros [[p pc] [Hin Hout]]. simpl in Hout.
    destruct (ready ch pc) eqn:Hready; [|contradiction].
    apply ready_true in Hready. destruct Hready as [Hc [c' [Hd Ho]]].
    pose proof (In_get _ _ _ Hwf Hin) as Hget.
    rewrite (sendToPeer_ready ch p pc c' text s Hget Hd Ho) in Hout.
    destruct (accepts ch c') eqn:Hacc; simpl in Hout.
    + destruct Hout as [[= <-]|[]]. exists p, pc. auto.
    + apply In_reportError in Hout. discriminate.
  - intros [p [pc [Hget [Hc [Hd [Ho Hacc]]]]]].
    exists (p, pc). split; [now apply get_In|]. simpl.
    assert (Hready : ready ch pc = true).
    { apply ready_true. eauto. }
    rewrite Hready, (sendToPeer_ready ch p pc c text s Hget Hd Ho), Hacc.
    simpl. auto.
Qed.

Lemma broadcast_reaches_the_ready_witness :
  In (ChannelSend 1 "hello")
     (broadcast (mkChannels (fun _ => true) (fun _ => true)) (Some "hello")
        (fst (Rtc.run [(Scenario.ok, PeerJoined (Peer.mk "A" false));
                       (Scenario.ok, ChannelOpened "A")] Scenario.host))) <->
  exists p pc,
    JsMap.get p
      (connections
         (fst (Rtc.run [(Scenario.ok, PeerJoined (Peer.mk "A" false));
                        (Scenario.ok, ChannelOpened "A")] Scenario.host)))
      = Some pc /\
    connected pc = true /\ dataChannel pc = Some 1 /\
    (fun _ : Handle => true) 1 = true /\ (fun _ : Handle => true) 1 = true.
Proof.
  apply (broadcast_reaches_the_ready
           [(Scenario.ok, PeerJoined (Peer.mk "A" false));
            (Scenario.ok, ChannelOpened "A")]
           Scenario.host (mkChannels (fun _ => true) (fun _ => true))
           "hello" 1).
  reflexivity.
Defined.

(** *** Before a connection is reported *)

Lemma nc_mutate q f :
  (forall pc, connected pc = false -> connected (f pc) = false) ->
  keeps noneConnected (mutate q f).
Proof.
  intros Hf s Hs. unfold after, mutate, modify. simpl.
  destruct (JsMap.get q (connections s)) as [pc|] eqn:Hget; [|exact Hs].
  unfold noneConnected in *. simpl. apply Forall_set; auto. simpl.
  apply Hf. apply get_In in Hget.
  now apply (proj1 (Forall_forall _ _) Hs (q, pc)).
Qed.

Lemma nc_set q pc :
  connected pc = false ->
  keeps noneConnected
        (modify (fun s => set_connections (JsMap.set q pc (connections s)) s)).
Proof.
  intros Hc s Hs. unfold after, modify, noneConnected in *. simpl.
  now apply Forall_set.
Qed.

Lemma nc_delete q :
  keeps noneConnected
        (modify (fun s => set_connections (JsMap.delete q (connections s)) s)).
Proof.
  intros s Hs. unfold after, modify, noneConnected, JsMap.delete in *. simpl.
  apply Forall_forall. intros e He. apply filter_In in He.
  now apply (proj1 (Forall_forall _ _) Hs e).
Qed.

Lemma nc_handle n : keeps noneConnected (modify (set_nextHandle n)).
Proof. intros s H. exact H. Qed.

Lemma nc_clear : keeps noneConnected (modify (set_connections JsMap.empty)).
Proof. intros s H. constructor. Qed.

Ltac nc_leaf :=
  first [ apply nc_handle | apply nc_clear | apply nc_delete
        | apply nc_set; reflexivity
        | apply nc_mutate; intros []; simpl; auto ].

Lemma nc_closeAll records : keeps noneConnected (closeAll records).
Proof.
  induction records as [|pc rest IH]; simpl; unfold_methods; keep assumption.
Qed.

Lemma nc_connectToPeer tr p h i : keeps noneConnected (connectToPeer tr p h i).
Proof. unfold_methods. keep nc_leaf. Qed.

Lemma nc_connectToPeerBegin tr p h i :
  keeps noneConnected (connectToPeerBegin tr p h i).
Proof. unfold_methods. keep nc_leaf. Qed.

Lemma nc_connectToPeerResume tr p k :
  keeps noneConnected (connectToPeerResume tr p k).
Proof. unfold_methods. keep nc_leaf. Qed.

Lemma nc_connectAllBegin peers : keeps noneConnected (connectAllBegin peers).
Proof.
  induction peers as [|[tr peer] rest IH]; simpl.
  - apply keeps_ret.
  - apply keeps_bind; [apply nc_connectToPeerBegin | intros k].
    apply keeps_bind; [exact IH | intros ks; apply keeps_ret].
Qed.

Lemma nc_connectAllResume calls : keeps noneConnected (connectAllResume calls).
Proof.
  induction calls as [|[[tr p] k] rest IH]; simpl.
  - apply keeps_ret.
  - apply keeps_bind; [apply nc_connectToPeerResume | intros _; exact IH].
Qed.

Lemma nc_handle_event tr e :
  raisesFlag e = false -> keeps noneConnected (handle tr e).
Proof.
  pose proof nc_connectAllBegin as Hall.
  pose proof nc_connectAllResume as Hrest. pose proof nc_closeAll as Hclose.
  destruct e as [peers| |peer|from offer|from answer|cb|p cs|p h i failed
                |p ch|p|p]; try discriminate; try destruct cb;
    try destruct cs; try discriminate; intros _; simpl;
    unfold start, stop; unfold_methods;
    keep ltac:(first [ nc_leaf | apply Hall | apply Hrest | apply Hclose ]).
Qed.

Lemma nc_run es :
  Forall (fun te => raisesFlag (snd te) = false) es ->
  forall s, noneConnected s -> noneConnected (fst (run es s)).
Proof.
  induction 1 as [|[tr e] es He Hes IH]; simpl; auto.
  intros s Hs. pose proof (nc_handle_event tr e He s Hs) as H1.
  rewrite <- exec_after in H1.
  destruct (exec (handle tr e) s) as [s1 t1]. simpl in H1.
  specialize (IH s1 H1). destruct (run es s1) as [s2 t2]. exact IH.
Qed.

Lemma broadcast_noneConnected ch message s :
  noneConnected s -> broadcast ch message s = [].
Proof.
  unfold noneConnected, broadcast. intros Hs.
  induction Hs as [|[p pc] rest Hpc Hrest IH]; simpl; auto.
  unfold ready. simpl in Hpc. rewrite Hpc. simpl. exact IH.
Qed.

(** X25: nothing is sent before a connection is reported.  Starting from
    a table in which no record is flagged connected, and as long as
    neither a channel's open notification nor a connection's 'connected'
    notification has come in, [broadcast] sends nothing, whatever else
    happened (start, joins, offers, answers, timers, failures, stop) and
    whatever the browser says about the channels.  In particular
    [joinQuiz] announces the participant to nobody: the service it builds
    is new and not a host, [start()] opens no connection and reports a
    peer count of zero, and the [broadcast('join', ...)] that follows
    at once finds an empty table, whichever peers the signaling server
    listed. *)
Theorem nothing_is_sent_before_a_connection ch message :
  (forall es s0,
     noneConnected s0 ->
     Forall (fun te => raisesFlag (snd te) = false) es ->
     broadcast ch message (fst (Rtc.run es s0)) = []) /\
  (forall roomCode rtcPeerId peers,
     Quiz.joinQuiz ch roomCode rtcPeerId peers message =
       (Quiz.setupRTCCallbacks (Rtc.new roomCode rtcPeerId false),
        [OnPeerCountChange 0], [])).
Proof.
  split.
  - intros es s0 Hs Hes. apply broadcast_noneConnected. now apply nc_run.
  - intros roomCode rtcPeerId peers. reflexivity.
Qed.

Lemma nothing_is_sent_before_a_connection_witness :
  broadcast (mkChannels (fun _ => true) (fun _ => true)) (Some "hello")
    (fst (Rtc.run [(Scenario.ok, PeerJoined (Peer.mk "A" false));
                   (Scenario.ok, AnswerArrived "A" Scenario.sdpAnswer);
                   (Scenario.ok, ConnectionStateChanged "A" cs_connecting)]
                  Scenario.host)) = [].
Proof.
  apply (proj1 (nothing_is_sent_before_a_connection
                  (mkChannels (fun _ => true) (fun _ => true)) (Some "hello"))).
  - constructor.
  - repeat constructor.
Defined.

End MessagingFacts.

(* ================================================================== *)
(** ** The quiz service: questions, timers and roles                   *)
(* ================================================================== *)

Module QuizFacts.
Import Quiz JsMapFacts.
Local Open Scope string_scope.
Local Open Scope list_scope.
Local Open Scope Z_scope.

(** *** Lists of timeouts *)

Lemma In_clearTimeout t p ps :
  In p (clearTimeout t ps) <-> In p ps /\ timer p <> t.
Proof.
  unfold clearTimeout. rewrite filter_In, negb_true_iff, Nat.eqb_neq.
  tauto.
Qed.

Lemma NoDup_map_filter {X Y} (f : X -> Y) (g : X -> bool) l :
  NoDup (map f l) -> NoDup (map f (filter g l)).
Proof.
  induction l as [|x l IH]; simpl; [auto|].
  intros H. inversion H as [|? ? Hnot Hrest]; subst.
  destruct (g x); simpl; auto.
  constructor; auto.
  intros Hin. apply Hnot. apply in_map_iff in Hin.
  destruct Hin as [y [Hy Hin]]. apply filter_In in Hin.
  apply in_map_iff. exists y. tauto.
Qed.

Lemma NoDup_map_inj {X Y} (f : X -> Y) l a b :
  NoDup (map f l) -> In a l -> In b l -> f a = f b -> a = b.
Proof.
  induction l as [|x l IH]; simpl; [tauto|].
  intros H Ha Hb Hab. inversion H as [|? ? Hnot Hrest]; subst.
  destruct Ha as [->|Ha], Hb as [->|Hb]; auto.
  - exfalso. apply Hnot. rewrite Hab. now apply in_map.
  - exfalso. apply Hnot. rewrite <- Hab. now apply in_map.
Qed.

Lemma NoDup_map_coarser {X Y Z'} (f : X -> Y) (g : X -> Z') l :
  NoDup (map f l) ->
  (forall a b, In a l -> In b l -> g a = g b -> f a = f b) ->
  NoDup (map g l).
Proof.
  induction l as [|x l IH]; simpl; [constructor|].
  intros H Hfg. inversion H as [|? ? Hnot Hrest]; subst.
  constructor.
  - intros Hin. apply in_map_iff in Hin. destruct Hin as [y [Hy Hin]].
    apply Hnot. rewrite (Hfg x y); auto. now apply in_map.
  - apply IH; auto.
Qed.

Lemma In_fold_clear ts : forall p ps,
  In p (fold_left (fun ps t => clearTimeout t ps) ts ps) ->
  In p ps /\ ~ In (timer p) ts.
Proof.
  induction ts as [|t ts IH]; simpl; [tauto|].
  intros p ps Hin. apply IH in Hin. destruct Hin as [Hin Hnot].
  apply In_clearTimeout in Hin. intuition.
Qed.

Lemma nothing_in {X} (l : list X) : (forall x, ~ In x l) -> l = [].
Proof.
  destruct l as [|x l]; auto. intros H. exfalso. apply (H x). now left.
Qed.

Lemma find_timer t ps p :
  find (fun p => Nat.eqb (timer p) t) ps = Some p -> In p ps /\ timer p = t.
Proof.
  intros H. apply find_some in H. now rewrite Nat.eqb_eq in H.
Qed.

Lemma timerDelay_inRange ms :
  0 <= ms < 2147483648 -> timerDelay ms = ms.
Proof.
  intros H. unfold timerDelay, toInt32.
  rewrite Z.mod_small by lia. lia.
Qed.

Lemma due_inRange now q :
  inRange now q ->
  now + timerDelay (Z.max 0 (Question.revealTime q - now))
    = Z.max now (Question.revealTime q).
Proof.
  unfold inRange. intros H. rewrite timerDelay_inRange by lia. lia.
Qed.

(** *** The timer table mirrors the pending timeouts *)

Lemma tidy_initial s :
  questionTimers s = JsMap.empty -> tidy (initial s).
Proof.
  intros H. unfold tidy, initial. simpl. rewrite H.
  split; [constructor|]. split; [intros; contradiction|].
  split; [intros; contradiction|]. intros qid t Hget. discriminate.
Qed.

Lemma tidy_question checked now q w :
  tidy w -> tidy (fst (handleQuestionMessage checked now q w)).
Proof.
  intros Hw. unfold handleQuestionMessage.
  destruct (Question.revealTime q <? checked - 60000); [exact Hw|].
  destruct (isHost (service w)); [exact Hw|].
  destruct Hw as (Hnd & Hlt & Hin & Hex).
  set (m := questionTimers (service w)) in *.
  set (cleared := match JsMap.get (Question.id q) m with
                  | Some old => clearTimeout old (pending w)
                  | None => pending w
                  end).
  assert (Hsub : forall p, In p cleared ->
                 In p (pending w) /\ Question.id (question p) <> Question.id q).
  { intros p Hp. subst cleared.
    destruct (JsMap.get (Question.id q) m) as [old|] eqn:Hold.
    - apply In_clearTimeout in Hp. destruct Hp as [Hp Hne]. split; auto.
      intros Hid. apply Hne. specialize (Hin p Hp). rewrite Hid in Hin.
      fold m in Hin. congruence.
    - split; auto. intros Hid. specialize (Hin p Hp). rewrite Hid in Hin.
      fold m in Hin. congruence. }
  assert (Hkeep : forall p, In p (pending w) ->
                  Question.id (question p) <> Question.id q -> In p cleared).
  { intros p Hp Hid. subst cleared.
    destruct (JsMap.get (Question.id q) m) as [old|] eqn:Hold; auto.
    apply In_clearTimeout. split; auto. intros Ht.
    destruct (Hex _ _ Hold) as [p0 [Hp0 [Ht0 Hid0]]].
    assert (E : p = p0)
      by (apply (NoDup_map_inj timer (pending w)); auto; congruence).
    apply Hid. now rewrite E. }
  assert (Hndc : NoDup (map timer cleared)).
  { subst cleared. destruct (JsMap.get (Question.id q) m); auto.
    now apply NoDup_map_filter. }
  unfold tidy. cbn [fst service pending nextTimer questionTimers set_questionTimers].
  split; [|split; [|split]].
  - rewrite map_app. simpl.
    apply NoDup_app; [exact Hndc | repeat constructor; simpl; tauto |].
    intros t Ht [<-|[]]. apply in_map_iff in Ht.
    destruct Ht as [p [Ht Hp]]. apply Hsub in Hp. destruct Hp as [Hp _].
    specialize (Hlt p Hp). lia.
  - intros p Hp. apply in_app_or in Hp. destruct Hp as [Hp|[<-|[]]].
    + apply Hsub in Hp. destruct Hp as [Hp _]. specialize (Hlt p Hp). lia.
    + simpl. lia.
  - intros p Hp. apply in_app_or in Hp. destruct Hp as [Hp|[<-|[]]].
    + apply Hsub in Hp. destruct Hp as [Hp Hid].
      rewrite get_set_other by congruence. now apply Hin.
    + simpl. apply get_set_same.
  - intros qid t Hget.
    destruct (string_dec (Question.id q) qid) as [<-|Hne].
    + rewrite get_set_same in Hget. injection Hget as <-.
      eexists. split; [apply in_or_app; right; left; reflexivity|]. auto.
    + rewrite get_set_other in Hget by assumption.
      destruct (Hex _ _ Hget) as [p [Hp [Ht Hid]]].
      exists p. split; auto. apply in_or_app. left. apply Hkeep; congruence.
Qed.

Lemma tidy_fires now t w : tidy w -> tidy (fst (step (TimerFires now t) w)).
Proof.
  intros Hw. simpl.
  destruct (find (fun p => Nat.eqb (timer p) t) (pending w)) as [p0|] eqn:Hf;
    [|exact Hw].
  destruct (due p0 <=? now); [|exact Hw].
  apply find_timer in Hf. destruct Hf as [Hp0 Ht0].
  destruct Hw as (Hnd & Hlt & Hin & Hex).
  unfold tidy, reveal.
  cbn [fst service pending nextTimer questionTimers set_questionTimers].
  assert (Hid : forall p, In p (pending w) -> timer p <> t ->
                Question.id (question p) <> Question.id (question p0)).
  { intros p Hp Hne Hid. apply Hne.
    pose proof (Hin p Hp) as H1. pose proof (Hin p0 Hp0) as H2.
    rewrite Hid in H1. congruence. }
  split; [|split; [|split]].
  - now apply NoDup_map_filter.
  - intros p Hp. apply In_clearTimeout in Hp. now apply Hlt.
  - intros p Hp. apply In_clearTimeout in Hp. destruct Hp as [Hp Hne].
    rewrite get_delete_other; auto.
    intros E. apply (Hid p Hp Hne). now symmetry.
  - intros qid t' Hget.
    destruct (string_dec (Question.id (question p0)) qid) as [<-|Hne].
    + now rewrite get_delete_same in Hget.
    + rewrite get_delete_other in Hget by assumption.
      destruct (Hex _ _ Hget) as [p [Hp [Ht Hq]]].
      exists p. split; auto. apply In_clearTimeout. split; auto.
      intros E. apply Hne. rewrite <- Hq.
      assert (E' : p = p0)
        by (apply (NoDup_map_inj timer (pending w)); auto; congruence).
      now rewrite E'.
Qed.

Lemma cleanup_pending w : tidy w -> pending (fst (cleanup w)) = [].
Proof.
  intros (Hnd & Hlt & Hin & Hex). unfold cleanup. cbn [fst pending].
  apply nothing_in. intros p Hp. apply In_fold_clear in Hp.
  destruct Hp as [Hp Hnot]. apply Hnot.
  apply (get_In_values _ _ _ (Hin p Hp)).
Qed.

Lemma tidy_cleanup w : tidy w -> tidy (fst (cleanup w)).
Proof.
  intros Hw. pose proof (cleanup_pending w Hw) as Hnil.
  unfold tidy. rewrite Hnil. unfold cleanup.
  cbn [fst service questionTimers set_questionTimers].
  split; [constructor|]. split; [intros; contradiction|].
  split; [intros; contradiction|]. intros qid t Hget. discriminate.
Qed.

Lemma tidy_step e w : tidy w -> tidy (fst (step e w)).
Proof.
  destruct e as [| |checked now m|now t|].
  - auto.
  - auto.
  - destruct m; simpl; auto. apply tidy_question.
  - apply tidy_fires.
  - apply tidy_cleanup.
Qed.

Lemma tidy_run es : forall w, tidy w -> tidy (fst (run es w)).
Proof.
  induction es as [|e es IH]; simpl; auto.
  intros w Hw. pose proof (tidy_step e w Hw) as H1.
  destruct (step e w) as [w1 t1]. simpl in H1.
  specialize (IH w1 H1). destruct (run es w1) as [w2 t2]. exact IH.
Qed.

Lemma tidy_reached s es :
  questionTimers s = JsMap.empty -> tidy (fst (run es (initial s))).
Proof. intros H. apply tidy_run, tidy_initial, H. Qed.

(** *** No timeout is due before the reveal time *)

Lemma punctual_step e w :
  questionsInRange e -> punctual w -> punctual (fst (step e w)).
Proof.
  intros He Hw. destruct e as [| |checked now m|now t|].
  - exact Hw.
  - exact Hw.
  - destruct m as [q|a|id| | |ty]; simpl; auto.
    unfold handleQuestionMessage.
    destruct (_ <? _); [exact Hw|].
    destruct (isHost (service w)); [exact Hw|].
    intros p Hp. cbn [fst pending] in Hp. apply in_app_or in Hp.
    destruct Hp as [Hp|[<-|[]]].
    + apply Hw. destruct (JsMap.get _ _); auto.
      now apply In_clearTimeout in Hp.
    + cbn [question due]. simpl in He. rewrite (due_inRange _ _ He). lia.
  - simpl. destruct (find _ _) as [p0|]; [|exact Hw].
    destruct (_ <=? _); [|exact Hw]. unfold reveal. cbn [fst pending].
    intros p Hp. apply In_clearTimeout in Hp. now apply Hw.
  - intros p Hp. unfold cleanup in Hp. cbn [fst pending] in Hp.
    apply In_fold_clear in Hp. now apply Hw.
Qed.

Lemma punctual_run es :
  Forall questionsInRange es ->
  forall w, punctual w -> punctual (fst (run es w)).
Proof.
  induction 1 as [|e es He Hes IH]; simpl; auto.
  intros w Hw. pose proof (punctual_step e w He Hw) as H1.
  destruct (step e w) as [w1 t1]. simpl in H1.
  specialize (IH w1 H1). destruct (run es w1) as [w2 t2]. exact IH.
Qed.

Lemma punctual_initial s : punctual (initial s).
Proof. intros p Hp. contradiction. Qed.

(** X26: whatever messages arrive, timeouts run and cleanups happen, the
    timer table mirrors the browser: an id is in [questionTimers] exactly
    when a timeout for a question of that id is pending, the entry is
    that timeout's handle, and no two pending timeouts are for the same
    question id. *)
Theorem one_pending_reveal_per_question s es :
  questionTimers s = JsMap.empty ->
  let w := fst (run es (initial s)) in
  NoDup (map (fun p => Question.id (question p)) (pending w)) /\
  (forall qid t,
     JsMap.get qid (questionTimers (service w)) = Some t <->
     exists p, In p (pending w) /\ timer p = t /\
               Question.id (question p) = qid).
Proof.
  intros Hs w. destruct (tidy_reached s es Hs) as (Hnd & Hlt & Hin & Hex).
  fold w in Hnd, Hlt, Hin, Hex. split.
  - apply (NoDup_map_coarser timer); auto.
    intros a b Ha Hb Hid. pose proof (Hin a Ha) as H1.
    pose proof (Hin b Hb) as H2. rewrite Hid in H1. congruence.
  - intros qid t. split; [apply Hex|].
    intros [p [Hp [<- <-]]]. now apply Hin.
Qed.

Lemma one_pending_reveal_per_question_witness :
  let w := fst (run [Incoming 10 10 (msgQuestion (Question.mk "q1" "2+2?" None 5000));
                     Incoming 20 20 (msgQuestion (Question.mk "q1" "2+2?" None 5000))]
                    (initial (new "P"))) in
  NoDup (map (fun p => Question.id (question p)) (pending w)) /\
  (forall qid t,
     JsMap.get qid (questionTimers (service w)) = Some t <->
     exists p, In p (pending w) /\ timer p = t /\
               Question.id (question p) = qid).
Proof.
  apply (one_pending_reveal_per_question (new "P")
           [Incoming 10 10 (msgQuestion (Question.mk "q1" "2+2?" None 5000));
            Incoming 20 20 (msgQuestion (Question.mk "q1" "2+2?" None 5000))]).
  reflexivity.
Defined.

(** X27: the latest copy of a question decides its reveal.  When a
    participant takes a question that is not older than a minute and
    whose reveal time is less than 2^31 ms ahead (the range of a timer
    delay), the one pending timeout for that question id afterwards is
    the new one, due at the later of the reveal time and the time of
    receipt; an earlier timeout for the id is gone, and the timeouts of
    all other questions are as before. *)
Theorem latest_copy_decides_the_reveal s es checked now q :
  questionTimers s = JsMap.empty ->
  let w := fst (run es (initial s)) in
  isHost (service w) = false ->
  checked - 60000 <= Question.revealTime q ->
  Question.revealTime q - now < 2147483648 ->
  let w' := fst (step (Incoming checked now (msgQuestion q)) w) in
  let fresh := mkPending (nextTimer w) q (Z.max now (Question.revealTime q)) in
  In fresh (pending w') /\
  (forall p, In p (pending w') ->
             Question.id (question p) = Question.id q -> p = fresh) /\
  (forall p, Question.id (question p) <> Question.id q ->
             (In p (pending w') <-> In p (pending w))).
Proof.
  intros Hs w Hrole Hfresh Hrange w' fresh.
  pose proof (tidy_reached s es Hs) as Hw. fold w in Hw.
  pose proof (tidy_step (Incoming checked now (msgQuestion q)) w Hw) as Hw'.
  fold w' in Hw'.
  destruct Hw as (Hnd & Hlt & Hin & Hex).
  destruct Hw' as (Hnd' & Hlt' & Hin' & Hex').
  assert (Hshape : w' =
    mkWorld
      (set_questionTimers
         (JsMap.set (Question.id q) (nextTimer w) (questionTimers (service w)))
         (service w))
      (match JsMap.get (Question.id q) (questionTimers (service w)) with
       | Some old => clearTimeout old (pending w)
       | None => pending w
       end ++ [fresh])
      (S (nextTimer w))).
  { subst w' fresh. cbn [step handleRTCMessage]. unfold handleQuestionMessage.
    apply Z.ltb_ge in Hfresh. rewrite Hfresh, Hrole. cbv zeta. cbn [fst].
    rewrite (due_inRange now q Hrange). reflexivity. }
  assert (Hnew : In fresh (pending w')).
  { rewrite Hshape. simpl. apply in_or_app. right. now left. }
  split; [exact Hnew|]. split.
  - intros p Hp Hid.
    apply (NoDup_map_inj timer (pending w')); auto.
    pose proof (Hin' p Hp) as H1. pose proof (Hin' fresh Hnew) as H2.
    rewrite Hid in H1.
    change (Question.id (question fresh)) with (Question.id q) in H2.
    congruence.
  - intros p Hid. rewrite Hshape. simpl. rewrite in_app_iff. simpl. split.
    + intros [Hp|[<-|[]]]; [|now elim Hid].
      destruct (JsMap.get (Question.id q) (questionTimers (service w))); auto.
      now apply In_clearTimeout in Hp.
    + intros Hp. left.
      destruct (JsMap.get (Question.id q) (questionTimers (service w)))
        as [old|] eqn:Hold; auto.
      apply In_clearTimeout. split; auto. intros Ht.
      destruct (Hex _ _ Hold) as [p0 [Hp0 [Ht0 Hid0]]].
      assert (E : p = p0)
        by (apply (NoDup_map_inj timer (pending w)); auto; congruence).
      apply Hid. now rewrite E.
Qed.

Lemma latest_copy_decides_the_reveal_witness :
  let q := Question.mk "q1" "2+2?" None 5000 in
  let w := fst (run [Incoming 10 10 (msgQuestion q)] (initial (new "P"))) in
  let w' := fst (step (Incoming 700 700 (msgQuestion q)) w) in
  let fresh := mkPending (nextTimer w) q (Z.max 700 (Question.revealTime q)) in
  In fresh (pending w') /\
  (forall p, In p (pending w') ->
             Question.id (question p) = Question.id q -> p = fresh) /\
  (forall p, Question.id (question p) <> Question.id q ->
             (In p (pending w') <-> In p (pending w))).
Proof.
  apply (latest_copy_decides_the_reveal (new "P")
           [Incoming 10 10 (msgQuestion (Question.mk "q1" "2+2?" None 5000))]
           700 700 (Question.mk "q1" "2+2?" None 5000)).
  - reflexivity.
  - reflexivity.
  - simpl. lia.
  - simpl. lia.
Defined.

(** Beyond that range the delay wraps: a question whose reveal time is
    2^31 ms ahead is accepted, and its timeout is due at once. *)
Lemma far_question_is_due_at_once :
  pending (fst (step (Incoming 0 0
                        (msgQuestion (Question.mk "q1" "2+2?" None 2147483648)))
                     (initial (new "P"))))
    = [mkPending 0%nat (Question.mk "q1" "2+2?" None 2147483648) 0].
Proof. reflexivity. Qed.

(** *** Reveals *)

(** X28: a question is shown only by its timeout, and not before its
    reveal time as long as the questions that came in had their reveal
    time less than 2^31 ms ahead, the range of a timer delay: if a step
    of the service then runs the question callback for [q], the step is
    a timeout that was pending for [q], and the clock has reached
    [q.revealTime]. *)
Theorem no_question_is_revealed_early s es e q :
  Forall questionsInRange es ->
  let w := fst (run es (initial s)) in
  In (OnQuestion q) (snd (step e w)) ->
  exists now t p,
    e = TimerFires now t /\ In p (pending w) /\ timer p = t /\
    question p = q /\ Question.revealTime q <= now.
Proof.
  intros Hes w Hin.
  pose proof (punctual_run es Hes _ (punctual_initial s)) as Hdue.
  fold w in Hdue.
  destruct e as [| |checked now m|now t|].
  - contradiction.
  - contradiction.
  - exfalso. destruct m as [q0|a|id| | |ty]; simpl in Hin; try contradiction.
    + unfold handleQuestionMessage in Hin.
      destruct (Question.revealTime q0 <? checked - 60000); [contradiction|].
      destruct (isHost (service w)); [contradiction|].
      simpl in Hin. apply in_app_or in Hin.
      destruct Hin as [Hin|[Hin|[]]]; [|discriminate].
      destruct (JsMap.get _ _); simpl in Hin; intuition discriminate.
    + unfold handleAnswerMessage in Hin.
      destruct (_ || _); [contradiction|].
      destruct (onAnswerCallback _); simpl in Hin; intuition discriminate.
    + unfold handleJoinMessage in Hin.
      destruct (String.eqb _ _); [contradiction|].
      destruct (onParticipantJoinCallback _); simpl in Hin;
        intuition discriminate.
  - simpl in Hin.
    destruct (find (fun p => Nat.eqb (timer p) t) (pending w)) as [p|] eqn:Hf;
      [|contradiction].
    destruct (due p <=? now) eqn:Hle; [|contradiction].
    apply find_timer in Hf. destruct Hf as [Hp Ht].
    unfold reveal in Hin. simpl in Hin.
    destruct (onQuestionCallback (service w)); [|contradiction].
    destruct Hin as [[= <-]|[]].
    exists now, t, p. repeat split; auto.
    apply Z.leb_le in Hle. specialize (Hdue p Hp). lia.
  - exfalso. simpl in Hin. apply in_map_iff in Hin.
    destruct Hin as [x [Hx _]]. discriminate.
Qed.

Lemma no_question_is_revealed_early_witness :
  let q := Question.mk "q1" "2+2?" None 5000 in
  exists now t p,
    TimerFires 5000 0%nat = TimerFires now t /\
    In p (pending (fst (run [Incoming 10 10 (msgQuestion q)]
                            (initial (onQuestion (new "P")))))) /\
    timer p = t /\ question p = q /\ Question.revealTime q <= now.
Proof.
  apply (no_question_is_revealed_early (onQuestion (new "P"))
           [Incoming 10 10 (msgQuestion (Question.mk "q1" "2+2?" None 5000))]
           (TimerFires 5000 0%nat) (Question.mk "q1" "2+2?" None 5000)).
  - constructor; [vm_compute; reflexivity | constructor].
  - simpl. now left.
Defined.

(** *** Roles *)

Lemma step_participantId e w :
  participantId (service (fst (step e w))) = participantId (service w).
Proof.
  destruct e as [| |checked now m|now t|]; simpl; auto.
  - destruct m; simpl; auto. unfold handleQuestionMessage.
    destruct (_ <? _); auto. destruct (isHost (service w)); auto.
  - destruct (find _ _); auto. destruct (_ <=? _); auto.
Qed.

Lemma run_participantId es :
  forall w, participantId (service (fst (run es w))) = participantId (service w).
Proof.
  induction es as [|e es IH]; simpl; auto.
  intros w. pose proof (step_participantId e w) as H1.
  specialize (IH (fst (step e w))).
  destruct (step e w) as [w1 t1]. simpl in *.
  destruct (run es w1) as [w2 t2]. simpl in *. congruence.
Qed.

(** A host that is not turned into a participant stays a host, sets no
    timeout and, with none pending, shows no question. *)
Lemma step_host_idle e w :
  staysHost e ->
  isHost (service w) = true -> pending w = [] ->
  isHost (service (fst (step e w))) = true /\
  pending (fst (step e w)) = [] /\
  forall q, ~ In (OnQuestion q) (snd (step e w)).
Proof.
  intros He Hhost Hnil. destruct e as [| |checked now m|now t|]; simpl.
  - split; [reflexivity|]. split; [assumption|tauto].
  - contradiction.
  - destruct m as [q0|a|id| | |ty]; simpl;
      try (split; [assumption|]; split; [assumption|tauto]).
    + unfold handleQuestionMessage.
      destruct (_ <? _); [|rewrite Hhost]; simpl;
        (split; [assumption|]; split; [assumption|tauto]).
    + split; [assumption|]. split; [assumption|].
      intros q. unfold handleAnswerMessage.
      destruct (_ || _); auto. destruct (onAnswerCallback _); simpl;
        intuition discriminate.
    + split; [assumption|]. split; [assumption|].
      intros q. unfold handleJoinMessage.
      destruct (String.eqb _ _); auto.
      destruct (onParticipantJoinCallback _); simpl; intuition discriminate.
  - rewrite Hnil. simpl. split; [assumption|]. split; [assumption|tauto].
  - rewrite Hnil. split; [assumption|]. split.
    + clear. induction (JsMap.values _); simpl; auto.
    + intros q Hin. apply in_map_iff in Hin. destruct Hin as [x [Hx _]].
      discriminate.
Qed.

Lemma run_host_idle es :
  Forall staysHost es ->
  forall w, isHost (service w) = true -> pending w = [] ->
  pending (fst (run es w)) = [] /\
  forall q, ~ In (OnQuestion q) (snd (run es w)).
Proof.
  induction 1 as [|e es He Hes IH]; simpl; [tauto|].
  intros w Hhost Hnil.
  destruct (step_host_idle e w He Hhost Hnil) as (Hh1 & Hn1 & Hq1).
  specialize (IH (fst (step e w)) Hh1 Hn1).
  destruct (step e w) as [w1 t1]. simpl in *.
  destruct (run es w1) as [w2 t2]. simpl in *.
  destruct IH as [Hn2 Hq2]. split; [exact Hn2|].
  intros q Hin. apply in_app_or in Hin. destruct Hin as [Hin|Hin].
  - now apply (Hq1 q).
  - now apply (Hq2 q).
Qed.

Lemma step_reports e w :
  (forall a, In (OnAnswer a) (snd (step e w)) ->
             isHost (service w) = true /\
             Answer.participantId a <> participantId (service w)) /\
  (forall id, In (OnParticipantJoin id) (snd (step e w)) ->
              id <> participantId (service w)) /\
  (forall t q ms, In (SetTimeout t q ms) (snd (step e w)) ->
                  isHost (service w) = false).
Proof.
  destruct e as [| |checked now m|now t|]; simpl.
  - repeat split; intros; contradiction.
  - repeat split; intros; contradiction.
  - destruct m as [q0|a0|id0| | |ty]; simpl;
      try (repeat split; intros; contradiction).
    + unfold handleQuestionMessage.
      destruct (_ <? _); [repeat split; intros; contradiction|].
      destruct (isHost (service w)); [repeat split; intros; contradiction|].
      simpl. split; [|split].
      * intros x Hin. apply in_app_or in Hin.
        destruct Hin as [Hin|[Hin|[]]]; [|discriminate].
        destruct (JsMap.get _ _); simpl in Hin; intuition discriminate.
      * intros x Hin. apply in_app_or in Hin.
        destruct Hin as [Hin|[Hin|[]]]; [|discriminate].
        destruct (JsMap.get _ _); simpl in Hin; intuition discriminate.
      * reflexivity.
    + unfold handleAnswerMessage.
      destruct (String.eqb _ _) eqn:Heq; simpl;
        [repeat split; intros; contradiction|].
      destruct (isHost (service w)); simpl;
        [|repeat split; intros; contradiction].
      destruct (onAnswerCallback _); simpl;
        [|repeat split; intros; contradiction].
      split; [|split].
      * intros a [[= <-]|[]]. split; auto. now apply String.eqb_neq.
      * intros id [H|[]]. discriminate.
      * intros t q ms [H|[]]. discriminate.
    + unfold handleJoinMessage.
      destruct (String.eqb _ _) eqn:Heq;
        [repeat split; intros; contradiction|].
      destruct (onParticipantJoinCallback _); simpl;
        [|repeat split; intros; contradiction].
      split; [|split].
      * intros a [H|[]]. discriminate.
      * intros id [[= <-]|[]]. now apply String.eqb_neq.
      * intros t q ms [H|[]]. discriminate.
  - destruct (find _ _); [|repeat split; intros; contradiction].
    destruct (_ <=? _); [|repeat split; intros; contradiction].
    unfold reveal. simpl. destruct (onQuestionCallback _); simpl;
      (split; [|split]); intros; intuition discriminate.
  - split; [|split]; intros; 
      match goal with H : In _ (map _ _) |- _ =>
        apply in_map_iff in H; destruct H as [y [Hy _]]; discriminate end.
Qed.

(** The role is not fixed: a reveal that a participant has pending
    still fires after the service has created a quiz of its own. *)
Lemma pending_reveal_survives_createQuiz :
  snd (run [JoinQuiz;
            Incoming 10 10 (msgQuestion (Question.mk "q1" "2+2?" None 5000));
            CreateQuiz;
            TimerFires 5000 0%nat]
           (initial (onQuestion (new "P"))))
    = [SetTimeout 0%nat (Question.mk "q1" "2+2?" None 5000) 4990;
       OnQuestion (Question.mk "q1" "2+2?" None 5000)].
Proof. reflexivity. Qed.

(** X29: the roles are respected at every point of every run, changes
    of role by [createQuiz] and [joinQuiz] included.  An answer is
    reported only while the service is host, and never one that carries
    the service's own participant id; a join is never reported for the
    service's own participant id; a reveal timeout is set only while the
    service is a participant; and a host with no reveal pending sets no
    timeout and shows no question for as long as it does not join a
    quiz.  (A reveal that was pending when a participant became host
    still fires.) *)
Theorem roles_are_respected s es e :
  let w := fst (run es (initial s)) in
  let out := snd (step e w) in
  (forall a, In (OnAnswer a) out ->
     isHost (service w) = true /\ Answer.participantId a <> participantId s) /\
  (forall id, In (OnParticipantJoin id) out -> id <> participantId s) /\
  (forall t q ms, In (SetTimeout t q ms) out -> isHost (service w) = false) /\
  (isHost (service w) = true -> pending w = [] ->
   forall later, Forall staysHost later ->
     pending (fst (run later w)) = [] /\
     forall q, ~ In (OnQuestion q) (snd (run later w))).
Proof.
  intros w out.
  pose proof (run_participantId es (initial s)) as Hid. fold w in Hid.
  simpl in Hid.
  destruct (step_reports e w) as (Hans & Hjoin & Hset).
  rewrite Hid in Hans, Hjoin.
  split; [exact Hans|]. split; [exact Hjoin|]. split; [exact Hset|].
  intros Hhost Hnil later Hlater. now apply run_host_idle.
Qed.

Lemma roles_are_respected_witness :
  let s := onAnswer (new "H") in
  let a := Answer.mk "q1" "4" "P" in
  let w := fst (run [CreateQuiz] (initial s)) in
  In (OnAnswer a) (snd (step (Incoming 10 10 (msgAnswer a)) w)) /\
  isHost (service w) = true /\ Answer.participantId a <> participantId s.
Proof.
  split.
  - simpl. now left.
  - apply (proj1 (roles_are_respected (onAnswer (new "H")) [CreateQuiz]
                    (Incoming 10 10 (msgAnswer (Answer.mk "q1" "4" "P"))))).
    simpl. now left.
Defined.

(** X30: [cleanup()] silences the service.  It clears every pending
    reveal timeout and empties the timer table, so that nothing the
    browser's timers do afterwards shows a question, until a new
    question message arrives. *)
Theorem cleanup_silences_the_timers s es now t :
  questionTimers s = JsMap.empty ->
  let w := fst (step Cleanup (fst (run es (initial s)))) in
  pending w = [] /\
  questionTimers (service w) = JsMap.empty /\
  step (TimerFires now t) w = (w, []).
Proof.
  intros Hs w.
  pose proof (cleanup_pending _ (tidy_reached s es Hs)) as Hnil.
  change (pending w = []) in Hnil.
  split; [exact Hnil|]. split; [reflexivity|].
  cbn [step]. rewrite Hnil. reflexivity.
Qed.

Lemma cleanup_silences_the_timers_witness :
  let w := fst (step Cleanup
                  (fst (run [Incoming 10 10
                               (msgQuestion (Question.mk "q1" "2+2?" None 5000))]
                            (initial (onQuestion (new "P")))))) in
  pending w = [] /\
  questionTimers (service w) = JsMap.empty /\
  step (TimerFires 5000 0%nat) w = (w, []).
Proof.
  apply (cleanup_silences_the_timers (onQuestion (new "P"))
           [Incoming 10 10 (msgQuestion (Question.mk "q1" "2+2?" None 5000))]
           5000 0%nat).
  reflexivity.
Defined.

End QuizFacts.
